(** * ReadsProcessor: canonical 2-bit packing of k-mers

    A shallow embedding of [src/Common/ReadsProcessor.cpp]: the constructor
    that derives the byte geometry from the window size, the eight 256-entry
    lookup tables, [getBases] and [prepSeq].

    Conventions.
    - An [unsigned char] is a [Z] in [0, 255]; [|], [>>], [<<] and [&] are
      [Z.lor], [Z.shiftr], [Z.shiftl] (truncated to 8 bits) and [Z.land].
    - A [std::string] is a [list ascii]; [sequence[i]] is [at_ sequence i].
    - Sizes and cursors ([unsigned], [size_t], [int] indices) are [nat].  All
      quantities the constructor derives are at most [windowSize], so the
      32-bit arithmetic there cannot wrap.  In [prepSeq] the only cursor that
      can wrap is [revIndex], whose last post-decrement passes below zero
      when the window starts at position 0 and has been consumed entirely;
      the wrapped value is never read again, and the model's truncated
      subtraction is just as dead there.
    - The scratch buffers [m_fw] and [m_rv] are [list Z] of length
      [m_kmerSizeInBytes]; an access past their end is reported as
      [OutOfBounds] instead of being given a meaning. *)

From Stdlib Require Import ZArith Ascii String List Bool Arith Lia ZifyNat.
Import ListNotations.

Local Open Scope Z_scope.

(** ** The lookup tables *)

Module Tables.

Definition fw3 : list Z := [
  0xFF; 0xFF; 0xFF; 0xFF; 0xFF; 0xFF; 0xFF; 0xFF;  (* 0 *)
  0xFF; 0xFF; 0xFF; 0xFF; 0xFF; 0xFF; 0xFF; 0xFF;
  0xFF; 0xFF; 0xFF; 0xFF; 0xFF; 0xFF; 0xFF; 0xFF;  (* 1 *)
  0xFF; 0xFF; 0xFF; 0xFF; 0xFF; 0xFF; 0xFF; 0xFF;
  0xFF; 0xFF; 0xFF; 0xFF; 0xFF; 0xFF; 0xFF; 0xFF;  (* 2 *)
  0xFF; 0xFF; 0xFF; 0xFF; 0xFF; 0xFF; 0xFF; 0xFF;
  0xFF; 0xFF; 0xFF; 0xFF; 0xFF; 0xFF; 0xFF; 0xFF;  (* 3 *)
  0xFF; 0xFF; 0xFF; 0xFF; 0xFF; 0xFF; 0xFF; 0xFF;
  0xFF; 0x00; 0xFF; 0x01; 0xFF; 0xFF; 0xFF; 0x02;  (* 4 *)
  0xFF; 0xFF; 0xFF; 0xFF; 0xFF; 0xFF; 0xFF; 0xFF;
  0xFF; 0xFF; 0xFF; 0xFF; 0x03; 0xFF; 0xFF; 0xFF;  (* 5 *)
  0xFF; 0xFF; 0xFF; 0xFF; 0xFF; 0xFF; 0xFF; 0xFF;
  0xFF; 0x00; 0xFF; 0x01; 0xFF; 0xFF; 0xFF; 0x02;  (* 6 *)
  0xFF; 0xFF; 0xFF; 0xFF; 0xFF; 0xFF; 0xFF; 0xFF;
  0xFF; 0xFF; 0xFF; 0xFF; 0x03; 0xFF; 0xFF; 0xFF;  (* 7 *)
  0xFF; 0xFF; 0xFF; 0xFF; 0xFF; 0xFF; 0xFF; 0xFF;
  0xFF; 0xFF; 0xFF; 0xFF; 0xFF; 0xFF; 0xFF; 0xFF;  (* 8 *)
  0xFF; 0xFF; 0xFF; 0xFF; 0xFF; 0xFF; 0xFF; 0xFF;
  0xFF; 0xFF; 0xFF; 0xFF; 0xFF; 0xFF; 0xFF; 0xFF;  (* 9 *)
  0xFF; 0xFF; 0xFF; 0xFF; 0xFF; 0xFF; 0xFF; 0xFF;
  0xFF; 0xFF; 0xFF; 0xFF; 0xFF; 0xFF; 0xFF; 0xFF;  (* A *)
  0xFF; 0xFF; 0xFF; 0xFF; 0xFF; 0xFF; 0xFF; 0xFF;
  0xFF; 0xFF; 0xFF; 0xFF; 0xFF; 0xFF; 0xFF; 0xFF;  (* B *)
  0xFF; 0xFF; 0xFF; 0xFF; 0xFF; 0xFF; 0xFF; 0xFF;
  0xFF; 0xFF; 0xFF; 0xFF; 0xFF; 0xFF; 0xFF; 0xFF;  (* C *)
  0xFF; 0xFF; 0xFF; 0xFF; 0xFF; 0xFF; 0xFF; 0xFF;
  0xFF; 0xFF; 0xFF; 0xFF; 0xFF; 0xFF; 0xFF; 0xFF;  (* D *)
  0xFF; 0xFF; 0xFF; 0xFF; 0xFF; 0xFF; 0xFF; 0xFF;
  0xFF; 0xFF; 0xFF; 0xFF; 0xFF; 0xFF; 0xFF; 0xFF;  (* E *)
  0xFF; 0xFF; 0xFF; 0xFF; 0xFF; 0xFF; 0xFF; 0xFF;
  0xFF; 0xFF; 0xFF; 0xFF; 0xFF; 0xFF; 0xFF; 0xFF;  (* F *)
  0xFF; 0xFF; 0xFF; 0xFF; 0xFF; 0xFF; 0xFF; 0xFF
]%Z.

Definition fw2 : list Z := [
  0xFF; 0xFF; 0xFF; 0xFF; 0xFF; 0xFF; 0xFF; 0xFF;  (* 0 *)
  0xFF; 0xFF; 0xFF; 0xFF; 0xFF; 0xFF; 0xFF; 0xFF;
  0xFF; 0xFF; 0xFF; 0xFF; 0xFF; 0xFF; 0xFF; 0xFF;  (* 1 *)
  0xFF; 0xFF; 0xFF; 0xFF; 0xFF; 0xFF; 0xFF; 0xFF;
  0xFF; 0xFF; 0xFF; 0xFF; 0xFF; 0xFF; 0xFF; 0xFF;  (* 2 *)
  0xFF; 0xFF; 0xFF; 0xFF; 0xFF; 0xFF; 0xFF; 0xFF;
  0xFF; 0xFF; 0xFF; 0xFF; 0xFF; 0xFF; 0xFF; 0xFF;  (* 3 *)
  0xFF; 0xFF; 0xFF; 0xFF; 0xFF; 0xFF; 0xFF; 0xFF;
  0xFF; 0x00; 0xFF; 0x04; 0xFF; 0xFF; 0xFF; 0x08;  (* 4 *)
  0xFF; 0xFF; 0xFF; 0xFF; 0xFF; 0xFF; 0xFF; 0xFF;
  0xFF; 0xFF; 0xFF; 0xFF; 0x0C; 0xFF; 0xFF; 0xFF;  (* 5 *)
  0xFF; 0xFF; 0xFF; 0xFF; 0xFF; 0xFF; 0xFF; 0xFF;
  0xFF; 0x00; 0xFF; 0x04; 0xFF; 0xFF; 0xFF; 0x08;  (* 6 *)
  0xFF; 0xFF; 0xFF; 0xFF; 0xFF; 0xFF; 0xFF; 0xFF;
  0xFF; 0xFF; 0xFF; 0xFF; 0x0C; 0xFF; 0xFF; 0xFF;  (* 7 *)
  0xFF; 0xFF; 0xFF; 0xFF; 0xFF; 0xFF; 0xFF; 0xFF;
  0xFF; 0xFF; 0xFF; 0xFF; 0xFF; 0xFF; 0xFF; 0xFF;  (* 8 *)
  0xFF; 0xFF; 0xFF; 0xFF; 0xFF; 0xFF; 0xFF; 0xFF;
  0xFF; 0xFF; 0xFF; 0xFF; 0xFF; 0xFF; 0xFF; 0xFF;  (* 9 *)
  0xFF; 0xFF; 0xFF; 0xFF; 0xFF; 0xFF; 0xFF; 0xFF;
  0xFF; 0xFF; 0xFF; 0xFF; 0xFF; 0xFF; 0xFF; 0xFF;  (* A *)
  0xFF; 0xFF; 0xFF; 0xFF; 0xFF; 0xFF; 0xFF; 0xFF;
  0xFF; 0xFF; 0xFF; 0xFF; 0xFF; 0xFF; 0xFF; 0xFF;  (* B *)
  0xFF; 0xFF; 0xFF; 0xFF; 0xFF; 0xFF; 0xFF; 0xFF;
  0xFF; 0xFF; 0xFF; 0xFF; 0xFF; 0xFF; 0xFF; 0xFF;  (* C *)
  0xFF; 0xFF; 0xFF; 0xFF; 0xFF; 0xFF; 0xFF; 0xFF;
  0xFF; 0xFF; 0xFF; 0xFF; 0xFF; 0xFF; 0xFF; 0xFF;  (* D *)
  0xFF; 0xFF; 0xFF; 0xFF; 0xFF; 0xFF; 0xFF; 0xFF;
  0xFF; 0xFF; 0xFF; 0xFF; 0xFF; 0xFF; 0xFF; 0xFF;  (* E *)
  0xFF; 0xFF; 0xFF; 0xFF; 0xFF; 0xFF; 0xFF; 0xFF;
  0xFF; 0xFF; 0xFF; 0xFF; 0xFF; 0xFF; 0xFF; 0xFF;  (* F *)
  0xFF; 0xFF; 0xFF; 0xFF; 0xFF; 0xFF; 0xFF; 0xFF
]%Z.

Definition fw1 : list Z := [
  0xFF; 0xFF; 0xFF; 0xFF; 0xFF; 0xFF; 0xFF; 0xFF;  (* 0 *)
  0xFF; 0xFF; 0xFF; 0xFF; 0xFF; 0xFF; 0xFF; 0xFF;
  0xFF; 0xFF; 0xFF; 0xFF; 0xFF; 0xFF; 0xFF; 0xFF;  (* 1 *)
  0xFF; 0xFF; 0xFF; 0xFF; 0xFF; 0xFF; 0xFF; 0xFF;
  0xFF; 0xFF; 0xFF; 0xFF; 0xFF; 0xFF; 0xFF; 0xFF;  (* 2 *)
  0xFF; 0xFF; 0xFF; 0xFF; 0xFF; 0xFF; 0xFF; 0xFF;
  0xFF; 0xFF; 0xFF; 0xFF; 0xFF; 0xFF; 0xFF; 0xFF;  (* 3 *)
  0xFF; 0xFF; 0xFF; 0xFF; 0xFF; 0xFF; 0xFF; 0xFF;
  0xFF; 0x00; 0xFF; 0x10; 0xFF; 0xFF; 0xFF; 0x20;  (* 4 *)
  0xFF; 0xFF; 0xFF; 0xFF; 0xFF; 0xFF; 0xFF; 0xFF;
  0xFF; 0xFF; 0xFF; 0xFF; 0x30; 0xFF; 0xFF; 0xFF;  (* 5 *)
  0xFF; 0xFF; 0xFF; 0xFF; 0xFF; 0xFF; 0xFF; 0xFF;
  0xFF; 0x00; 0xFF; 0x10; 0xFF; 0xFF; 0xFF; 0x20;  (* 6 *)
  0xFF; 0xFF; 0xFF; 0xFF; 0xFF; 0xFF; 0xFF; 0xFF;
  0xFF; 0xFF; 0xFF; 0xFF; 0x30; 0xFF; 0xFF; 0xFF;  (* 7 *)
  0xFF; 0xFF; 0xFF; 0xFF; 0xFF; 0xFF; 0xFF; 0xFF;
  0xFF; 0xFF; 0xFF; 0xFF; 0xFF; 0xFF; 0xFF; 0xFF;  (* 8 *)
  0xFF; 0xFF; 0xFF; 0xFF; 0xFF; 0xFF; 0xFF; 0xFF;
  0xFF; 0xFF; 0xFF; 0xFF; 0xFF; 0xFF; 0xFF; 0xFF;  (* 9 *)
  0xFF; 0xFF; 0xFF; 0xFF; 0xFF; 0xFF; 0xFF; 0xFF;
  0xFF; 0xFF; 0xFF; 0xFF; 0xFF; 0xFF; 0xFF; 0xFF;  (* A *)
  0xFF; 0xFF; 0xFF; 0xFF; 0xFF; 0xFF; 0xFF; 0xFF;
  0xFF; 0xFF; 0xFF; 0xFF; 0xFF; 0xFF; 0xFF; 0xFF;  (* B *)
  0xFF; 0xFF; 0xFF; 0xFF; 0xFF; 0xFF; 0xFF; 0xFF;
  0xFF; 0xFF; 0xFF; 0xFF; 0xFF; 0xFF; 0xFF; 0xFF;  (* C *)
  0xFF; 0xFF; 0xFF; 0xFF; 0xFF; 0xFF; 0xFF; 0xFF;
  0xFF; 0xFF; 0xFF; 0xFF; 0xFF; 0xFF; 0xFF; 0xFF;  (* D *)
  0xFF; 0xFF; 0xFF; 0xFF; 0xFF; 0xFF; 0xFF; 0xFF;
  0xFF; 0xFF; 0xFF; 0xFF; 0xFF; 0xFF; 0xFF; 0xFF;  (* E *)
  0xFF; 0xFF; 0xFF; 0xFF; 0xFF; 0xFF; 0xFF; 0xFF;
  0xFF; 0xFF; 0xFF; 0xFF; 0xFF; 0xFF; 0xFF; 0xFF;  (* F *)
  0xFF; 0xFF; 0xFF; 0xFF; 0xFF; 0xFF; 0xFF; 0xFF
]%Z.

Definition fw0 : list Z := [
  0xFF; 0xFF; 0xFF; 0xFF; 0xFF; 0xFF; 0xFF; 0xFF;  (* 0 *)
  0xFF; 0xFF; 0xFF; 0xFF; 0xFF; 0xFF; 0xFF; 0xFF;
  0xFF; 0xFF; 0xFF; 0xFF; 0xFF; 0xFF; 0xFF; 0xFF;  (* 1 *)
  0xFF; 0xFF; 0xFF; 0xFF; 0xFF; 0xFF; 0xFF; 0xFF;
  0xFF; 0xFF; 0xFF; 0xFF; 0xFF; 0xFF; 0xFF; 0xFF;  (* 2 *)
  0xFF; 0xFF; 0xFF; 0xFF; 0xFF; 0xFF; 0xFF; 0xFF;
  0xFF; 0xFF; 0xFF; 0xFF; 0xFF; 0xFF; 0xFF; 0xFF;  (* 3 *)
  0xFF; 0xFF; 0xFF; 0xFF; 0xFF; 0xFF; 0xFF; 0xFF;
  0xFF; 0x00; 0xFF; 0x40; 0xFF; 0xFF; 0xFF; 0x80;  (* 4 *)
  0xFF; 0xFF; 0xFF; 0xFF; 0xFF; 0xFF; 0xFF; 0xFF;
  0xFF; 0xFF; 0xFF; 0xFF; 0xC0; 0xFF; 0xFF; 0xFF;  (* 5 *)
  0xFF; 0xFF; 0xFF; 0xFF; 0xFF; 0xFF; 0xFF; 0xFF;
  0xFF; 0x00; 0xFF; 0x40; 0xFF; 0xFF; 0xFF; 0x80;  (* 6 *)
  0xFF; 0xFF; 0xFF; 0xFF; 0xFF; 0xFF; 0xFF; 0xFF;
  0xFF; 0xFF; 0xFF; 0xFF; 0xC0; 0xFF; 0xFF; 0xFF;  (* 7 *)
  0xFF; 0xFF; 0xFF; 0xFF; 0xFF; 0xFF; 0xFF; 0xFF;
  0xFF; 0xFF; 0xFF; 0xFF; 0xFF; 0xFF; 0xFF; 0xFF;  (* 8 *)
  0xFF; 0xFF; 0xFF; 0xFF; 0xFF; 0xFF; 0xFF; 0xFF;
  0xFF; 0xFF; 0xFF; 0xFF; 0xFF; 0xFF; 0xFF; 0xFF;  (* 9 *)
  0xFF; 0xFF; 0xFF; 0xFF; 0xFF; 0xFF; 0xFF; 0xFF;
  0xFF; 0xFF; 0xFF; 0xFF; 0xFF; 0xFF; 0xFF; 0xFF;  (* A *)
  0xFF; 0xFF; 0xFF; 0xFF; 0xFF; 0xFF; 0xFF; 0xFF;
  0xFF; 0xFF; 0xFF; 0xFF; 0xFF; 0xFF; 0xFF; 0xFF;  (* B *)
  0xFF; 0xFF; 0xFF; 0xFF; 0xFF; 0xFF; 0xFF; 0xFF;
  0xFF; 0xFF; 0xFF; 0xFF; 0xFF; 0xFF; 0xFF; 0xFF;  (* C *)
  0xFF; 0xFF; 0xFF; 0xFF; 0xFF; 0xFF; 0xFF; 0xFF;
  0xFF; 0xFF; 0xFF; 0xFF; 0xFF; 0xFF; 0xFF; 0xFF;  (* D *)
  0xFF; 0xFF; 0xFF; 0xFF; 0xFF; 0xFF; 0xFF; 0xFF;
  0xFF; 0xFF; 0xFF; 0xFF; 0xFF; 0xFF; 0xFF; 0xFF;  (* E *)
  0xFF; 0xFF; 0xFF; 0xFF; 0xFF; 0xFF; 0xFF; 0xFF;
  0xFF; 0xFF; 0xFF; 0xFF; 0xFF; 0xFF; 0xFF; 0xFF;  (* F *)
  0xFF; 0xFF; 0xFF; 0xFF; 0xFF; 0xFF; 0xFF; 0xFF
]%Z.

Definition rv3 : list Z := [
  0xFF; 0xFF; 0xFF; 0xFF; 0xFF; 0xFF; 0xFF; 0xFF;  (* 0 *)
  0xFF; 0xFF; 0xFF; 0xFF; 0xFF; 0xFF; 0xFF; 0xFF;
  0xFF; 0xFF; 0xFF; 0xFF; 0xFF; 0xFF; 0xFF; 0xFF;  (* 1 *)
  0xFF; 0xFF; 0xFF; 0xFF; 0xFF; 0xFF; 0xFF; 0xFF;
  0xFF; 0xFF; 0xFF; 0xFF; 0xFF; 0xFF; 0xFF; 0xFF;  (* 2 *)
  0xFF; 0xFF; 0xFF; 0xFF; 0xFF; 0xFF; 0xFF; 0xFF;
  0xFF; 0xFF; 0xFF; 0xFF; 0xFF; 0xFF; 0xFF; 0xFF;  (* 3 *)
  0xFF; 0xFF; 0xFF; 0xFF; 0xFF; 0xFF; 0xFF; 0xFF;
  0xFF; 0x03; 0xFF; 0x02; 0xFF; 0xFF; 0xFF; 0x01;  (* 4 *)
  0xFF; 0xFF; 0xFF; 0xFF; 0xFF; 0xFF; 0xFF; 0xFF;
  0xFF; 0xFF; 0xFF; 0xFF; 0x00; 0xFF; 0xFF; 0xFF;  (* 5 *)
  0xFF; 0xFF; 0xFF; 0xFF; 0xFF; 0xFF; 0xFF; 0xFF;
  0xFF; 0x03; 0xFF; 0x02; 0xFF; 0xFF; 0xFF; 0x01;  (* 6 *)
  0xFF; 0xFF; 0xFF; 0xFF; 0xFF; 0xFF; 0xFF; 0xFF;
  0xFF; 0xFF; 0xFF; 0xFF; 0x00; 0xFF; 0xFF; 0xFF;  (* 7 *)
  0xFF; 0xFF; 0xFF; 0xFF; 0xFF; 0xFF; 0xFF; 0xFF;
  0xFF; 0xFF; 0xFF; 0xFF; 0xFF; 0xFF; 0xFF; 0xFF;  (* 8 *)
  0xFF; 0xFF; 0xFF; 0xFF; 0xFF; 0xFF; 0xFF; 0xFF;
  0xFF; 0xFF; 0xFF; 0xFF; 0xFF; 0xFF; 0xFF; 0xFF;  (* 9 *)
  0xFF; 0xFF; 0xFF; 0xFF; 0xFF; 0xFF; 0xFF; 0xFF;
  0xFF; 0xFF; 0xFF; 0xFF; 0xFF; 0xFF; 0xFF; 0xFF;  (* A *)
  0xFF; 0xFF; 0xFF; 0xFF; 0xFF; 0xFF; 0xFF; 0xFF;
  0xFF; 0xFF; 0xFF; 0xFF; 0xFF; 0xFF; 0xFF; 0xFF;  (* B *)
  0xFF; 0xFF; 0xFF; 0xFF; 0xFF; 0xFF; 0xFF; 0xFF;
  0xFF; 0xFF; 0xFF; 0xFF; 0xFF; 0xFF; 0xFF; 0xFF;  (* C *)
  0xFF; 0xFF; 0xFF; 0xFF; 0xFF; 0xFF; 0xFF; 0xFF;
  0xFF; 0xFF; 0xFF; 0xFF; 0xFF; 0xFF; 0xFF; 0xFF;  (* D *)
  0xFF; 0xFF; 0xFF; 0xFF; 0xFF; 0xFF; 0xFF; 0xFF;
  0xFF; 0xFF; 0xFF; 0xFF; 0xFF; 0xFF; 0xFF; 0xFF;  (* E *)
  0xFF; 0xFF; 0xFF; 0xFF; 0xFF; 0xFF; 0xFF; 0xFF;
  0xFF; 0xFF; 0xFF; 0xFF; 0xFF; 0xFF; 0xFF; 0xFF;  (* F *)
  0xFF; 0xFF; 0xFF; 0xFF; 0xFF; 0xFF; 0xFF; 0xFF
]%Z.

Definition rv2 : list Z := [
  0xFF; 0xFF; 0xFF; 0xFF; 0xFF; 0xFF; 0xFF; 0xFF;  (* 0 *)
  0xFF; 0xFF; 0xFF; 0xFF; 0xFF; 0xFF; 0xFF; 0xFF;
  0xFF; 0xFF; 0xFF; 0xFF; 0xFF; 0xFF; 0xFF; 0xFF;  (* 1 *)
  0xFF; 0xFF; 0xFF; 0xFF; 0xFF; 0xFF; 0xFF; 0xFF;
  0xFF; 0xFF; 0xFF; 0xFF; 0xFF; 0xFF; 0xFF; 0xFF;  (* 2 *)
  0xFF; 0xFF; 0xFF; 0xFF; 0xFF; 0xFF; 0xFF; 0xFF;
  0xFF; 0xFF; 0xFF; 0xFF; 0xFF; 0xFF; 0xFF; 0xFF;  (* 3 *)
  0xFF; 0xFF; 0xFF; 0xFF; 0xFF; 0xFF; 0xFF; 0xFF;
  0xFF; 0x0C; 0xFF; 0x08; 0xFF; 0xFF; 0xFF; 0x04;  (* 4 *)
  0xFF; 0xFF; 0xFF; 0xFF; 0xFF; 0xFF; 0xFF; 0xFF;
  0xFF; 0xFF; 0xFF; 0xFF; 0x00; 0xFF; 0xFF; 0xFF;  (* 5 *)
  0xFF; 0xFF; 0xFF; 0xFF; 0xFF; 0xFF; 0xFF; 0xFF;
  0xFF; 0x0C; 0xFF; 0x08; 0xFF; 0xFF; 0xFF; 0x04;  (* 6 *)
  0xFF; 0xFF; 0xFF; 0xFF; 0xFF; 0xFF; 0xFF; 0xFF;
  0xFF; 0xFF; 0xFF; 0xFF; 0x00; 0xFF; 0xFF; 0xFF;  (* 7 *)
  0xFF; 0xFF; 0xFF; 0xFF; 0xFF; 0xFF; 0xFF; 0xFF;
  0xFF; 0xFF; 0xFF; 0xFF; 0xFF; 0xFF; 0xFF; 0xFF;  (* 8 *)
  0xFF; 0xFF; 0xFF; 0xFF; 0xFF; 0xFF; 0xFF; 0xFF;
  0xFF; 0xFF; 0xFF; 0xFF; 0xFF; 0xFF; 0xFF; 0xFF;  (* 9 *)
  0xFF; 0xFF; 0xFF; 0xFF; 0xFF; 0xFF; 0xFF; 0xFF;
  0xFF; 0xFF; 0xFF; 0xFF; 0xFF; 0xFF; 0xFF; 0xFF;  (* A *)
  0xFF; 0xFF; 0xFF; 0xFF; 0xFF; 0xFF; 0xFF; 0xFF;
  0xFF; 0xFF; 0xFF; 0xFF; 0xFF; 0xFF; 0xFF; 0xFF;  (* B *)
  0xFF; 0xFF; 0xFF; 0xFF; 0xFF; 0xFF; 0xFF; 0xFF;
  0xFF; 0xFF; 0xFF; 0xFF; 0xFF; 0xFF; 0xFF; 0xFF;  (* C *)
  0xFF; 0xFF; 0xFF; 0xFF; 0xFF; 0xFF; 0xFF; 0xFF;
  0xFF; 0xFF; 0xFF; 0xFF; 0xFF; 0xFF; 0xFF; 0xFF;  (* D *)
  0xFF; 0xFF; 0xFF; 0xFF; 0xFF; 0xFF; 0xFF; 0xFF;
  0xFF; 0xFF; 0xFF; 0xFF; 0xFF; 0xFF; 0xFF; 0xFF;  (* E *)
  0xFF; 0xFF; 0xFF; 0xFF; 0xFF; 0xFF; 0xFF; 0xFF;
  0xFF; 0xFF; 0xFF; 0xFF; 0xFF; 0xFF; 0xFF; 0xFF;  (* F *)
  0xFF; 0xFF; 0xFF; 0xFF; 0xFF; 0xFF; 0xFF; 0xFF
]%Z.

Definition rv1 : list Z := [
  0xFF; 0xFF; 0xFF; 0xFF; 0xFF; 0xFF; 0xFF; 0xFF;  (* 0 *)
  0xFF; 0xFF; 0xFF; 0xFF; 0xFF; 0xFF; 0xFF; 0xFF;
  0xFF; 0xFF; 0xFF; 0xFF; 0xFF; 0xFF; 0xFF; 0xFF;  (* 1 *)
  0xFF; 0xFF; 0xFF; 0xFF; 0xFF; 0xFF; 0xFF; 0xFF;
  0xFF; 0xFF; 0xFF; 0xFF; 0xFF; 0xFF; 0xFF; 0xFF;  (* 2 *)
  0xFF; 0xFF; 0xFF; 0xFF; 0xFF; 0xFF; 0xFF; 0xFF;
  0xFF; 0xFF; 0xFF; 0xFF; 0xFF; 0xFF; 0xFF; 0xFF;  (* 3 *)
  0xFF; 0xFF; 0xFF; 0xFF; 0xFF; 0xFF; 0xFF; 0xFF;
  0xFF; 0x30; 0xFF; 0x20; 0xFF; 0xFF; 0xFF; 0x10;  (* 4 *)
  0xFF; 0xFF; 0xFF; 0xFF; 0xFF; 0xFF; 0xFF; 0xFF;
  0xFF; 0xFF; 0xFF; 0xFF; 0x00; 0xFF; 0xFF; 0xFF;  (* 5 *)
  0xFF; 0xFF; 0xFF; 0xFF; 0xFF; 0xFF; 0xFF; 0xFF;
  0xFF; 0x30; 0xFF; 0x20; 0xFF; 0xFF; 0xFF; 0x10;  (* 6 *)
  0xFF; 0xFF; 0xFF; 0xFF; 0xFF; 0xFF; 0xFF; 0xFF;
  0xFF; 0xFF; 0xFF; 0xFF; 0x00; 0xFF; 0xFF; 0xFF;  (* 7 *)
  0xFF; 0xFF; 0xFF; 0xFF; 0xFF; 0xFF; 0xFF; 0xFF;
  0xFF; 0xFF; 0xFF; 0xFF; 0xFF; 0xFF; 0xFF; 0xFF;  (* 8 *)
  0xFF; 0xFF; 0xFF; 0xFF; 0xFF; 0xFF; 0xFF; 0xFF;
  0xFF; 0xFF; 0xFF; 0xFF; 0xFF; 0xFF; 0xFF; 0xFF;  (* 9 *)
  0xFF; 0xFF; 0xFF; 0xFF; 0xFF; 0xFF; 0xFF; 0xFF;
  0xFF; 0xFF; 0xFF; 0xFF; 0xFF; 0xFF; 0xFF; 0xFF;  (* A *)
  0xFF; 0xFF; 0xFF; 0xFF; 0xFF; 0xFF; 0xFF; 0xFF;
  0xFF; 0xFF; 0xFF; 0xFF; 0xFF; 0xFF; 0xFF; 0xFF;  (* B *)
  0xFF; 0xFF; 0xFF; 0xFF; 0xFF; 0xFF; 0xFF; 0xFF;
  0xFF; 0xFF; 0xFF; 0xFF; 0xFF; 0xFF; 0xFF; 0xFF;  (* C *)
  0xFF; 0xFF; 0xFF; 0xFF; 0xFF; 0xFF; 0xFF; 0xFF;
  0xFF; 0xFF; 0xFF; 0xFF; 0xFF; 0xFF; 0xFF; 0xFF;  (* D *)
  0xFF; 0xFF; 0xFF; 0xFF; 0xFF; 0xFF; 0xFF; 0xFF;
  0xFF; 0xFF; 0xFF; 0xFF; 0xFF; 0xFF; 0xFF; 0xFF;  (* E *)
  0xFF; 0xFF; 0xFF; 0xFF; 0xFF; 0xFF; 0xFF; 0xFF;
  0xFF; 0xFF; 0xFF; 0xFF; 0xFF; 0xFF; 0xFF; 0xFF;  (* F *)
  0xFF; 0xFF; 0xFF; 0xFF; 0xFF; 0xFF; 0xFF; 0xFF
]%Z.

Definition rv0 : list Z := [
  0xFF; 0xFF; 0xFF; 0xFF; 0xFF; 0xFF; 0xFF; 0xFF;  (* 0 *)
  0xFF; 0xFF; 0xFF; 0xFF; 0xFF; 0xFF; 0xFF; 0xFF;
  0xFF; 0xFF; 0xFF; 0xFF; 0xFF; 0xFF; 0xFF; 0xFF;  (* 1 *)
  0xFF; 0xFF; 0xFF; 0xFF; 0xFF; 0xFF; 0xFF; 0xFF;
  0xFF; 0xFF; 0xFF; 0xFF; 0xFF; 0xFF; 0xFF; 0xFF;  (* 2 *)
  0xFF; 0xFF; 0xFF; 0xFF; 0xFF; 0xFF; 0xFF; 0xFF;
  0xFF; 0xFF; 0xFF; 0xFF; 0xFF; 0xFF; 0xFF; 0xFF;  (* 3 *)
  0xFF; 0xFF; 0xFF; 0xFF; 0xFF; 0xFF; 0xFF; 0xFF;
  0xFF; 0xC0; 0xFF; 0x80; 0xFF; 0xFF; 0xFF; 0x40;  (* 4 *)
  0xFF; 0xFF; 0xFF; 0xFF; 0xFF; 0xFF; 0xFF; 0xFF;
  0xFF; 0xFF; 0xFF; 0xFF; 0x00; 0xFF; 0xFF; 0xFF;  (* 5 *)
  0xFF; 0xFF; 0xFF; 0xFF; 0xFF; 0xFF; 0xFF; 0xFF;
  0xFF; 0xC0; 0xFF; 0x80; 0xFF; 0xFF; 0xFF; 0x40;  (* 6 *)
  0xFF; 0xFF; 0xFF; 0xFF; 0xFF; 0xFF; 0xFF; 0xFF;
  0xFF; 0xFF; 0xFF; 0xFF; 0x00; 0xFF; 0xFF; 0xFF;  (* 7 *)
  0xFF; 0xFF; 0xFF; 0xFF; 0xFF; 0xFF; 0xFF; 0xFF;
  0xFF; 0xFF; 0xFF; 0xFF; 0xFF; 0xFF; 0xFF; 0xFF;  (* 8 *)
  0xFF; 0xFF; 0xFF; 0xFF; 0xFF; 0xFF; 0xFF; 0xFF;
  0xFF; 0xFF; 0xFF; 0xFF; 0xFF; 0xFF; 0xFF; 0xFF;  (* 9 *)
  0xFF; 0xFF; 0xFF; 0xFF; 0xFF; 0xFF; 0xFF; 0xFF;
  0xFF; 0xFF; 0xFF; 0xFF; 0xFF; 0xFF; 0xFF; 0xFF;  (* A *)
  0xFF; 0xFF; 0xFF; 0xFF; 0xFF; 0xFF; 0xFF; 0xFF;
  0xFF; 0xFF; 0xFF; 0xFF; 0xFF; 0xFF; 0xFF; 0xFF;  (* B *)
  0xFF; 0xFF; 0xFF; 0xFF; 0xFF; 0xFF; 0xFF; 0xFF;
  0xFF; 0xFF; 0xFF; 0xFF; 0xFF; 0xFF; 0xFF; 0xFF;  (* C *)
  0xFF; 0xFF; 0xFF; 0xFF; 0xFF; 0xFF; 0xFF; 0xFF;
  0xFF; 0xFF; 0xFF; 0xFF; 0xFF; 0xFF; 0xFF; 0xFF;  (* D *)
  0xFF; 0xFF; 0xFF; 0xFF; 0xFF; 0xFF; 0xFF; 0xFF;
  0xFF; 0xFF; 0xFF; 0xFF; 0xFF; 0xFF; 0xFF; 0xFF;  (* E *)
  0xFF; 0xFF; 0xFF; 0xFF; 0xFF; 0xFF; 0xFF; 0xFF;
  0xFF; 0xFF; 0xFF; 0xFF; 0xFF; 0xFF; 0xFF; 0xFF;  (* F *)
  0xFF; 0xFF; 0xFF; 0xFF; 0xFF; 0xFF; 0xFF; 0xFF
]%Z.

End Tables.

(** [table[static_cast<unsigned char>(c)]] *)
Definition lookup (table : list Z) (c : ascii) : Z :=
  nth (nat_of_ascii c) table 0.

(** [sequence[i]]; the caller guarantees [i < sequence.size()]. *)
Definition at_ (sequence : list ascii) (i : nat) : ascii :=
  nth i sequence zero.

(** ** Construction *)

Record ReadsProcessor : Set := mkReadsProcessor {
  m_kmerSize : nat;
  m_kmerSizeInBytes : nat;
  m_halfSizeOfKmerInBytes : nat;
  m_hangingBases : nat;
  m_hangingBasesExist : nat
}.

(** [ReadsProcessor::ReadsProcessor(unsigned windowSize)].  [None] stands for
    the failed [assert(m_kmerSize > 3)]; the two [new unsigned char[...]]
    buffers are created by [prepSeq]'s [memset], the first thing to touch
    them. *)
Definition ReadsProcessor_new (windowSize : nat) : option ReadsProcessor :=
  let m_kmerSize := windowSize in
  let m_kmerSizeInBytes := (windowSize / 4)%nat in
  let m_halfSizeOfKmerInBytes := (windowSize / 8)%nat in
  let m_hangingBases := 0%nat in
  let m_hangingBasesExist := 0%nat in
  if (3 <? m_kmerSize)%nat then
    Some
      (if negb (windowSize mod 8 =? 0)%nat then
         let m_halfSizeOfKmerInBytes := S m_halfSizeOfKmerInBytes in
         let m_hangingBases := (windowSize mod 4)%nat in
         if negb (m_hangingBases mod 4 =? 0)%nat then
           mkReadsProcessor m_kmerSize (S m_kmerSizeInBytes)
             m_halfSizeOfKmerInBytes m_hangingBases 1
         else
           mkReadsProcessor m_kmerSize m_kmerSizeInBytes
             m_halfSizeOfKmerInBytes m_hangingBases m_hangingBasesExist
       else
         mkReadsProcessor m_kmerSize m_kmerSizeInBytes
           m_halfSizeOfKmerInBytes m_hangingBases m_hangingBasesExist)
  else None.

(** ** getBases *)

(** The loop of [getBases]: [n] iterations remain, [currentOffset] is the
    [int] that runs 3, 2, 1, 0, -1.  [None] is a read past the end of [c]. *)
Fixpoint getBases_loop (n : nat) (currentIndex : nat) (currentOffset : Z)
    (c : list Z) (bases : list ascii) : option (list ascii) :=
  match n with
  | O => Some bases
  | S n' =>
      let '(currentIndex, currentOffset) :=
        if currentOffset =? -1 then (S currentIndex, 3)
        else (currentIndex, currentOffset) in
      match nth_error c currentIndex with
      | None => None
      | Some currentChr =>
          let currentChr := Z.shiftr currentChr (2 * currentOffset) in
          let currentChr := Z.land currentChr 3 in
          getBases_loop n' currentIndex (currentOffset - 1) c
            (bases ++ [nth (Z.to_nat currentChr)
                         ["A"; "C"; "G"; "T"]%char zero])
      end
  end.

Definition getBases (rp : ReadsProcessor) (c : list Z) : option (list ascii) :=
  getBases_loop (m_kmerSize rp) 0 3 c [].

(** ** prepSeq *)

(** What a call of [prepSeq] comes to: [NULL], the pointer [m_fw] or [m_rv]
    (given with the bytes the buffer then holds), or a store past the end of
    a scratch buffer. *)
Inductive result : Set :=
  | NULL
  | Ret_m_fw (m_fw : list Z)
  | Ret_m_rv (m_rv : list Z)
  | OutOfBounds.

(** [buf[i] = v] for [i] inside the buffer. *)
Definition store (buf : list Z) (i : nat) (v : Z) : list Z :=
  firstn i buf ++ v :: skipn (S i) buf.

(** The four-base block that the source repeats for the forward strand:
    three [|=] from [fw0], [fw1], [fw2], the [0xFF] test, and the [|=] from
    [fw3].  [b] is the byte found in [m_fw[outputIndex]]; [None] is
    [return NULL]. *)
Definition fwGroup (sequence : list ascii) (index : nat) (b : Z) : option Z :=
  let b := Z.lor b (lookup Tables.fw0 (at_ sequence index)) in
  let b := Z.lor b (lookup Tables.fw1 (at_ sequence (index + 1))) in
  let b := Z.lor b (lookup Tables.fw2 (at_ sequence (index + 2))) in
  if (b =? 0xFF) || (lookup Tables.fw3 (at_ sequence (index + 3)) =? 0xFF)
  then None
  else Some (Z.lor b (lookup Tables.fw3 (at_ sequence (index + 3)))).

(** The same block for the reverse strand, [revIndex] walking downward. *)
Definition rvGroup (sequence : list ascii) (revIndex : nat) (b : Z)
    : option Z :=
  let b := Z.lor b (lookup Tables.rv0 (at_ sequence revIndex)) in
  let b := Z.lor b (lookup Tables.rv1 (at_ sequence (revIndex - 1))) in
  let b := Z.lor b (lookup Tables.rv2 (at_ sequence (revIndex - 2))) in
  if (b =? 0xFF) || (lookup Tables.rv3 (at_ sequence (revIndex - 3)) =? 0xFF)
  then None
  else Some (Z.lor b (lookup Tables.rv3 (at_ sequence (revIndex - 3)))).

Section PrepSeq.

Variable rp : ReadsProcessor.
Variable sequence : list ascii.
Variable position : nat.

(** Forward strand wins, last byte:
    [for (; index <= lastPos; --lastPos) { b = b >> 2; b |= fw0[...]; }],
    with [n = lastPos + 1 - index] iterations. *)
Fixpoint fwLast_loop (n : nat) (lastPos : nat) (b : Z) : Z :=
  match n with
  | O => b
  | S n' =>
      let b := Z.shiftr b 2 in
      let b := Z.lor b (lookup Tables.fw0 (at_ sequence lastPos)) in
      fwLast_loop n' (lastPos - 1) b
  end.

Definition fwLast (outputIndex index : nat) (m_fw : list Z) : result :=
  if (m_hangingBasesExist rp =? 0)%nat then Ret_m_fw m_fw
  else
    let lastPos := (position + m_kmerSize rp - 1)%nat in
    if (outputIndex <? length m_fw)%nat then
      let b := lookup Tables.fw0 (at_ sequence lastPos) in
      let lastPos := (lastPos - 1)%nat in
      let b := fwLast_loop (lastPos + 1 - index) lastPos b in
      if b =? 0xFF then NULL else Ret_m_fw (store m_fw outputIndex b)
    else OutOfBounds.

(** Forward strand wins, full bytes:
    [for (++outputIndex; outputIndex + m_hangingBasesExist <
    m_kmerSizeInBytes; ++outputIndex)], entered here after the [++], with
    [n = m_kmerSizeInBytes - m_hangingBasesExist - outputIndex] iterations. *)
Fixpoint fwFinish (n : nat) (outputIndex index : nat) (m_fw : list Z)
    : result :=
  match n with
  | O => fwLast outputIndex index m_fw
  | S n' =>
      match nth_error m_fw outputIndex with
      | None => OutOfBounds
      | Some b =>
          match fwGroup sequence index b with
          | None => NULL
          | Some b =>
              fwFinish n' (S outputIndex) (index + 4)
                (store m_fw outputIndex b)
          end
      end
  end.

(** Reverse strand wins, last byte:
    [for (; revIndex >= position; ++position) { b = b >> 2; b |= rv0[...]; }],
    with [n = revIndex + 1 - position] iterations. *)
Fixpoint rvLast_loop (n : nat) (position : nat) (b : Z) : Z :=
  match n with
  | O => b
  | S n' =>
      let b := Z.shiftr b 2 in
      let b := Z.lor b (lookup Tables.rv0 (at_ sequence position)) in
      rvLast_loop n' (S position) b
  end.

Definition rvLast (outputIndex revIndex : nat) (m_rv : list Z) : result :=
  if (m_hangingBasesExist rp =? 0)%nat then Ret_m_rv m_rv
  else
    if (outputIndex <? length m_rv)%nat then
      let b := lookup Tables.rv0 (at_ sequence position) in
      let position := S position in
      let b := rvLast_loop (revIndex + 1 - position) position b in
      if b =? 0xFF then NULL else Ret_m_rv (store m_rv outputIndex b)
    else OutOfBounds.

(** Reverse strand wins, full bytes. *)
Fixpoint rvFinish (n : nat) (outputIndex revIndex : nat) (m_rv : list Z)
    : result :=
  match n with
  | O => rvLast outputIndex revIndex m_rv
  | S n' =>
      match nth_error m_rv outputIndex with
      | None => OutOfBounds
      | Some b =>
          match rvGroup sequence revIndex b with
          | None => NULL
          | Some b =>
              rvFinish n' (S outputIndex) (revIndex - 4)
                (store m_rv outputIndex b)
          end
      end
  end.

(** The code after the main loop ("palamdromic"), last byte:
    [for (; index < lastPos; --lastPos) { b = b << 2; b |= fw0[...]; }],
    with [n = lastPos - index] iterations; the shifted value is stored back
    into an [unsigned char]. *)
Fixpoint tieLast_loop (n : nat) (lastPos : nat) (b : Z) : Z :=
  match n with
  | O => b
  | S n' =>
      let b := Z.land (Z.shiftl b 2) 0xFF in
      let b := Z.lor b (lookup Tables.fw0 (at_ sequence lastPos)) in
      tieLast_loop n' (lastPos - 1) b
  end.

Definition tieLast (outputIndex index : nat) (m_fw : list Z) : result :=
  if (m_hangingBases rp =? 0)%nat then Ret_m_fw m_fw
  else
    let lastPos := (position + m_kmerSize rp - 1)%nat in
    match nth_error m_fw outputIndex with
    | None => OutOfBounds
    | Some b =>
        let b := Z.lor b (lookup Tables.fw0 (at_ sequence lastPos)) in
        let b := tieLast_loop (lastPos - index) lastPos b in
        if b =? 0xFF then NULL else Ret_m_fw (store m_fw outputIndex b)
    end.

(** The code after the main loop, full bytes.  The block is the forward one,
    except that its last read does not advance [index]. *)
Fixpoint tieFinish (n : nat) (outputIndex index : nat) (m_fw : list Z)
    : result :=
  match n with
  | O => tieLast outputIndex index m_fw
  | S n' =>
      match nth_error m_fw outputIndex with
      | None => OutOfBounds
      | Some b =>
          match fwGroup sequence index b with
          | None => NULL
          | Some b =>
              tieFinish n' (S outputIndex) (index + 3)
                (store m_fw outputIndex b)
          end
      end
  end.

(** The main loop, [for (; outputIndex < m_halfSizeOfKmerInBytes;
    ++outputIndex)], with [n = m_halfSizeOfKmerInBytes - outputIndex]
    iterations.  When it runs out, the code after the loop starts with its
    own [++outputIndex]. *)
Fixpoint mainLoop (n : nat) (outputIndex index revIndex : nat)
    (m_fw m_rv : list Z) : result :=
  match n with
  | O =>
      let outputIndex := S outputIndex in
      tieFinish
        (m_kmerSizeInBytes rp - m_hangingBasesExist rp - outputIndex)
        outputIndex index m_fw
  | S n' =>
      match nth_error m_fw outputIndex with
      | None => OutOfBounds
      | Some f =>
          match fwGroup sequence index f with
          | None => NULL
          | Some f =>
              let m_fw := store m_fw outputIndex f in
              let index := (index + 4)%nat in
              match nth_error m_rv outputIndex with
              | None => OutOfBounds
              | Some r =>
                  match rvGroup sequence revIndex r with
                  | None => NULL
                  | Some r =>
                      let m_rv := store m_rv outputIndex r in
                      let revIndex := (revIndex - 4)%nat in
                      if f <? r then
                        let outputIndex := S outputIndex in
                        fwFinish
                          (m_kmerSizeInBytes rp - m_hangingBasesExist rp
                           - outputIndex)
                          outputIndex index m_fw
                      else if f >? r then
                        let outputIndex := S outputIndex in
                        rvFinish
                          (m_kmerSizeInBytes rp - m_hangingBasesExist rp
                           - outputIndex)
                          outputIndex revIndex m_rv
                      else
                        mainLoop n' (S outputIndex) index revIndex m_fw m_rv
                  end
              end
          end
      end
  end.

(** [ReadsProcessor::prepSeq(sequence, position)] *)
Definition prepSeq : result :=
  let index := position in
  let revIndex := (position + m_kmerSize rp - 1)%nat in
  let outputIndex := 0%nat in
  let m_fw := repeat 0 (m_kmerSizeInBytes rp) in
  let m_rv := repeat 0 (m_kmerSizeInBytes rp) in
  mainLoop (m_halfSizeOfKmerInBytes rp - outputIndex) outputIndex index
    revIndex m_fw m_rv.

End PrepSeq.

(** A string literal as a [std::string]. *)
Definition str (s : string) : list ascii := list_ascii_of_string s.

(** ** SegmentCalc

    [src/Common/Segment.h].  An [unsigned] is a [Z] in [0, 2^32) and every
    [+], [-] and [*] wraps modulo [2^32]; [/] and [%] by zero are reported
    as [DivByZero], a failed [assert] as [AssertFailed]. *)

Module SegmentCalc.

Inductive outcome (A : Type) : Type :=
  | Ok (a : A)
  | AssertFailed
  | DivByZero.

Arguments Ok {A} a.
Arguments AssertFailed {A}.
Arguments DivByZero {A}.

Definition bind {A B : Type} (m : outcome A) (f : A -> outcome B)
    : outcome B :=
  match m with
  | Ok a => f a
  | AssertFailed => AssertFailed
  | DivByZero => DivByZero
  end.

Notation "x <- m ;; f" := (bind m (fun x => f))
  (at level 61, m at next level, right associativity).

Definition wrap (x : Z) : Z := x mod 2 ^ 32.
Definition uadd (a b : Z) : Z := wrap (a + b).
Definition usub (a b : Z) : Z := wrap (a - b).
Definition umul (a b : Z) : Z := wrap (a * b).

Definition udiv (a b : Z) : outcome Z :=
  if b =? 0 then DivByZero else Ok (a / b).
Definition umod (a b : Z) : outcome Z :=
  if b =? 0 then DivByZero else Ok (a mod b).

Definition assert (b : bool) : outcome unit :=
  if b then Ok tt else AssertFailed.

(** [#define MIDDLE_SEGMENT unsigned(-1)] *)
Definition MIDDLE_SEGMENT : Z := wrap (-1).

Section Calc.

Variable m_segmentSize : Z.

(** [unsigned segmentsPerHalf(unsigned l) const] *)
Definition segmentsPerHalf (l : Z) : outcome Z :=
  _ <- assert (m_segmentSize <=? l / 2) ;;
  r <- umod l m_segmentSize ;;
  _ <- assert (r >? 0) ;;
  udiv (l / 2) m_segmentSize.

(** [unsigned remainder(unsigned l) const]; the source calls
    [segmentsPerHalf] once inside the [assert] and once for the result. *)
Definition remainder (l : Z) : outcome Z :=
  _ <- assert (m_segmentSize <=? l / 2) ;;
  r <- umod l m_segmentSize ;;
  if r =? 0 then Ok 0
  else
    h <- segmentsPerHalf l ;;
    _ <- assert (l >? umul (umul m_segmentSize h) 2) ;;
    h <- segmentsPerHalf l ;;
    Ok (usub l (umul (umul m_segmentSize h) 2)).

(** [unsigned segments(unsigned l) const] *)
Definition segments (l : Z) : outcome Z :=
  _ <- assert (m_segmentSize <=? l / 2) ;;
  r <- umod l m_segmentSize ;;
  if r =? 0 then udiv l m_segmentSize
  else
    h <- segmentsPerHalf l ;;
    Ok (umul h 2).

(** [unsigned index(unsigned pos, unsigned l) const] *)
Definition index (pos l : Z) : outcome Z :=
  _ <- assert (pos >? 0) ;;
  _ <- assert (pos <=? l) ;;
  _ <- assert (m_segmentSize <=? l / 2) ;;
  let pos := usub pos 1 in
  r <- umod l m_segmentSize ;;
  if r =? 0 then udiv pos m_segmentSize
  else if pos <? l / 2 then
    index <- udiv pos m_segmentSize ;;
    h <- segmentsPerHalf l ;;
    if index >=? h then Ok MIDDLE_SEGMENT else Ok index
  else
    rem <- remainder l ;;
    index <- udiv (usub pos rem) m_segmentSize ;;
    h <- segmentsPerHalf l ;;
    if index <? h then Ok MIDDLE_SEGMENT else Ok index.

(** [unsigned start(unsigned l, unsigned index) const] *)
Definition start (l index : Z) : outcome Z :=
  _ <- assert (m_segmentSize <=? l / 2) ;;
  r <- umod l m_segmentSize ;;
  if r =? 0 then Ok (uadd (umul index m_segmentSize) 1)
  else
    segsPerHalf <- segmentsPerHalf l ;;
    if index <? segsPerHalf then Ok (uadd (umul index m_segmentSize) 1)
    else
      let rightIndex := usub index segsPerHalf in
      rem <- remainder l ;;
      Ok (uadd (uadd (uadd (umul segsPerHalf m_segmentSize) rem)
                  (umul rightIndex m_segmentSize)) 1).

(** [indexRange(Position start, Position end, unsigned l)]; the two calls
    of [index] are taken in the order of the arguments. *)
Definition indexRange (start end_ l : Z) : outcome ((Z * Z) * bool) :=
  if l <? umul m_segmentSize 2 then Ok ((0, 0), false)
  else
    first <- index start l ;;
    second <- index end_ l ;;
    if (first =? MIDDLE_SEGMENT) && (second =? MIDDLE_SEGMENT) then
      Ok ((first, second), false)
    else if first =? MIDDLE_SEGMENT then
      h <- segmentsPerHalf l ;;
      Ok ((h, second), true)
    else if second =? MIDDLE_SEGMENT then
      h <- segmentsPerHalf l ;;
      Ok ((first, usub h 1), true)
    else Ok ((first, second), true).

End Calc.

End SegmentCalc.

(** ** Reference notions

    The vocabulary in which the properties are stated: the 2-bit code of a
    base, complement and reverse complement, the plain packing of a strand,
    and the comparison of packed strands as big-endian unsigned numbers. *)

(** A=0, C=1, G=2, T=3, in either case; no other character has a code. *)
Definition baseCode (c : ascii) : option Z :=
  match c with
  | "A" | "a" => Some 0
  | "C" | "c" => Some 1
  | "G" | "g" => Some 2
  | "T" | "t" => Some 3
  | _ => None
  end%char.

Definition isBase (c : ascii) : bool :=
  match baseCode c with Some _ => true | None => false end.

Definition codeOf (c : ascii) : Z :=
  match baseCode c with Some x => x | None => 0 end.

(** A<->T and C<->G, keeping the case; other characters are left alone. *)
Definition complement (c : ascii) : ascii :=
  match c with
  | "A" => "T" | "C" => "G" | "G" => "C" | "T" => "A"
  | "a" => "t" | "c" => "g" | "g" => "c" | "t" => "a"
  | _ => c
  end%char.

Definition reverseComplement (w : list ascii) : list ascii :=
  rev (map complement w).

(** ASCII upper-casing. *)
Definition toUpper (c : ascii) : ascii :=
  let n := nat_of_ascii c in
  if ((97 <=? n) && (n <=? 122))%nat then ascii_of_nat (n - 32) else c.

(** Four codes in one byte, the first in bits 6-7 and the last in bits 0-1. *)
Definition byte4 (a b c d : Z) : Z :=
  Z.lor (Z.lor (Z.lor (Z.shiftl a 6) (Z.shiftl b 4)) (Z.shiftl c 2)) d.

(** The packing of a strand: four bases a byte, most significant first, the
    unused low bits of a partial last byte zero. *)
Fixpoint pack (w : list ascii) : list Z :=
  match w with
  | [] => []
  | [a] => [byte4 (codeOf a) 0 0 0]
  | [a; b] => [byte4 (codeOf a) (codeOf b) 0 0]
  | [a; b; c] => [byte4 (codeOf a) (codeOf b) (codeOf c) 0]
  | a :: b :: c :: d :: rest =>
      byte4 (codeOf a) (codeOf b) (codeOf c) (codeOf d) :: pack rest
  end.

(** Comparison of two byte arrays as big-endian unsigned numbers. *)
Fixpoint lexCompare (x y : list Z) : comparison :=
  match x, y with
  | [], [] => Eq
  | [], _ :: _ => Lt
  | _ :: _, [] => Gt
  | a :: x', b :: y' =>
      match a ?= b with
      | Eq => lexCompare x' y'
      | o => o
      end
  end.

Definition bytesMin (x y : list Z) : list Z :=
  match lexCompare x y with Gt => y | _ => x end.

(** The [k] characters of [sequence] from [position] on. *)
Definition window (sequence : list ascii) (position k : nat) : list ascii :=
  firstn k (skipn position sequence).

Definition ceilDiv (n d : nat) : nat := ((n + d - 1) / d)%nat.

(** The bytes behind the pointer [prepSeq] returns, when it returns one. *)
Definition bytesOf (r : result) : option (list Z) :=
  match r with
  | Ret_m_fw b | Ret_m_rv b => Some b
  | NULL | OutOfBounds => None
  end.

(** ** Auxiliary notions of the proofs *)

(** An entry of a table whose codes sit [sh] bits up. *)
Definition entry (sh : Z) (c : ascii) : Z :=
  match baseCode c with Some x => Z.shiftl x sh | None => 0xFF end.

(** What a four-base block makes of four characters. *)
Definition groupOf (c0 c1 c2 c3 : ascii) : option Z :=
  match baseCode c0, baseCode c1, baseCode c2, baseCode c3 with
  | Some a, Some b, Some c, Some d => Some (byte4 a b c d)
  | _, _, _, _ => None
  end.

(** Byte [i] of the packing of [w], read off [w]. *)
Definition byteAt (w : list ascii) (i : nat) : Z :=
  byte4 (codeOf (nth (4 * i) w zero)) (codeOf (nth (4 * i + 1) w zero))
    (codeOf (nth (4 * i + 2) w zero)) (codeOf (nth (4 * i + 3) w zero)).

(** Character [j] of what [getBases] prints for [c]. *)
Definition letter (c : list Z) (j : nat) : ascii :=
  nth (Z.to_nat (Z.land (Z.shiftr (nth (j / 4) c 0)
                           (2 * (3 - Z.of_nat (j mod 4)))) 3))
    ["A"; "C"; "G"; "T"]%char zero.

(** The code [getBases] reads at base [t] of byte [b]. *)
Definition codeIn (b : Z) (t : nat) : Z :=
  Z.land (Z.shiftr b (2 * (3 - Z.of_nat t))) 3.

(** Auxiliary notions for [SegmentCalc]: the number of segments of a
    sequence of length [l] cut into segments of length [s], the length of
    the uncovered middle, and the one-based first position of segment
    [i]. *)
Definition segCount (s l : Z) : Z :=
  if l mod s =? 0 then l / s else 2 * (l / 2 / s).

Definition segGap (s l : Z) : Z :=
  if l mod s =? 0 then 0 else l - 2 * (s * (l / 2 / s)).

Definition segStart (s l i : Z) : Z :=
  if (l mod s =? 0) || (i <? l / 2 / s) then i * s + 1
  else i * s + segGap s l + 1.

(** * Properties *)

(** [lia] is to see through division and remainder. *)
Ltac Zify.zify_post_hook ::= Z.to_euclidean_division_equations.

(** ** Geometry *)

Lemma Some_inj {A : Type} (x y : A) : Some x = Some y -> x = y.
Proof. congruence. Qed.

Lemma new_fields (k : nat) (rp : ReadsProcessor) :
  ReadsProcessor_new k = Some rp ->
  (3 < k)%nat /\
  rp = mkReadsProcessor k ((k + 3) / 4) ((k + 7) / 8) (k mod 4)
         (if (k mod 4 =? 0)%nat then 0 else 1).
Proof.
  unfold ReadsProcessor_new. cbv zeta.
  destruct (Nat.ltb_spec 3 k) as [Hk|]; [|discriminate].
  intros E; apply Some_inj in E; subst rp. split; [exact Hk|].
  assert (Hm4 : ((k mod 4) mod 4 = k mod 4)%nat)
    by (apply Nat.mod_small, Nat.mod_upper_bound; lia).
  rewrite Hm4.
  destruct (Nat.eqb_spec (k mod 8) 0) as [H8|H8];
    destruct (Nat.eqb_spec (k mod 4) 0) as [H4|H4]; cbn [negb]; f_equal; lia.
Qed.

Lemma new_total (k : nat) :
  (3 < k)%nat -> exists rp, ReadsProcessor_new k = Some rp.
Proof.
  intros Hk. unfold ReadsProcessor_new.
  destruct (Nat.ltb_spec 3 k); [eexists; reflexivity | lia].
Qed.

(** C5: for a window size above 3 the constructor yields
    [m_kmerSizeInBytes = ceil(k/4)] and [m_halfSizeOfKmerInBytes =
    ceil(k/8)], with [1 <= H <= B]; the scratch buffers [prepSeq] works on
    have [B] bytes and its comparison loop runs [H] times. *)
Theorem geometry (k : nat) :
  (3 < k)%nat ->
  exists rp,
    ReadsProcessor_new k = Some rp /\
    m_kmerSize rp = k /\
    m_kmerSizeInBytes rp = ceilDiv k 4 /\
    m_halfSizeOfKmerInBytes rp = ceilDiv k 8 /\
    (4 * m_kmerSizeInBytes rp < k + 4 <= 4 * m_kmerSizeInBytes rp + 4)%nat /\
    (8 * m_halfSizeOfKmerInBytes rp < k + 8
       <= 8 * m_halfSizeOfKmerInBytes rp + 8)%nat /\
    (1 <= m_halfSizeOfKmerInBytes rp <= m_kmerSizeInBytes rp)%nat /\
    forall sequence position,
      prepSeq rp sequence position =
      mainLoop rp sequence position (ceilDiv k 8) 0 position
        (position + k - 1) (repeat 0 (ceilDiv k 4)) (repeat 0 (ceilDiv k 4)).
Proof.
  intros Hk. destruct (new_total k Hk) as [rp E].
  exists rp. destruct (new_fields k rp E) as [_ ->].
  unfold ceilDiv. cbn [m_kmerSize m_kmerSizeInBytes m_halfSizeOfKmerInBytes].
  replace (k + 4 - 1)%nat with (k + 3)%nat by lia.
  replace (k + 8 - 1)%nat with (k + 7)%nat by lia.
  repeat match goal with |- _ /\ _ => split end;
    try exact E; try lia; try reflexivity.
  intros; unfold prepSeq.
  cbn [m_kmerSize m_kmerSizeInBytes m_halfSizeOfKmerInBytes].
  rewrite Nat.sub_0_r. reflexivity.
Qed.

Lemma geometry_witness :
  exists rp, ReadsProcessor_new 9 = Some rp /\
             m_kmerSizeInBytes rp = 3%nat /\ m_halfSizeOfKmerInBytes rp = 2%nat.
Proof.
  destruct (geometry 9 ltac:(lia)) as (rp & E & _ & HB & HH & _).
  exists rp. repeat split; assumption.
Defined.

(** C6: the constructor fails for window sizes 0, 1, 2 and 3, and succeeds
    for 4. *)
Theorem construction_rejection :
  ReadsProcessor_new 0 = None /\ ReadsProcessor_new 1 = None /\
  ReadsProcessor_new 2 = None /\ ReadsProcessor_new 3 = None /\
  ReadsProcessor_new 4 = Some (mkReadsProcessor 4 1 1 0 0).
Proof. repeat split. Qed.

(** ** The tables *)

Ltac each_ascii c :=
  destruct c as [[] [] [] [] [] [] [] []]; vm_compute; try reflexivity.

Lemma fw0_entry c : lookup Tables.fw0 c = entry 6 c.
Proof. each_ascii c. Qed.
Lemma fw1_entry c : lookup Tables.fw1 c = entry 4 c.
Proof. each_ascii c. Qed.
Lemma fw2_entry c : lookup Tables.fw2 c = entry 2 c.
Proof. each_ascii c. Qed.
Lemma fw3_entry c : lookup Tables.fw3 c = entry 0 c.
Proof. each_ascii c. Qed.
Lemma rv0_entry c : lookup Tables.rv0 c = entry 6 (complement c).
Proof. each_ascii c. Qed.
Lemma rv1_entry c : lookup Tables.rv1 c = entry 4 (complement c).
Proof. each_ascii c. Qed.
Lemma rv2_entry c : lookup Tables.rv2 c = entry 2 (complement c).
Proof. each_ascii c. Qed.
Lemma rv3_entry c : lookup Tables.rv3 c = entry 0 (complement c).
Proof. each_ascii c. Qed.

Lemma baseCode_cases c :
  baseCode c = None \/ baseCode c = Some 0 \/ baseCode c = Some 1 \/
  baseCode c = Some 2 \/ baseCode c = Some 3.
Proof. each_ascii c; tauto. Qed.

Lemma baseCode_complement c :
  baseCode (complement c) =
  match baseCode c with Some x => Some (3 - x) | None => None end.
Proof. each_ascii c. Qed.

Lemma isBase_complement c : isBase (complement c) = isBase c.
Proof. unfold isBase. rewrite baseCode_complement. now destruct (baseCode c). Qed.

Lemma complement_zero : complement zero = zero.
Proof. reflexivity. Qed.

Ltac code_cases c :=
  let E := fresh "E" in
  destruct (baseCode_cases c) as [E|[E|[E|[E|E]]]]; rewrite E.

Lemma groupOf_isBase c0 c1 c2 c3 :
  match groupOf c0 c1 c2 c3 with Some _ => true | None => false end =
  isBase c0 && isBase c1 && isBase c2 && isBase c3.
Proof.
  unfold groupOf, isBase.
  destruct (baseCode c0), (baseCode c1), (baseCode c2), (baseCode c3);
    reflexivity.
Qed.

Lemma groupOf_codes c0 c1 c2 c3 :
  isBase c0 = true -> isBase c1 = true -> isBase c2 = true ->
  isBase c3 = true ->
  groupOf c0 c1 c2 c3 =
  Some (byte4 (codeOf c0) (codeOf c1) (codeOf c2) (codeOf c3)).
Proof.
  unfold groupOf, isBase, codeOf.
  destruct (baseCode c0), (baseCode c1), (baseCode c2), (baseCode c3);
    intros; try discriminate; reflexivity.
Qed.

Lemma fwGroup_0 s i :
  fwGroup s i 0 =
  groupOf (at_ s i) (at_ s (i + 1)) (at_ s (i + 2)) (at_ s (i + 3)).
Proof.
  unfold fwGroup, groupOf.
  rewrite fw0_entry, fw1_entry, fw2_entry, fw3_entry. unfold entry.
  generalize (at_ s i) (at_ s (i + 1)) (at_ s (i + 2)) (at_ s (i + 3)).
  intros c0 c1 c2 c3.
  code_cases c0; code_cases c1; code_cases c2; code_cases c3; reflexivity.
Qed.

Lemma rvGroup_0 s r :
  rvGroup s r 0 =
  groupOf (complement (at_ s r)) (complement (at_ s (r - 1)))
    (complement (at_ s (r - 2))) (complement (at_ s (r - 3))).
Proof.
  unfold rvGroup, groupOf.
  rewrite rv0_entry, rv1_entry, rv2_entry, rv3_entry. unfold entry.
  generalize (complement (at_ s r)) (complement (at_ s (r - 1)))
    (complement (at_ s (r - 2))) (complement (at_ s (r - 3))).
  intros c0 c1 c2 c3.
  code_cases c0; code_cases c1; code_cases c2; code_cases c3; reflexivity.
Qed.

(** C10: the [0xFF] test of a four-base block.  The byte accumulated from
    [fw0], [fw1], [fw2] (and likewise from [rv0], [rv1], [rv2]) is [0xFF]
    exactly when one of the three characters is no base; otherwise it is at
    most [0xFC] with bits 0-1 clear.  Together with the look-up in [fw3]
    ([rv3]) the block returns [NULL] exactly when one of its four characters
    is no base. *)
Theorem sentinel_check_sound (c0 c1 c2 : ascii) (sequence : list ascii)
    (index revIndex : nat) :
  let f := Z.lor (Z.lor (lookup Tables.fw0 c0) (lookup Tables.fw1 c1))
             (lookup Tables.fw2 c2) in
  let r := Z.lor (Z.lor (lookup Tables.rv0 c0) (lookup Tables.rv1 c1))
             (lookup Tables.rv2 c2) in
  (if isBase c0 && isBase c1 && isBase c2
   then f <= 0xFC /\ Z.land f 3 = 0 /\ r <= 0xFC /\ Z.land r 3 = 0
   else f = 0xFF /\ r = 0xFF) /\
  match fwGroup sequence index 0 with Some _ => true | None => false end =
    isBase (at_ sequence index) && isBase (at_ sequence (index + 1)) &&
    isBase (at_ sequence (index + 2)) && isBase (at_ sequence (index + 3)) /\
  match rvGroup sequence revIndex 0 with Some _ => true | None => false end =
    isBase (at_ sequence revIndex) && isBase (at_ sequence (revIndex - 1)) &&
    isBase (at_ sequence (revIndex - 2)) &&
    isBase (at_ sequence (revIndex - 3)).
Proof.
  cbv zeta. split; [|split].
  - rewrite fw0_entry, fw1_entry, fw2_entry, rv0_entry, rv1_entry, rv2_entry.
    unfold entry, isBase. rewrite !baseCode_complement.
    code_cases c0; code_cases c1; code_cases c2; vm_compute;
      repeat split; discriminate.
  - rewrite fwGroup_0. apply groupOf_isBase.
  - rewrite rvGroup_0, groupOf_isBase, !isBase_complement. reflexivity.
Qed.

(** ** Window size 4 *)

(** C7: with window size 4, ["AAAC"] yields the forward byte [0x01] (the
    reverse complement packs to [0xBF]), ["TTTG"] yields the byte [0x40] of
    its reverse complement (the forward strand packs to [0xFE]), and the
    self-complementary ["ACGT"] yields its forward byte [0x1B]. *)
Theorem strand_selection_k4 :
  exists rp,
    ReadsProcessor_new 4 = Some rp /\
    prepSeq rp (str "AAAC") 0 = Ret_m_fw [0x01] /\
    pack (str "AAAC") = [0x01] /\
    pack (reverseComplement (str "AAAC")) = [0xBF] /\
    prepSeq rp (str "TTTG") 0 = Ret_m_rv [0x40] /\
    pack (str "TTTG") = [0xFE] /\
    pack (reverseComplement (str "TTTG")) = [0x40] /\
    reverseComplement (str "ACGT") = str "ACGT" /\
    prepSeq rp (str "ACGT") 0 = Ret_m_fw [0x1B] /\
    pack (str "ACGT") = [0x1B].
Proof. eexists. repeat split. Qed.

(** ** Windows that tie over the compared prefix *)

(** C1: two self-complementary windows.  With window size 8, both strands of
    ["AAAATTTT"] pack to [0x00 0xFF]; the one compared byte ties, the code
    after the loop leaves byte 1 as [memset] made it, and [prepSeq] returns
    [0x00 0x00].  With window size 16, both strands of ["AAAACCCCGGGGTTTT"]
    pack to [0x00 0x55 0xAA 0xFF], and [prepSeq] returns
    [0x00 0x55 0x00 0xAA]. *)
Theorem tie_not_minimum :
  exists rp8 rp16,
    ReadsProcessor_new 8 = Some rp8 /\
    bytesMin (pack (str "AAAATTTT"))
      (pack (reverseComplement (str "AAAATTTT"))) = [0x00; 0xFF] /\
    prepSeq rp8 (str "AAAATTTT") 0 = Ret_m_fw [0x00; 0x00] /\
    ReadsProcessor_new 16 = Some rp16 /\
    bytesMin (pack (str "AAAACCCCGGGGTTTT"))
      (pack (reverseComplement (str "AAAACCCCGGGGTTTT")))
      = [0x00; 0x55; 0xAA; 0xFF] /\
    prepSeq rp16 (str "AAAACCCCGGGGTTTT") 0
      = Ret_m_fw [0x00; 0x55; 0x00; 0xAA].
Proof. do 2 eexists. repeat split. Qed.

(** C3: windows whose compared bytes all tie.  With window size 16 and
    ["AAAACCCCGGGGTTTT"] the two compared bytes tie and the forward packing
    is [0x00 0x55 0xAA 0xFF], while [prepSeq] returns the forward buffer
    holding [0x00 0x55 0x00 0xAA]: byte 2 is skipped and byte 3 is packed
    from the bases 8 to 11.  With window size 14 and ["AAAACCCGGGTTTT"] the
    forward packing is [0x00 0x56 0xAF 0xF0] and the buffer returned holds
    [0x00 0x56 0x00 0x80]: byte 2 is skipped and the last byte is the
    [fw0] entry of base 9 alone. *)
Theorem tie_not_forward_packing :
  exists rp16 rp14,
    ReadsProcessor_new 16 = Some rp16 /\
    m_halfSizeOfKmerInBytes rp16 = 2%nat /\
    firstn 2 (pack (str "AAAACCCCGGGGTTTT")) =
      firstn 2 (pack (reverseComplement (str "AAAACCCCGGGGTTTT"))) /\
    pack (str "AAAACCCCGGGGTTTT") = [0x00; 0x55; 0xAA; 0xFF] /\
    prepSeq rp16 (str "AAAACCCCGGGGTTTT") 0
      = Ret_m_fw [0x00; 0x55; 0x00; 0xAA] /\
    ReadsProcessor_new 14 = Some rp14 /\
    m_halfSizeOfKmerInBytes rp14 = 2%nat /\
    firstn 2 (pack (str "AAAACCCGGGTTTT")) =
      firstn 2 (pack (reverseComplement (str "AAAACCCGGGTTTT"))) /\
    pack (str "AAAACCCGGGTTTT") = [0x00; 0x56; 0xAF; 0xF0] /\
    prepSeq rp14 (str "AAAACCCGGGTTTT") 0
      = Ret_m_fw [0x00; 0x56; 0x00; 0x80].
Proof. do 2 eexists. repeat split. Qed.

(** C4: window sizes 6 and 10 with the self-complementary windows
    ["AAATTT"] and ["AAAAATTTTT"].  The compared bytes tie, and the code
    after the loop writes its last byte one past the end of [m_fw] (index 2
    of 2 bytes, index 3 of 3 bytes), for the window and for its reverse
    complement alike; neither call yields packed bytes. *)
Theorem tie_out_of_bounds :
  exists rp6 rp10,
    ReadsProcessor_new 6 = Some rp6 /\
    m_kmerSizeInBytes rp6 = 2%nat /\
    prepSeq rp6 (str "AAATTT") 0 = OutOfBounds /\
    prepSeq rp6 (reverseComplement (str "AAATTT")) 0 = OutOfBounds /\
    bytesOf (prepSeq rp6 (str "AAATTT") 0) = None /\
    ReadsProcessor_new 10 = Some rp10 /\
    m_kmerSizeInBytes rp10 = 3%nat /\
    prepSeq rp10 (str "AAAAATTTTT") 0 = OutOfBounds /\
    prepSeq rp10 (reverseComplement (str "AAAAATTTTT")) 0 = OutOfBounds /\
    bytesOf (prepSeq rp10 (str "AAAAATTTTT") 0) = None.
Proof. do 2 eexists. repeat split. Qed.

(** ** Lists, buffers and packings *)

Lemma list_ind4 {A : Type} (P : list A -> Prop) :
  P [] -> (forall a, P [a]) -> (forall a b, P [a; b]) ->
  (forall a b c, P [a; b; c]) ->
  (forall a b c d r, P r -> P (a :: b :: c :: d :: r)) ->
  forall l, P l.
Proof.
  intros H0 H1 H2 H3 H4.
  fix IH 1.
  intros [|a [|b [|c [|d r]]]];
    [apply H0 | apply H1 | apply H2 | apply H3 | apply H4, IH].
Qed.

Lemma firstn_snoc {A : Type} (l : list A) (i : nat) (x : A) :
  nth_error l i = Some x -> firstn (S i) l = firstn i l ++ [x].
Proof.
  revert i; induction l as [|a l IH]; intros [|i] E; cbn in *;
    try discriminate.
  - now injection E as ->.
  - now rewrite (IH i E).
Qed.

Lemma nth_error_done_zeros (done : list Z) (m : nat) :
  nth_error (done ++ repeat 0 (S m)) (length done) = Some 0.
Proof. rewrite nth_error_app2, Nat.sub_diag by lia. reflexivity. Qed.

Lemma store_done_zeros (done : list Z) (m : nat) (v : Z) :
  store (done ++ repeat 0 (S m)) (length done) v =
  (done ++ [v]) ++ repeat 0 m.
Proof.
  unfold store.
  rewrite firstn_app, firstn_all, Nat.sub_diag, skipn_app.
  rewrite skipn_all2 by lia.
  replace (S (length done) - length done)%nat with 1%nat by lia.
  cbn. now rewrite app_nil_r, <- app_assoc.
Qed.

Lemma map_seq_nth {A B : Type} (f : nat -> B) (g : A -> B) (d : A)
    (l : list A) :
  (forall j, (j < length l)%nat -> f j = g (nth j l d)) ->
  map f (seq 0 (length l)) = map g l.
Proof.
  revert f; induction l as [|a l IH]; intros f Hf; [reflexivity|].
  cbn [length seq map]. rewrite <- seq_shift, map_map. f_equal.
  - apply (Hf 0%nat). cbn; lia.
  - apply IH. intros j Hj. apply (Hf (S j)). cbn; lia.
Qed.

Lemma codeOf_range c :
  codeOf c = 0 \/ codeOf c = 1 \/ codeOf c = 2 \/ codeOf c = 3.
Proof. unfold codeOf. code_cases c; tauto. Qed.

Lemma codeOf_complement c :
  isBase c = true -> codeOf (complement c) = 3 - codeOf c.
Proof.
  unfold isBase, codeOf. rewrite baseCode_complement.
  destruct (baseCode c); [reflexivity | discriminate].
Qed.

Lemma pack_length w : length (pack w) = ((length w + 3) / 4)%nat.
Proof.
  induction w as [|a|a b|a b c|a b c d r IH] using list_ind4;
    try reflexivity.
  cbn [pack length]. rewrite IH. lia.
Qed.

Lemma pack_nth_error i : forall w,
  (4 * i < length w)%nat -> nth_error (pack w) i = Some (byteAt w i).
Proof.
  induction i as [|i IH]; intros [|a [|b [|c [|d r]]]] H;
    cbn [length] in H; try lia; try reflexivity.
  cbn [pack nth_error]. rewrite IH by lia. unfold byteAt.
  replace (4 * S i)%nat with (S (S (S (S (4 * i))))) by lia.
  reflexivity.
Qed.

Lemma pack_nth i w :
  (4 * i < length w)%nat -> nth i (pack w) 0 = byteAt w i.
Proof. intros H. apply nth_error_nth, pack_nth_error, H. Qed.

Lemma pack_ext u v :
  length u = length v ->
  (forall j, (j < length u)%nat ->
             codeOf (nth j u zero) = codeOf (nth j v zero)) ->
  pack u = pack v.
Proof.
  intros Hl Hc.
  assert (Hall : forall j, codeOf (nth j u zero) = codeOf (nth j v zero)).
  { intros j. destruct (Nat.lt_ge_cases j (length u)) as [Hj|Hj].
    - now apply Hc.
    - rewrite !nth_overflow by lia. reflexivity. }
  apply (nth_ext _ _ 0 0).
  - now rewrite !pack_length, Hl.
  - intros i Hi. rewrite pack_length in Hi.
    rewrite !pack_nth by lia. unfold byteAt. now rewrite !Hall.
Qed.

(** ** getBases *)

Lemma getBases_loop_spec (c : list Z) : forall n i ci co acc,
  (co = -1 /\ (i mod 4 = 0)%nat /\ S ci = (i / 4)%nat \/
   co = 3 - Z.of_nat (i mod 4) /\ ci = (i / 4)%nat) ->
  (i + n <= 4 * length c)%nat ->
  getBases_loop n ci co c acc = Some (acc ++ map (letter c) (seq i n)).
Proof.
  induction n as [|n IH]; intros i ci co acc Hinv Hlen.
  - cbn. now rewrite app_nil_r.
  - cbn [getBases_loop seq map].
    assert (E : (if co =? -1 then (S ci, 3) else (ci, co)) =
                ((i / 4)%nat, 3 - Z.of_nat (i mod 4))).
    { destruct (Z.eqb_spec co (-1)) as [->|Hne]; f_equal; lia. }
    rewrite E.
    rewrite (nth_error_nth' c 0) by lia.
    rewrite (IH (S i)) by lia.
    rewrite <- app_assoc. reflexivity.
Qed.

Lemma getBases_letters (rp : ReadsProcessor) (c : list Z) :
  (m_kmerSize rp <= 4 * length c)%nat ->
  getBases rp c = Some (map (letter c) (seq 0 (m_kmerSize rp))).
Proof.
  intros H. unfold getBases.
  rewrite (getBases_loop_spec c _ 0%nat) by (cbn; lia). reflexivity.
Qed.

Lemma letter_in c j : In (letter c j) ["A"; "C"; "G"; "T"]%char.
Proof.
  unfold letter.
  set (x := Z.land _ 3).
  assert (Hx : 0 <= x < 4).
  { subst x. change 3 with (Z.ones 2). rewrite Z.land_ones by lia.
    apply Z.mod_pos_bound. lia. }
  clearbody x.
  assert (Hc : x = 0 \/ x = 1 \/ x = 2 \/ x = 3) by lia.
  destruct Hc as [-> | [-> | [-> | ->]]]; cbn; tauto.
Qed.

(** C9: [getBases] on an array of at least [ceil(k/4)] bytes, whatever they
    hold, returns [k] characters, each one of A, C, G, T, and what it returns
    is settled by the first [ceil(k/4)] bytes alone. *)
Theorem getBases_total (k : nat) (rp : ReadsProcessor) (c : list Z) :
  ReadsProcessor_new k = Some rp ->
  (ceilDiv k 4 <= length c)%nat ->
  exists bases,
    getBases rp c = Some bases /\
    length bases = k /\
    Forall (fun ch => In ch ["A"; "C"; "G"; "T"]%char) bases /\
    getBases rp (firstn (ceilDiv k 4) c) = Some bases.
Proof.
  intros Hnew Hlen. destruct (new_fields k rp Hnew) as [Hk ->].
  unfold ceilDiv in *.
  exists (map (letter c) (seq 0 k)). repeat split.
  - apply getBases_letters. cbn [m_kmerSize]. lia.
  - now rewrite length_map, length_seq.
  - apply Forall_forall. intros ch Hin. apply in_map_iff in Hin.
    destruct Hin as (j & <- & _). apply letter_in.
  - rewrite getBases_letters by (cbn [m_kmerSize]; rewrite length_firstn; lia).
    cbn [m_kmerSize]. f_equal. apply map_ext_in. intros j Hj.
    apply in_seq in Hj. unfold letter. rewrite nth_firstn.
    destruct (Nat.ltb_spec (j / 4) ((k + 4 - 1) / 4)); [reflexivity | lia].
Qed.

Lemma getBases_total_witness :
  exists bases,
    getBases (mkReadsProcessor 5 2 1 1 1) [0x1B; 0xC7; 0x55] = Some bases /\
    length bases = 5%nat /\
    Forall (fun ch => In ch ["A"; "C"; "G"; "T"]%char) bases /\
    getBases (mkReadsProcessor 5 2 1 1 1) (firstn (ceilDiv 5 4) [0x1B; 0xC7; 0x55])
      = Some bases.
Proof.
  apply (getBases_total 5 (mkReadsProcessor 5 2 1 1 1) [0x1B; 0xC7; 0x55]).
  - reflexivity.
  - vm_compute. lia.
Defined.

Lemma byteAt_extract w i t :
  (t < 4)%nat ->
  Z.land (Z.shiftr (byteAt w i) (2 * (3 - Z.of_nat t))) 3 =
  codeOf (nth (4 * i + t) w zero).
Proof.
  intros Ht. unfold byteAt.
  rewrite <- (Nat.add_0_r (4 * i)) at 1.
  generalize (codeOf_range (nth (4 * i + 0) w zero))
    (codeOf_range (nth (4 * i + 1) w zero))
    (codeOf_range (nth (4 * i + 2) w zero))
    (codeOf_range (nth (4 * i + 3) w zero)).
  destruct t as [|[|[|[|t]]]]; try lia;
    generalize (codeOf (nth (4 * i + 0) w zero))
      (codeOf (nth (4 * i + 1) w zero))
      (codeOf (nth (4 * i + 2) w zero))
      (codeOf (nth (4 * i + 3) w zero));
    intros a b c d
      [-> | [-> | [-> | ->]]] [-> | [-> | [-> | ->]]]
      [-> | [-> | [-> | ->]]] [-> | [-> | [-> | ->]]];
    reflexivity.
Qed.

Lemma letter_of_code c :
  isBase c = true ->
  nth (Z.to_nat (codeOf c)) ["A"; "C"; "G"; "T"]%char zero = toUpper c.
Proof.
  destruct c as [[] [] [] [] [] [] [] []]; vm_compute;
    intros H; try discriminate H; reflexivity.
Qed.

Lemma getBases_pack (rp : ReadsProcessor) (w : list ascii) :
  length w = m_kmerSize rp ->
  (forall j, (j < length w)%nat -> isBase (nth j w zero) = true) ->
  getBases rp (pack w) = Some (map toUpper w).
Proof.
  intros Hl Hv.
  rewrite getBases_letters by (rewrite pack_length; lia).
  rewrite <- Hl. f_equal. apply (map_seq_nth _ _ zero).
  intros j Hj. unfold letter.
  rewrite pack_nth by lia.
  rewrite byteAt_extract by lia.
  replace (4 * (j / 4) + j mod 4)%nat with j by lia.
  apply letter_of_code, Hv, Hj.
Qed.

Lemma pack_codes u v :
  length u = length v -> pack u = pack v ->
  forall j, (j < length u)%nat ->
            codeOf (nth j u zero) = codeOf (nth j v zero).
Proof.
  intros Hl Hp j Hj.
  replace j with (4 * (j / 4) + j mod 4)%nat by lia.
  rewrite <- !byteAt_extract by lia.
  rewrite <- !pack_nth by lia. now rewrite Hp.
Qed.

Lemma firstn_app_le {A : Type} (n : nat) (l l' : list A) :
  (n <= length l)%nat -> firstn n (l ++ l') = firstn n l.
Proof.
  intros H. rewrite firstn_app.
  replace (n - length l)%nat with 0%nat by lia.
  cbn. apply app_nil_r.
Qed.

(** ** Comparison of packings *)

Lemma lexCompare_eq x : forall y, lexCompare x y = Eq -> x = y.
Proof.
  induction x as [|a x IH]; intros [|b y] H; cbn in H;
    try discriminate; [reflexivity|].
  destruct (Z.compare_spec a b); try discriminate.
  subst. now rewrite (IH y H).
Qed.

Lemma lexCompare_prefix n : forall x y,
  lexCompare (firstn n x) (firstn n y) <> Eq ->
  lexCompare x y = lexCompare (firstn n x) (firstn n y).
Proof.
  induction n as [|n IH]; intros x y H.
  - now destruct H.
  - destruct x as [|a x], y as [|b y]; try reflexivity.
    cbn [firstn lexCompare] in *.
    destruct (a ?= b); try reflexivity. now apply IH.
Qed.

Lemma skipn_cons_nth_error {A : Type} (l : list A) : forall i x,
  nth_error l i = Some x -> skipn i l = x :: skipn (S i) l.
Proof.
  induction l as [|a l IH]; intros [|i] x E; cbn in E; try discriminate.
  - now injection E as ->.
  - cbn [skipn]. now apply IH.
Qed.

Lemma lexCompare_cons_skipn x y i f r n :
  nth_error x i = Some f -> nth_error y i = Some r ->
  lexCompare (firstn (S n) (skipn i x)) (firstn (S n) (skipn i y)) =
  match f ?= r with
  | Eq => lexCompare (firstn n (skipn (S i) x)) (firstn n (skipn (S i) y))
  | o => o
  end.
Proof.
  intros Hx Hy.
  rewrite (skipn_cons_nth_error x i f Hx), (skipn_cons_nth_error y i r Hy).
  reflexivity.
Qed.

Lemma lexCompare_refl x : lexCompare x x = Eq.
Proof.
  induction x as [|a x IH]; [reflexivity|].
  cbn. now rewrite Z.compare_refl.
Qed.

(** ** Last bytes *)

Lemma isBase_cases c :
  isBase c = true ->
  baseCode c = Some 0 \/ baseCode c = Some 1 \/ baseCode c = Some 2 \/
  baseCode c = Some 3.
Proof.
  unfold isBase. destruct (baseCode_cases c) as [E|H]; [|intros _; exact H].
  rewrite E. discriminate.
Qed.

Ltac base_cases H :=
  let E := fresh "E" in
  destruct (isBase_cases _ H) as [E|[E|[E|E]]]; rewrite E; clear E.

Lemma last_byte_1 c0 :
  isBase c0 = true ->
  entry 6 c0 = byte4 (codeOf c0) 0 0 0 /\ (entry 6 c0 =? 0xFF) = false.
Proof. intros H0. unfold entry, codeOf. base_cases H0; split; reflexivity. Qed.

Lemma last_byte_2 c0 c1 :
  isBase c0 = true -> isBase c1 = true ->
  let b := Z.lor (Z.shiftr (entry 6 c1) 2) (entry 6 c0) in
  b = byte4 (codeOf c0) (codeOf c1) 0 0 /\ (b =? 0xFF) = false.
Proof.
  intros H0 H1. unfold entry, codeOf.
  base_cases H0; base_cases H1; split; reflexivity.
Qed.

Lemma last_byte_3 c0 c1 c2 :
  isBase c0 = true -> isBase c1 = true -> isBase c2 = true ->
  let b := Z.lor (Z.shiftr (Z.lor (Z.shiftr (entry 6 c2) 2) (entry 6 c1)) 2)
             (entry 6 c0) in
  b = byte4 (codeOf c0) (codeOf c1) (codeOf c2) 0 /\ (b =? 0xFF) = false.
Proof.
  intros H0 H1 H2. unfold entry, codeOf.
  base_cases H0; base_cases H1; base_cases H2; split; reflexivity.
Qed.

Lemma nth_error_done_zeros_at (done : list Z) (i n : nat) :
  length done = i -> (0 < n)%nat ->
  nth_error (done ++ repeat 0 n) i = Some 0.
Proof.
  intros <- Hn. destruct n; [lia|]. apply nth_error_done_zeros.
Qed.

Lemma store_done_zeros_at (done : list Z) (i n : nat) (v : Z) :
  length done = i -> (0 < n)%nat ->
  store (done ++ repeat 0 n) i v = (done ++ [v]) ++ repeat 0 (n - 1).
Proof.
  intros <- Hn. destruct n; [lia|]. rewrite store_done_zeros.
  now rewrite Nat.sub_succ, Nat.sub_0_r.
Qed.

(** ** prepSeq on a window inside the sequence *)

Section Window.

Variables (k : nat) (sequence : list ascii) (position : nat).
Hypothesis Hk : (3 < k)%nat.
Hypothesis Hfit : (position + k <= length sequence)%nat.

Local Notation rpk :=
  (mkReadsProcessor k ((k + 3) / 4) ((k + 7) / 8) (k mod 4)
     (if (k mod 4 =? 0)%nat then 0%nat else 1%nat)).
Local Notation win := (window sequence position k).
Local Notation rcw := (reverseComplement (window sequence position k)).

Lemma window_length : length win = k.
Proof. unfold window. rewrite length_firstn, length_skipn. lia. Qed.

Lemma rc_length : length rcw = k.
Proof.
  unfold reverseComplement. now rewrite length_rev, length_map, window_length.
Qed.

Lemma at_window j :
  (j < k)%nat -> at_ sequence (position + j) = nth j win zero.
Proof.
  intros Hj. unfold at_, window. rewrite nth_firstn.
  destruct (Nat.ltb_spec j k); [|lia]. now rewrite nth_skipn.
Qed.

Lemma rc_nth j :
  (j < k)%nat -> nth j rcw zero = complement (nth (k - 1 - j) win zero).
Proof.
  intros Hj. unfold reverseComplement.
  rewrite rev_nth by (rewrite length_map, window_length; lia).
  rewrite length_map, window_length.
  replace (k - S j)%nat with (k - 1 - j)%nat by lia.
  rewrite <- complement_zero at 1. apply map_nth.
Qed.

Lemma fw_group i :
  (4 * i + 4 <= k)%nat ->
  fwGroup sequence (position + 4 * i) 0 =
  groupOf (nth (4 * i) win zero) (nth (4 * i + 1) win zero)
    (nth (4 * i + 2) win zero) (nth (4 * i + 3) win zero).
Proof.
  intros Hi. rewrite fwGroup_0, <- !Nat.add_assoc.
  now rewrite !at_window by lia.
Qed.

Lemma rv_group i :
  (4 * i + 4 <= k)%nat ->
  rvGroup sequence (position + k - 1 - 4 * i) 0 =
  groupOf (nth (4 * i) rcw zero) (nth (4 * i + 1) rcw zero)
    (nth (4 * i + 2) rcw zero) (nth (4 * i + 3) rcw zero).
Proof.
  intros Hi. rewrite rvGroup_0, !rc_nth by lia.
  replace (position + k - 1 - 4 * i)%nat
    with (position + (k - 1 - 4 * i))%nat by lia.
  replace (position + (k - 1 - 4 * i) - 1)%nat
    with (position + (k - 1 - (4 * i + 1)))%nat by lia.
  replace (position + (k - 1 - 4 * i) - 2)%nat
    with (position + (k - 1 - (4 * i + 2)))%nat by lia.
  replace (position + (k - 1 - 4 * i) - 3)%nat
    with (position + (k - 1 - (4 * i + 3)))%nat by lia.
  now rewrite !at_window by lia.
Qed.



(** *** Every character of the window is a base *)

Section Valid.

Hypothesis Hvalid : forall j, (j < k)%nat -> isBase (nth j win zero) = true.

Lemma rc_valid j : (j < k)%nat -> isBase (nth j rcw zero) = true.
Proof.
  intros Hj. rewrite rc_nth, isBase_complement by lia. apply Hvalid. lia.
Qed.

Lemma fw_byte i :
  (4 * i + 4 <= k)%nat ->
  fwGroup sequence (position + 4 * i) 0 = Some (byteAt win i).
Proof.
  intros Hi. rewrite fw_group by lia.
  apply groupOf_codes; apply Hvalid; lia.
Qed.

Lemma rv_byte i :
  (4 * i + 4 <= k)%nat ->
  rvGroup sequence (position + k - 1 - 4 * i) 0 = Some (byteAt rcw i).
Proof.
  intros Hi. rewrite rv_group by lia.
  apply groupOf_codes; apply rc_valid; lia.
Qed.

Lemma fw_nth_error i :
  (4 * i < k)%nat -> nth_error (pack win) i = Some (byteAt win i).
Proof. intros Hi. apply pack_nth_error. rewrite window_length. lia. Qed.

Lemma rv_nth_error i :
  (4 * i < k)%nat -> nth_error (pack rcw) i = Some (byteAt rcw i).
Proof. intros Hi. apply pack_nth_error. rewrite rc_length. lia. Qed.

Lemma fw_pack_length : length (pack win) = ((k + 3) / 4)%nat.
Proof. now rewrite pack_length, window_length. Qed.

Lemma rv_pack_length : length (pack rcw) = ((k + 3) / 4)%nat.
Proof. now rewrite pack_length, rc_length. Qed.

Lemma fwLast_valid :
  fwLast rpk sequence position (k / 4) (position + 4 * (k / 4))
    (firstn (k / 4) (pack win) ++ repeat 0 ((k + 3) / 4 - k / 4)) =
  Ret_m_fw (pack win).
Proof.
  unfold fwLast. cbn [m_hangingBasesExist m_kmerSize].
  destruct (Nat.eqb_spec (k mod 4) 0) as [H0|H0]; cbn [Nat.eqb].
  - replace ((k + 3) / 4 - k / 4)%nat with 0%nat by lia.
    cbn [repeat]. rewrite app_nil_r, firstn_all2
      by (rewrite fw_pack_length; lia).
    reflexivity.
  - assert (Hlen : length (firstn (k / 4) (pack win)) = (k / 4)%nat)
      by (rewrite length_firstn, fw_pack_length; lia).
    rewrite length_app, repeat_length, Hlen.
    destruct (Nat.ltb_spec (k / 4) (k / 4 + ((k + 3) / 4 - k / 4))); [|lia].
    rewrite store_done_zeros_at by lia.
    replace ((k + 3) / 4 - k / 4 - 1)%nat with 0%nat by lia.
    cbn [repeat]. rewrite app_nil_r.
    pose proof (fw_nth_error (k / 4) ltac:(lia)) as Hn.
    assert (Hfull : pack win =
                    firstn (k / 4) (pack win) ++ [byteAt win (k / 4)]).
    { rewrite <- (firstn_snoc _ _ _ Hn). symmetry. apply firstn_all2.
      rewrite fw_pack_length. lia. }
    set (done := firstn (k / 4) (pack win)) in *. rewrite Hfull.
    unfold byteAt. change (codeOf zero) with 0.
    assert (HP : (k mod 4 = 1 \/ k mod 4 = 2 \/ k mod 4 = 3)%nat) by lia.
    destruct HP as [HP | [HP | HP]].
    + replace (position + k - 1 - 1 + 1 - (position + 4 * (k / 4)))%nat
        with 0%nat by lia.
      cbn [fwLast_loop].
      replace (position + k - 1)%nat with (position + 4 * (k / 4))%nat by lia.
      rewrite at_window, fw0_entry by lia.
      rewrite !(nth_overflow win (n := (4 * (k / 4) + _)%nat))
        by (rewrite window_length; lia).
      destruct (last_byte_1 (nth (4 * (k / 4)) win zero)
                  ltac:(apply Hvalid; lia)) as [-> ->].
      reflexivity.
    + replace (position + k - 1 - 1 + 1 - (position + 4 * (k / 4)))%nat
        with 1%nat by lia.
      cbn [fwLast_loop].
      replace (position + k - 1)%nat
        with (position + (4 * (k / 4) + 1))%nat by lia.
      replace (position + (4 * (k / 4) + 1) - 1)%nat
        with (position + 4 * (k / 4))%nat by lia.
      rewrite !at_window, !fw0_entry by lia.
      rewrite !(nth_overflow win (n := (4 * (k / 4) + 2)%nat)),
        !(nth_overflow win (n := (4 * (k / 4) + 3)%nat))
        by (rewrite window_length; lia).
      destruct (last_byte_2 (nth (4 * (k / 4)) win zero)
                  (nth (4 * (k / 4) + 1) win zero)
                  ltac:(apply Hvalid; lia) ltac:(apply Hvalid; lia))
        as [-> ->].
      reflexivity.
    + replace (position + k - 1 - 1 + 1 - (position + 4 * (k / 4)))%nat
        with 2%nat by lia.
      cbn [fwLast_loop].
      replace (position + k - 1)%nat
        with (position + (4 * (k / 4) + 2))%nat by lia.
      replace (position + (4 * (k / 4) + 2) - 1)%nat
        with (position + (4 * (k / 4) + 1))%nat by lia.
      replace (position + (4 * (k / 4) + 1) - 1)%nat
        with (position + 4 * (k / 4))%nat by lia.
      rewrite !at_window, !fw0_entry by lia.
      rewrite !(nth_overflow win (n := (4 * (k / 4) + 3)%nat))
        by (rewrite window_length; lia).
      destruct (last_byte_3 (nth (4 * (k / 4)) win zero)
                  (nth (4 * (k / 4) + 1) win zero)
                  (nth (4 * (k / 4) + 2) win zero)
                  ltac:(apply Hvalid; lia) ltac:(apply Hvalid; lia)
                  ltac:(apply Hvalid; lia))
        as [-> ->].
      reflexivity.
Qed.


Lemma at_window_0 : at_ sequence position = nth 0 win zero.
Proof. rewrite <- (Nat.add_0_r position) at 1. apply at_window. lia. Qed.

Lemma cvalid j : (j < k)%nat -> isBase (complement (nth j win zero)) = true.
Proof. intros Hj. rewrite isBase_complement. now apply Hvalid. Qed.

Lemma rvLast_valid :
  rvLast rpk sequence position (k / 4) (position + k - 1 - 4 * (k / 4))
    (firstn (k / 4) (pack rcw) ++ repeat 0 ((k + 3) / 4 - k / 4)) =
  Ret_m_rv (pack rcw).
Proof.
  unfold rvLast. cbn [m_hangingBasesExist m_kmerSize].
  destruct (Nat.eqb_spec (k mod 4) 0) as [H0|H0]; cbn [Nat.eqb].
  - replace ((k + 3) / 4 - k / 4)%nat with 0%nat by lia.
    cbn [repeat]. rewrite app_nil_r, firstn_all2
      by (rewrite rv_pack_length; lia).
    reflexivity.
  - assert (Hlen : length (firstn (k / 4) (pack rcw)) = (k / 4)%nat)
      by (rewrite length_firstn, rv_pack_length; lia).
    rewrite length_app, repeat_length, Hlen.
    destruct (Nat.ltb_spec (k / 4) (k / 4 + ((k + 3) / 4 - k / 4))); [|lia].
    rewrite store_done_zeros_at by lia.
    replace ((k + 3) / 4 - k / 4 - 1)%nat with 0%nat by lia.
    cbn [repeat]. rewrite app_nil_r.
    pose proof (rv_nth_error (k / 4) ltac:(lia)) as Hn.
    assert (Hfull : pack rcw =
                    firstn (k / 4) (pack rcw) ++ [byteAt rcw (k / 4)]).
    { rewrite <- (firstn_snoc _ _ _ Hn). symmetry. apply firstn_all2.
      rewrite rv_pack_length. lia. }
    set (done := firstn (k / 4) (pack rcw)) in *. rewrite Hfull.
    unfold byteAt.
    assert (HP : (k mod 4 = 1 \/ k mod 4 = 2 \/ k mod 4 = 3)%nat) by lia.
    destruct HP as [HP | [HP | HP]].
    + replace (position + k - 1 - 4 * (k / 4) + 1 - S position)%nat
        with 0%nat by lia.
      cbn [rvLast_loop].
      rewrite at_window_0, rv0_entry.
      rewrite !(nth_overflow rcw (n := (4 * (k / 4) + _)%nat))
        by (rewrite rc_length; lia).
      rewrite rc_nth by lia.
      replace (k - 1 - 4 * (k / 4))%nat with 0%nat by lia.
      destruct (last_byte_1 (complement (nth 0 win zero))
                  ltac:(apply cvalid; lia)) as [-> ->].
      reflexivity.
    + replace (position + k - 1 - 4 * (k / 4) + 1 - S position)%nat
        with 1%nat by lia.
      cbn [rvLast_loop].
      replace (S position) with (position + 1)%nat by lia.
      rewrite at_window_0, at_window, !rv0_entry by lia.
      rewrite !(nth_overflow rcw (n := (4 * (k / 4) + 2)%nat)),
        !(nth_overflow rcw (n := (4 * (k / 4) + 3)%nat))
        by (rewrite rc_length; lia).
      rewrite !rc_nth by lia.
      replace (k - 1 - 4 * (k / 4))%nat with 1%nat by lia.
      replace (k - 1 - (4 * (k / 4) + 1))%nat with 0%nat by lia.
      destruct (last_byte_2 (complement (nth 1 win zero))
                  (complement (nth 0 win zero))
                  ltac:(apply cvalid; lia) ltac:(apply cvalid; lia))
        as [-> ->].
      reflexivity.
    + replace (position + k - 1 - 4 * (k / 4) + 1 - S position)%nat
        with 2%nat by lia.
      cbn [rvLast_loop].
      replace (S (S position)) with (position + 2)%nat by lia.
      replace (S position) with (position + 1)%nat by lia.
      rewrite at_window_0, !at_window, !rv0_entry by lia.
      rewrite !(nth_overflow rcw (n := (4 * (k / 4) + 3)%nat))
        by (rewrite rc_length; lia).
      rewrite !rc_nth by lia.
      replace (k - 1 - 4 * (k / 4))%nat with 2%nat by lia.
      replace (k - 1 - (4 * (k / 4) + 1))%nat with 1%nat by lia.
      replace (k - 1 - (4 * (k / 4) + 2))%nat with 0%nat by lia.
      destruct (last_byte_3 (complement (nth 2 win zero))
                  (complement (nth 1 win zero))
                  (complement (nth 0 win zero))
                  ltac:(apply cvalid; lia) ltac:(apply cvalid; lia)
                  ltac:(apply cvalid; lia))
        as [-> ->].
      reflexivity.
Qed.

Lemma fwFinish_valid : forall n j,
  (j + n = k / 4)%nat ->
  fwFinish rpk sequence position n j (position + 4 * j)
    (firstn j (pack win) ++ repeat 0 ((k + 3) / 4 - j)) =
  Ret_m_fw (pack win).
Proof.
  induction n as [|n IH]; intros j Hj.
  - replace j with (k / 4)%nat by lia. apply fwLast_valid.
  - assert (Hlen : length (firstn j (pack win)) = j)
      by (rewrite length_firstn, fw_pack_length; lia).
    cbn [fwFinish].
    rewrite nth_error_done_zeros_at by lia.
    rewrite fw_byte by lia.
    rewrite store_done_zeros_at by lia.
    rewrite <- (firstn_snoc _ _ _ (fw_nth_error j ltac:(lia))).
    replace ((k + 3) / 4 - j - 1)%nat with ((k + 3) / 4 - S j)%nat by lia.
    replace (position + 4 * j + 4)%nat with (position + 4 * S j)%nat by lia.
    apply IH. lia.
Qed.

Lemma rvFinish_valid : forall n j,
  (j + n = k / 4)%nat ->
  rvFinish rpk sequence position n j (position + k - 1 - 4 * j)
    (firstn j (pack rcw) ++ repeat 0 ((k + 3) / 4 - j)) =
  Ret_m_rv (pack rcw).
Proof.
  induction n as [|n IH]; intros j Hj.
  - replace j with (k / 4)%nat by lia. apply rvLast_valid.
  - assert (Hlen : length (firstn j (pack rcw)) = j)
      by (rewrite length_firstn, rv_pack_length; lia).
    cbn [rvFinish].
    rewrite nth_error_done_zeros_at by lia.
    rewrite rv_byte by lia.
    rewrite store_done_zeros_at by lia.
    rewrite <- (firstn_snoc _ _ _ (rv_nth_error j ltac:(lia))).
    replace ((k + 3) / 4 - j - 1)%nat with ((k + 3) / 4 - S j)%nat by lia.
    replace (position + k - 1 - 4 * j - 4)%nat
      with (position + k - 1 - 4 * S j)%nat by lia.
    apply IH. lia.
Qed.

(** The main loop on a window of bases: the first differing byte among the
    compared ones decides, and the winner is packed in full; when all
    compared bytes tie, the code after the loop takes over. *)
Lemma mainLoop_valid : forall n i,
  (i + n = (k + 7) / 8)%nat ->
  mainLoop rpk sequence position n i (position + 4 * i)
    (position + k - 1 - 4 * i)
    (firstn i (pack win) ++ repeat 0 ((k + 3) / 4 - i))
    (firstn i (pack rcw) ++ repeat 0 ((k + 3) / 4 - i)) =
  match lexCompare (firstn n (skipn i (pack win)))
          (firstn n (skipn i (pack rcw))) with
  | Lt => Ret_m_fw (pack win)
  | Gt => Ret_m_rv (pack rcw)
  | Eq =>
      tieFinish rpk sequence position
        ((k + 3) / 4 - (if (k mod 4 =? 0)%nat then 0 else 1)
         - S ((k + 7) / 8))
        (S ((k + 7) / 8)) (position + 4 * ((k + 7) / 8))
        (firstn ((k + 7) / 8) (pack win)
         ++ repeat 0 ((k + 3) / 4 - (k + 7) / 8))
  end.
Proof.
  induction n as [|n IH]; intros i Hi.
  - replace i with ((k + 7) / 8)%nat by lia. reflexivity.
  - assert (Hlf : length (firstn i (pack win)) = i)
      by (rewrite length_firstn, fw_pack_length; lia).
    assert (Hlr : length (firstn i (pack rcw)) = i)
      by (rewrite length_firstn, rv_pack_length; lia).
    pose proof (fw_nth_error i ltac:(lia)) as Hf.
    pose proof (rv_nth_error i ltac:(lia)) as Hr.
    rewrite (lexCompare_cons_skipn _ _ _ _ _ _ Hf Hr).
    cbn [mainLoop].
    rewrite !nth_error_done_zeros_at by lia.
    rewrite fw_byte, rv_byte by lia.
    rewrite !store_done_zeros_at by lia.
    rewrite <- (firstn_snoc _ _ _ Hf), <- (firstn_snoc _ _ _ Hr).
    replace ((k + 3) / 4 - i - 1)%nat with ((k + 3) / 4 - S i)%nat by lia.
    replace (position + 4 * i + 4)%nat with (position + 4 * S i)%nat by lia.
    replace (position + k - 1 - 4 * i - 4)%nat
      with (position + k - 1 - 4 * S i)%nat by lia.
    cbn [m_kmerSizeInBytes m_hangingBasesExist].
    rewrite Z.gtb_ltb.
    destruct (Z.compare_spec (byteAt win i) (byteAt rcw i)) as [E|E|E].
    + rewrite E, Z.ltb_irrefl. apply IH. lia.
    + destruct (Z.ltb_spec (byteAt win i) (byteAt rcw i)); [|lia].
      replace ((k + 3) / 4 - (if (k mod 4 =? 0)%nat then 0 else 1) - S i)%nat
        with (k / 4 - S i)%nat
        by (destruct (Nat.eqb_spec (k mod 4) 0); lia).
      apply fwFinish_valid. lia.
    + destruct (Z.ltb_spec (byteAt win i) (byteAt rcw i)); [lia|].
      destruct (Z.ltb_spec (byteAt rcw i) (byteAt win i)); [|lia].
      replace ((k + 3) / 4 - (if (k mod 4 =? 0)%nat then 0 else 1) - S i)%nat
        with (k / 4 - S i)%nat
        by (destruct (Nat.eqb_spec (k mod 4) 0); lia).
      apply rvFinish_valid. lia.
Qed.

(** [prepSeq] on a window of bases. *)
Lemma prepSeq_valid :
  prepSeq rpk sequence position =
  match lexCompare (firstn ((k + 7) / 8) (pack win))
          (firstn ((k + 7) / 8) (pack rcw)) with
  | Lt => Ret_m_fw (pack win)
  | Gt => Ret_m_rv (pack rcw)
  | Eq =>
      tieFinish rpk sequence position
        ((k + 3) / 4 - (if (k mod 4 =? 0)%nat then 0 else 1)
         - S ((k + 7) / 8))
        (S ((k + 7) / 8)) (position + 4 * ((k + 7) / 8))
        (firstn ((k + 7) / 8) (pack win)
         ++ repeat 0 ((k + 3) / 4 - (k + 7) / 8))
  end.
Proof.
  pose proof (mainLoop_valid ((k + 7) / 8) 0 ltac:(lia)) as H.
  cbn [firstn skipn app] in H. rewrite Nat.mul_0_r, Nat.add_0_r, !Nat.sub_0_r in H.
  unfold prepSeq. cbn [m_kmerSize m_kmerSizeInBytes m_halfSizeOfKmerInBytes].
  rewrite Nat.sub_0_r. exact H.
Qed.


(** A tie over the compared bytes makes the window its own reverse
    complement, code for code. *)
Lemma tie_palindrome :
  lexCompare (firstn ((k + 7) / 8) (pack win))
    (firstn ((k + 7) / 8) (pack rcw)) = Eq ->
  pack win = pack rcw.
Proof.
  intros E. apply lexCompare_eq in E.
  assert (Hb : forall i, (i < (k + 7) / 8)%nat -> byteAt win i = byteAt rcw i).
  { intros i Hi.
    assert (Hn : nth_error (firstn ((k + 7) / 8) (pack win)) i =
                 nth_error (firstn ((k + 7) / 8) (pack rcw)) i)
      by now rewrite E.
    rewrite !nth_error_firstn in Hn.
    destruct (Nat.ltb_spec i ((k + 7) / 8)); [|lia].
    rewrite fw_nth_error, rv_nth_error in Hn by lia. congruence. }
  assert (Hc : forall j, (j < 4 * ((k + 7) / 8))%nat ->
                 codeOf (nth j win zero) = codeOf (nth j rcw zero)).
  { intros j Hj.
    replace j with (4 * (j / 4) + j mod 4)%nat by lia.
    rewrite <- !byteAt_extract by lia. rewrite Hb by lia. reflexivity. }
  apply pack_ext.
  - now rewrite window_length, rc_length.
  - rewrite window_length. intros j Hj.
    destruct (Nat.lt_ge_cases j (4 * ((k + 7) / 8))) as [Hlt|Hge].
    + now apply Hc.
    + pose proof (Hc (k - 1 - j)%nat ltac:(lia)) as Hm.
      rewrite (rc_nth (k - 1 - j)), codeOf_complement in Hm
        by (try apply Hvalid; lia).
      replace (k - 1 - (k - 1 - j))%nat with j in Hm by lia.
      rewrite rc_nth, codeOf_complement by (try apply Hvalid; lia).
      lia.
Qed.

(** The canonical strand: when the two packings differ, [prepSeq] returns
    the smaller one, from the buffer of its strand. *)
Lemma prepSeq_canonical :
  pack win <> pack rcw ->
  prepSeq rpk sequence position = Ret_m_fw (pack win) /\
    lexCompare (pack win) (pack rcw) = Lt \/
  prepSeq rpk sequence position = Ret_m_rv (pack rcw) /\
    lexCompare (pack win) (pack rcw) = Gt.
Proof.
  intros Hne. rewrite prepSeq_valid.
  pose proof (lexCompare_prefix ((k + 7) / 8) (pack win) (pack rcw)) as Hp.
  destruct (lexCompare (firstn ((k + 7) / 8) (pack win))
              (firstn ((k + 7) / 8) (pack rcw))) eqn:E.
  - destruct Hne. now apply tie_palindrome.
  - left. split; [reflexivity|]. apply Hp. discriminate.
  - right. split; [reflexivity|]. apply Hp. discriminate.
Qed.

(** *** The code after the main loop, on a window of bases *)

Lemma entry6_low c : isBase c = true -> Z.land (entry 6 c) 3 = 0.
Proof. intros H. unfold entry. base_cases H; reflexivity. Qed.

Lemma shifted_low b : Z.land (Z.land (Z.shiftl b 2) 0xFF) 3 = 0.
Proof.
  rewrite <- Z.land_assoc. change (Z.land 0xFF 3) with (Z.ones 2).
  rewrite Z.land_ones, Z.shiftl_mul_pow2 by lia.
  apply Z.mod_mul. lia.
Qed.

Lemma low_clear_not_FF b : Z.land b 3 = 0 -> (b =? 0xFF) = false.
Proof.
  intros H. destruct (Z.eqb_spec b 0xFF) as [->|]; [discriminate H|reflexivity].
Qed.

Lemma tieLast_loop_low : forall n x b,
  (n <= x + 1)%nat -> (x < k)%nat ->
  (0 < n)%nat \/ Z.land b 3 = 0 ->
  Z.land (tieLast_loop sequence n (position + x) b) 3 = 0.
Proof.
  induction n as [|n IH]; intros x b Hn Hx Hb.
  - cbn. destruct Hb; [lia | assumption].
  - cbn [tieLast_loop].
    assert (Hlow : Z.land (Z.lor (Z.land (Z.shiftl b 2) 0xFF)
                             (lookup Tables.fw0 (at_ sequence (position + x))))
                     3 = 0).
    { rewrite Z.land_lor_distr_l, shifted_low, fw0_entry, at_window by lia.
      rewrite entry6_low by (apply Hvalid; lia). reflexivity. }
    destruct n as [|n]; [exact Hlow|].
    replace (position + x - 1)%nat with (position + (x - 1))%nat by lia.
    apply IH; lia.
Qed.

Lemma tieLast_valid oi x (done : list Z) :
  length done = oi -> (x < k)%nat ->
  let r := tieLast rpk sequence position oi (position + x)
             (done ++ repeat 0 ((k + 3) / 4 - oi)) in
  (k mod 4 = 0)%nat /\ r = Ret_m_fw (done ++ repeat 0 ((k + 3) / 4 - oi)) \/
  (k mod 4 <> 0)%nat /\ (oi < (k + 3) / 4)%nat /\
    (exists v, r = Ret_m_fw ((done ++ [v])
                             ++ repeat 0 ((k + 3) / 4 - oi - 1))) \/
  (k mod 4 <> 0)%nat /\ ((k + 3) / 4 <= oi)%nat /\ r = OutOfBounds.
Proof.
  intros Hlen Hx. cbv zeta. unfold tieLast. cbn [m_hangingBases m_kmerSize].
  destruct (Nat.eqb_spec (k mod 4) 0) as [H0|H0]; [left; auto|right].
  destruct (Nat.lt_ge_cases oi ((k + 3) / 4)) as [Hin|Hout].
  - left. split; [exact H0|]. split; [exact Hin|].
    rewrite nth_error_done_zeros_at by lia.
    rewrite low_clear_not_FF.
    + rewrite store_done_zeros_at by lia. eexists. reflexivity.
    + replace (position + k - 1)%nat with (position + (k - 1))%nat by lia.
      replace (position + (k - 1) - (position + x))%nat
        with (k - 1 - x)%nat by lia.
      apply tieLast_loop_low; try lia.
      right. cbn [Z.lor].
      rewrite fw0_entry, at_window by lia. apply entry6_low, Hvalid. lia.
  - right. split; [exact H0|]. split; [exact Hout|].
    replace ((k + 3) / 4 - oi)%nat with 0%nat by lia.
    cbn [repeat]. rewrite app_nil_r.
    destruct (nth_error done oi) eqn:E; [|reflexivity].
    assert (oi < length done)%nat by (apply nth_error_Some; congruence). lia.
Qed.

Lemma tieFinish_valid : forall n oi x (done : list Z),
  length done = oi ->
  n = 0%nat \/
    (oi + n = (k + 3) / 4 - (if (k mod 4 =? 0)%nat then 0 else 1))%nat /\
    (x + 3 * n < k)%nat ->
  exists done',
    length done' = (oi + n)%nat /\ firstn oi done' = done /\
    tieFinish rpk sequence position n oi (position + x)
      (done ++ repeat 0 ((k + 3) / 4 - oi)) =
    tieLast rpk sequence position (oi + n) (position + (x + 3 * n))
      (done' ++ repeat 0 ((k + 3) / 4 - (oi + n))).
Proof.
  induction n as [|n IH]; intros oi x done Hlen Hn.
  - exists done. rewrite !Nat.add_0_r, <- Hlen, firstn_all. cbn. auto.
  - destruct Hn as [Hn|[Hoi Hx]]; [discriminate|].
    assert (Hlt : (oi < (k + 3) / 4)%nat)
      by (destruct (Nat.eqb_spec (k mod 4) 0); lia).
    cbn [tieFinish].
    rewrite nth_error_done_zeros_at by lia.
    rewrite fwGroup_0, <- !Nat.add_assoc, !at_window by lia.
    rewrite groupOf_codes by (apply Hvalid; lia).
    rewrite store_done_zeros_at by lia.
    replace ((k + 3) / 4 - oi - 1)%nat with ((k + 3) / 4 - S oi)%nat by lia.
    destruct (IH (S oi) (x + 3)%nat
                (done ++ [byte4 (codeOf (nth x win zero))
                            (codeOf (nth (x + 1) win zero))
                            (codeOf (nth (x + 2) win zero))
                            (codeOf (nth (x + 3) win zero))]))
      as (done' & Hl' & Hf' & Ht').
    + rewrite length_app, Hlen. cbn. lia.
    + destruct n; [left; reflexivity | right; lia].
    + exists done'. split; [lia|]. split.
      * replace (firstn oi done') with (firstn oi (firstn (S oi) done'))
          by (rewrite firstn_firstn; f_equal; lia).
        rewrite Hf'.
        rewrite firstn_app, firstn_all2 by lia.
        replace (oi - length done)%nat with 0%nat by lia.
        cbn. apply app_nil_r.
      * replace (position + x + 3)%nat with (position + (x + 3))%nat by lia.
        rewrite Ht'. f_equal; try lia. f_equal. f_equal. lia.
Qed.

Lemma tie_even : pack win = pack rcw -> (k mod 2 = 0)%nat.
Proof.
  intros E.
  destruct (Nat.eq_dec (k mod 2) 0) as [H0|H1]; [exact H0|].
  assert (Hl : length win = length rcw)
    by now rewrite window_length, rc_length.
  pose proof (pack_codes _ _ Hl E ((k - 1) / 2)) as Hc.
  rewrite window_length in Hc. specialize (Hc ltac:(lia)).
  rewrite rc_nth, codeOf_complement in Hc by (try apply Hvalid; lia).
  replace (k - 1 - (k - 1) / 2)%nat with ((k - 1) / 2)%nat in Hc by lia.
  lia.
Qed.

(** A window of bases that is its own reverse complement: [prepSeq] returns
    the forward buffer, whose compared prefix is that of the packing; the
    bytes after the prefix are whatever the code after the loop left there.
    For the window sizes 6 and 10 that code writes past the buffer. *)
Lemma prepSeq_tie :
  pack win = pack rcw ->
  (k = 6 \/ k = 10)%nat /\ prepSeq rpk sequence position = OutOfBounds \/
  (k <> 6 /\ k <> 10)%nat /\
    exists m_fw,
      prepSeq rpk sequence position = Ret_m_fw m_fw /\
      length m_fw = ((k + 3) / 4)%nat /\
      firstn ((k + 7) / 8) m_fw = firstn ((k + 7) / 8) (pack win).
Proof.
  intros E. pose proof (tie_even E) as Heven.
  rewrite prepSeq_valid, <- E, lexCompare_refl.
  assert (HlF : length (firstn ((k + 7) / 8) (pack win)) = ((k + 7) / 8)%nat)
    by (rewrite length_firstn, fw_pack_length; lia).
  destruct (Nat.eq_dec k 4) as [->|Hk4].
  { right. split; [lia|]. eexists. split; [reflexivity|].
    cbn [Nat.div Nat.divmod fst Nat.add Nat.sub repeat] in *.
    rewrite app_nil_r. split; [exact HlF | apply firstn_firstn]. }
  set (n := ((k + 3) / 4 - (if (k mod 4 =? 0)%nat then 0 else 1)
             - S ((k + 7) / 8))%nat).
  replace ((k + 3) / 4 - (k + 7) / 8)%nat
    with (S ((k + 3) / 4 - S ((k + 7) / 8)))%nat by lia.
  cbn [repeat].
  change (firstn ((k + 7) / 8) (pack win)
          ++ 0 :: repeat 0 ((k + 3) / 4 - S ((k + 7) / 8)))
    with (firstn ((k + 7) / 8) (pack win)
          ++ [0] ++ repeat 0 ((k + 3) / 4 - S ((k + 7) / 8))).
  rewrite app_assoc.
  destruct (tieFinish_valid n (S ((k + 7) / 8)) (4 * ((k + 7) / 8))
              (firstn ((k + 7) / 8) (pack win) ++ [0]))
    as (done' & Hl' & Hf' & ->).
  { rewrite length_app, HlF. cbn. lia. }
  { subst n. destruct (Nat.eqb_spec (k mod 4) 0); lia. }
  assert (Hpre : firstn ((k + 7) / 8) done' = firstn ((k + 7) / 8) (pack win)).
  { replace (firstn ((k + 7) / 8) done')
      with (firstn ((k + 7) / 8) (firstn (S ((k + 7) / 8)) done'))
      by (rewrite firstn_firstn; f_equal; lia).
    rewrite Hf', firstn_app_le by lia.
    rewrite firstn_firstn. f_equal. lia. }
  assert (Hx : (4 * ((k + 7) / 8) + 3 * n < k)%nat)
    by (subst n; destruct (Nat.eqb_spec (k mod 4) 0); lia).
  destruct (tieLast_valid (S ((k + 7) / 8) + n)
              (4 * ((k + 7) / 8) + 3 * n) done' Hl' Hx)
    as [[H0 ->] | [(H0 & Hin & v & ->) | (H0 & Hout & ->)]].
  - right. split; [lia|]. eexists. split; [reflexivity|]. split.
    + rewrite length_app, repeat_length, Hl'.
      subst n. destruct (Nat.eqb_spec (k mod 4) 0); lia.
    + rewrite firstn_app_le by lia. exact Hpre.
  - right. split; [subst n; destruct (Nat.eqb_spec (k mod 4) 0); lia|].
    eexists. split; [reflexivity|]. split.
    + rewrite !length_app, repeat_length, Hl'. cbn [length]. lia.
    + rewrite <- app_assoc, firstn_app_le by lia. exact Hpre.
  - left. split; [|reflexivity].
    subst n. destruct (Nat.eqb_spec (k mod 4) 0); lia.
Qed.

End Valid.

(** *** Some character of the window is no base *)

Section Invalid.

Variable j0 : nat.
Hypothesis Hj0 : (j0 < k)%nat.
Hypothesis Hbad : isBase (nth j0 win zero) = false.

Lemma not_all_valid :
  ~ (forall x, (x < k)%nat -> isBase (nth x win zero) = true).
Proof. intros H. rewrite (H j0 Hj0) in Hbad. discriminate. Qed.

Lemma groupOf_Some c0 c1 c2 c3 b :
  groupOf c0 c1 c2 c3 = Some b ->
  isBase c0 = true /\ isBase c1 = true /\ isBase c2 = true /\
  isBase c3 = true.
Proof.
  intros E. pose proof (groupOf_isBase c0 c1 c2 c3) as H. rewrite E in H.
  symmetry in H. rewrite !andb_true_iff in H. tauto.
Qed.

Lemma fwFinish_invalid : forall n j done,
  (j + n = k / 4)%nat -> length done = j ->
  (forall x, (x < 4 * j)%nat -> isBase (nth x win zero) = true) ->
  (forall x, (4 * (k / 4) <= x < k)%nat -> isBase (nth x win zero) = true) ->
  fwFinish rpk sequence position n j (position + 4 * j)
    (done ++ repeat 0 ((k + 3) / 4 - j)) = NULL.
Proof.
  induction n as [|n IH]; intros j done Hj Hlen Hlo Hhi.
  - destruct not_all_valid. intros x Hx.
    destruct (Nat.lt_ge_cases x (4 * j)); [apply Hlo | apply Hhi]; lia.
  - cbn [fwFinish].
    rewrite nth_error_done_zeros_at by lia.
    rewrite fw_group by lia.
    destruct (groupOf _ _ _ _) as [b|] eqn:G; [|reflexivity].
    apply groupOf_Some in G. destruct G as (G0 & G1 & G2 & G3).
    rewrite store_done_zeros_at by lia.
    replace ((k + 3) / 4 - j - 1)%nat with ((k + 3) / 4 - S j)%nat by lia.
    replace (position + 4 * j + 4)%nat with (position + 4 * S j)%nat by lia.
    apply IH; try lia.
    + rewrite length_app, Hlen. cbn. lia.
    + intros x Hx.
      assert (Hc : (x < 4 * j \/ x = 4 * j \/ x = 4 * j + 1 \/
                    x = 4 * j + 2 \/ x = 4 * j + 3)%nat) by lia.
      destruct Hc as [Hc | [-> | [-> | [-> | ->]]]]; auto.
    + exact Hhi.
Qed.

Lemma rc_isBase x :
  (x < k)%nat -> isBase (nth x rcw zero) = isBase (nth (k - 1 - x) win zero).
Proof. intros Hx. now rewrite rc_nth, isBase_complement by lia. Qed.

Lemma rvFinish_invalid : forall n j done,
  (j + n = k / 4)%nat -> length done = j ->
  (forall x, (k - 4 * j <= x < k)%nat -> isBase (nth x win zero) = true) ->
  (forall x, (x < k - 4 * (k / 4))%nat -> isBase (nth x win zero) = true) ->
  rvFinish rpk sequence position n j (position + k - 1 - 4 * j)
    (done ++ repeat 0 ((k + 3) / 4 - j)) = NULL.
Proof.
  induction n as [|n IH]; intros j done Hj Hlen Hhi Hlo.
  - destruct not_all_valid. intros x Hx.
    destruct (Nat.lt_ge_cases x (k - 4 * j)); [apply Hlo | apply Hhi]; lia.
  - cbn [rvFinish].
    rewrite nth_error_done_zeros_at by lia.
    rewrite rv_group by lia.
    destruct (groupOf _ _ _ _) as [b|] eqn:G; [|reflexivity].
    apply groupOf_Some in G. rewrite !rc_isBase in G by lia.
    destruct G as (G0 & G1 & G2 & G3).
    rewrite store_done_zeros_at by lia.
    replace ((k + 3) / 4 - j - 1)%nat with ((k + 3) / 4 - S j)%nat by lia.
    replace (position + k - 1 - 4 * j - 4)%nat
      with (position + k - 1 - 4 * S j)%nat by lia.
    apply IH; try lia.
    + rewrite length_app, Hlen. cbn. lia.
    + intros x Hx.
      assert (Hc : (k - 4 * j <= x \/ x = k - 1 - 4 * j \/
                    x = k - 1 - (4 * j + 1) \/ x = k - 1 - (4 * j + 2) \/
                    x = k - 1 - (4 * j + 3))%nat) by lia.
      destruct Hc as [Hc | [-> | [-> | [-> | ->]]]]; auto.
      apply Hhi. lia.
    + exact Hlo.
Qed.

Lemma mainLoop_invalid : forall n i dfw drv,
  (i + n = (k + 7) / 8)%nat -> length dfw = i -> length drv = i ->
  (forall x, (x < 4 * i)%nat -> isBase (nth x win zero) = true) ->
  (forall x, (k - 4 * i <= x < k)%nat -> isBase (nth x win zero) = true) ->
  mainLoop rpk sequence position n i (position + 4 * i)
    (position + k - 1 - 4 * i)
    (dfw ++ repeat 0 ((k + 3) / 4 - i))
    (drv ++ repeat 0 ((k + 3) / 4 - i)) = NULL.
Proof.
  induction n as [|n IH]; intros i dfw drv Hi Hlf Hlr Hlo Hhi.
  - destruct not_all_valid. intros x Hx.
    destruct (Nat.lt_ge_cases x (4 * i)); [apply Hlo | apply Hhi]; lia.
  - cbn [mainLoop].
    rewrite !nth_error_done_zeros_at by lia.
    rewrite fw_group by lia.
    destruct (groupOf _ _ _ _) as [f|] eqn:F; [|reflexivity].
    apply groupOf_Some in F. destruct F as (F0 & F1 & F2 & F3).
    rewrite rv_group by lia.
    destruct (groupOf _ _ _ _) as [r|] eqn:R; [|reflexivity].
    apply groupOf_Some in R. rewrite !rc_isBase in R by lia.
    destruct R as (R0 & R1 & R2 & R3).
    rewrite !store_done_zeros_at by lia.
    replace ((k + 3) / 4 - i - 1)%nat with ((k + 3) / 4 - S i)%nat by lia.
    replace (position + 4 * i + 4)%nat with (position + 4 * S i)%nat by lia.
    replace (position + k - 1 - 4 * i - 4)%nat
      with (position + k - 1 - 4 * S i)%nat by lia.
    cbn [m_kmerSizeInBytes m_hangingBasesExist].
    replace ((k + 3) / 4 - (if (k mod 4 =? 0)%nat then 0 else 1) - S i)%nat
      with (k / 4 - S i)%nat
      by (destruct (Nat.eqb_spec (k mod 4) 0); lia).
    assert (Hlo' : forall x, (x < 4 * S i)%nat ->
                             isBase (nth x win zero) = true).
    { intros x Hx.
      assert (Hc : (x < 4 * i \/ x = 4 * i \/ x = 4 * i + 1 \/
                    x = 4 * i + 2 \/ x = 4 * i + 3)%nat) by lia.
      destruct Hc as [Hc | [-> | [-> | [-> | ->]]]]; auto. }
    assert (Hhi' : forall x, (k - 4 * S i <= x < k)%nat ->
                             isBase (nth x win zero) = true).
    { intros x Hx.
      assert (Hc : (k - 4 * i <= x \/ x = k - 1 - 4 * i \/
                    x = k - 1 - (4 * i + 1) \/ x = k - 1 - (4 * i + 2) \/
                    x = k - 1 - (4 * i + 3))%nat) by lia.
      destruct Hc as [Hc | [-> | [-> | [-> | ->]]]]; auto.
      apply Hhi. lia. }
    assert (Hla : forall (d : list Z) (v : Z),
                    length d = i -> length (d ++ [v]) = S i)
      by (intros d v Hd; rewrite length_app, Hd; cbn; lia).
    destruct (f <? r).
    + apply fwFinish_invalid; auto; try lia.
      intros x Hx. apply Hhi'. lia.
    + destruct (f >? r).
      * apply rvFinish_invalid; auto; try lia.
        intros x Hx. apply Hlo'. lia.
      * apply IH; auto. lia.
Qed.

Lemma prepSeq_invalid : prepSeq rpk sequence position = NULL.
Proof.
  unfold prepSeq. cbn [m_kmerSize m_kmerSizeInBytes m_halfSizeOfKmerInBytes].
  pose proof (mainLoop_invalid ((k + 7) / 8) 0 [] [] ltac:(lia)
                eq_refl eq_refl) as H.
  rewrite Nat.mul_0_r, Nat.add_0_r, !Nat.sub_0_r in H.
  rewrite Nat.sub_0_r. apply H; intros x Hx; lia.
Qed.

End Invalid.

End Window.

Lemma window_all (w : list ascii) : window w 0 (length w) = w.
Proof. unfold window. cbn [skipn]. apply firstn_all. Qed.

Lemma forallb_nth (w : list ascii) :
  forallb isBase w = true ->
  forall j, (j < length w)%nat -> isBase (nth j w zero) = true.
Proof.
  intros H j Hj. rewrite forallb_forall in H. apply H, nth_In, Hj.
Qed.

(** C8: for a window of bases whose two packings differ, [getBases] on the
    bytes [prepSeq] returns gives the canonical strand in upper case: the
    window itself when its packing is the smaller one, its reverse
    complement otherwise. *)
Theorem round_trip (k : nat) (rp : ReadsProcessor) (w : list ascii) :
  ReadsProcessor_new k = Some rp ->
  length w = k ->
  forallb isBase w = true ->
  pack w <> pack (reverseComplement w) ->
  exists bytes,
    bytesOf (prepSeq rp w 0) = Some bytes /\
    bytes = bytesMin (pack w) (pack (reverseComplement w)) /\
    (prepSeq rp w 0 = Ret_m_fw (pack w) /\
     lexCompare (pack w) (pack (reverseComplement w)) = Lt /\
     getBases rp bytes = Some (map toUpper w)
     \/
     prepSeq rp w 0 = Ret_m_rv (pack (reverseComplement w)) /\
     lexCompare (pack w) (pack (reverseComplement w)) = Gt /\
     getBases rp bytes = Some (map toUpper (reverseComplement w))).
Proof.
  intros Hnew Hl Hv Hne.
  destruct (new_fields k rp Hnew) as [Hk ->].
  pose proof (forallb_nth w Hv) as Hv'. rewrite Hl in Hv'.
  assert (Hfit : (0 + k <= length w)%nat) by lia.
  assert (Hw : window w 0 k = w) by (rewrite <- Hl; apply window_all).
  pose proof (prepSeq_canonical k w 0 Hk Hfit) as Hcan.
  rewrite Hw in Hcan. specialize (Hcan Hv' Hne).
  destruct Hcan as [[Hr Hc] | [Hr Hc]]; rewrite Hr; cbn [bytesOf];
    unfold bytesMin; rewrite Hc.
  - exists (pack w). split; [reflexivity|]. split; [reflexivity|].
    left. repeat split.
    apply getBases_pack; [exact Hl | now rewrite Hl].
  - exists (pack (reverseComplement w)).
    split; [reflexivity|]. split; [reflexivity|].
    right. repeat split.
    apply getBases_pack.
    + unfold reverseComplement. now rewrite length_rev, length_map.
    + intros j Hj.
      pose proof (rc_valid k w 0 Hk Hfit) as Hrv. rewrite Hw in Hrv.
      apply Hrv; [exact Hv'|].
      unfold reverseComplement in Hj.
      now rewrite length_rev, length_map, Hl in Hj.
Qed.

Lemma round_trip_witness :
  exists bytes,
    bytesOf (prepSeq (mkReadsProcessor 5 2 1 1 1) (str "CGTTT") 0)
      = Some bytes /\
    bytes = bytesMin (pack (str "CGTTT"))
              (pack (reverseComplement (str "CGTTT"))) /\
    (prepSeq (mkReadsProcessor 5 2 1 1 1) (str "CGTTT") 0
       = Ret_m_fw (pack (str "CGTTT")) /\
     lexCompare (pack (str "CGTTT"))
       (pack (reverseComplement (str "CGTTT"))) = Lt /\
     getBases (mkReadsProcessor 5 2 1 1 1) bytes
       = Some (map toUpper (str "CGTTT"))
     \/
     prepSeq (mkReadsProcessor 5 2 1 1 1) (str "CGTTT") 0
       = Ret_m_rv (pack (reverseComplement (str "CGTTT"))) /\
     lexCompare (pack (str "CGTTT"))
       (pack (reverseComplement (str "CGTTT"))) = Gt /\
     getBases (mkReadsProcessor 5 2 1 1 1) bytes
       = Some (map toUpper (reverseComplement (str "CGTTT")))).
Proof.
  apply (round_trip 5 (mkReadsProcessor 5 2 1 1 1) (str "CGTTT")).
  - reflexivity.
  - reflexivity.
  - reflexivity.
  - vm_compute. discriminate.
Defined.


(** C2: when some character of the window is none of A, C, G, T, a, c, g, t,
    [prepSeq] returns [NULL], and with it no packed bytes. *)
Theorem invalid_window (k : nat) (rp : ReadsProcessor)
    (sequence : list ascii) (position j : nat) :
  ReadsProcessor_new k = Some rp ->
  (position + k <= length sequence)%nat ->
  (j < k)%nat ->
  isBase (at_ sequence (position + j)) = false ->
  prepSeq rp sequence position = NULL /\
  bytesOf (prepSeq rp sequence position) = None.
Proof.
  intros Hnew Hfit Hj Hbad.
  destruct (new_fields k rp Hnew) as [Hk ->].
  rewrite (at_window k sequence position Hk Hfit j Hj) in Hbad.
  rewrite (prepSeq_invalid k sequence position Hk Hfit j Hj Hbad).
  split; reflexivity.
Qed.

Lemma invalid_window_witness :
  prepSeq (mkReadsProcessor 7 2 1 3 1) (str "GGAACGTNAC") 2 = NULL /\
  bytesOf (prepSeq (mkReadsProcessor 7 2 1 3 1) (str "GGAACGTNAC") 2) = None.
Proof.
  apply (invalid_window 7 (mkReadsProcessor 7 2 1 3 1) (str "GGAACGTNAC")
           2 5).
  - reflexivity.
  - vm_compute. lia.
  - lia.
  - reflexivity.
Defined.


(** ** The two strands of a window whose packings differ *)

Lemma lexCompare_antisym x : forall y,
  lexCompare y x = CompOpp (lexCompare x y).
Proof.
  induction x as [|a x IH]; intros [|b y]; try reflexivity.
  cbn [lexCompare]. rewrite (Z.compare_antisym a b).
  destruct (a ?= b); cbn [CompOpp]; auto.
Qed.

Lemma complement_involutive c : complement (complement c) = c.
Proof. each_ascii c. Qed.

Lemma reverseComplement_involutive w :
  reverseComplement (reverseComplement w) = w.
Proof.
  unfold reverseComplement.
  rewrite map_rev, rev_involutive, map_map.
  rewrite <- (map_id w) at 2. apply map_ext, complement_involutive.
Qed.

(** Whenever the packings of a window of bases and of its reverse complement
    differ, encoding the window in place and encoding its reverse complement
    on its own yield the same bytes, the smaller packing. *)
Lemma strand_symmetry_distinct (k : nat) (rp : ReadsProcessor)
    (sequence : list ascii) (position : nat) :
  ReadsProcessor_new k = Some rp ->
  (position + k <= length sequence)%nat ->
  forallb isBase (window sequence position k) = true ->
  pack (window sequence position k) <>
    pack (reverseComplement (window sequence position k)) ->
  bytesOf (prepSeq rp sequence position) =
    Some (bytesMin (pack (window sequence position k))
            (pack (reverseComplement (window sequence position k)))) /\
  bytesOf (prepSeq rp (reverseComplement (window sequence position k)) 0) =
    Some (bytesMin (pack (window sequence position k))
            (pack (reverseComplement (window sequence position k)))).
Proof.
  intros Hnew Hfit Hv Hne.
  destruct (new_fields k rp Hnew) as [Hk ->].
  pose proof (window_length k sequence position Hk Hfit) as Hl.
  pose proof (forallb_nth _ Hv) as Hv'. rewrite Hl in Hv'.
  pose proof (rc_length k sequence position Hk Hfit) as Hlr.
  pose proof (prepSeq_canonical k sequence position Hk Hfit Hv' Hne) as H1.
  pose proof (rc_valid k sequence position Hk Hfit Hv') as Hrv.
  set (w := window sequence position k) in *.
  set (r := reverseComplement w) in *.
  assert (Hfit' : (0 + k <= length r)%nat) by lia.
  assert (Hw : window r 0 k = r) by (rewrite <- Hlr; apply window_all).
  pose proof (prepSeq_canonical k r 0 Hk Hfit') as H2.
  assert (Hrr : reverseComplement r = w)
    by apply reverseComplement_involutive.
  rewrite Hw, Hrr in H2.
  specialize (H2 Hrv (fun E => Hne (eq_sym E))).
  rewrite (lexCompare_antisym (pack w) (pack r)) in H2.
  unfold bytesMin.
  destruct H1 as [[E1 C1] | [E1 C1]]; rewrite E1, C1;
    rewrite C1 in H2; cbn [CompOpp] in H2;
    destruct H2 as [[E2 C2] | [E2 C2]]; try discriminate;
    rewrite E2; split; reflexivity.
Qed.


(** ** Two windows with the same codes *)

Section SameCodes.

Variables (k : nat) (s1 s2 : list ascii) (p1 p2 : nat).
Hypothesis Hcodes : forall j, (j < k)%nat ->
  baseCode (at_ s1 (p1 + j)) = baseCode (at_ s2 (p2 + j)).

Lemma fw0_same j :
  (j < k)%nat ->
  lookup Tables.fw0 (at_ s1 (p1 + j)) = lookup Tables.fw0 (at_ s2 (p2 + j)).
Proof. intros Hj. rewrite !fw0_entry. unfold entry. now rewrite Hcodes. Qed.

Lemma fwGroup_same x b :
  (x + 3 < k)%nat -> fwGroup s1 (p1 + x) b = fwGroup s2 (p2 + x) b.
Proof.
  intros Hx. unfold fwGroup.
  rewrite !fw0_entry, !fw1_entry, !fw2_entry, !fw3_entry. unfold entry.
  rewrite <- !Nat.add_assoc.
  rewrite (Hcodes x), (Hcodes (x + 1)), (Hcodes (x + 2)), (Hcodes (x + 3))
    by lia.
  reflexivity.
Qed.

Lemma tieLast_loop_same : forall n x b,
  (n <= x + 1)%nat -> (x < k)%nat ->
  tieLast_loop s1 n (p1 + x) b = tieLast_loop s2 n (p2 + x) b.
Proof.
  induction n as [|n IH]; intros x b Hn Hx; [reflexivity|].
  cbn [tieLast_loop]. rewrite fw0_same by lia.
  destruct n as [|n]; [reflexivity|].
  replace (p1 + x - 1)%nat with (p1 + (x - 1))%nat by lia.
  replace (p2 + x - 1)%nat with (p2 + (x - 1))%nat by lia.
  apply IH; lia.
Qed.

Variable rp : ReadsProcessor.
Hypothesis Hsize : m_kmerSize rp = k.
Hypothesis Hpos : (0 < k)%nat.

Lemma tieLast_same oi x m_fw :
  tieLast rp s1 p1 oi (p1 + x) m_fw = tieLast rp s2 p2 oi (p2 + x) m_fw.
Proof.
  unfold tieLast. rewrite Hsize.
  destruct (m_hangingBases rp =? 0)%nat; [reflexivity|].
  destruct (nth_error m_fw oi) as [b|]; [|reflexivity].
  replace (p1 + k - 1)%nat with (p1 + (k - 1))%nat by lia.
  replace (p2 + k - 1)%nat with (p2 + (k - 1))%nat by lia.
  rewrite fw0_same by lia.
  replace (p1 + (k - 1) - (p1 + x))%nat with (k - 1 - x)%nat by lia.
  replace (p2 + (k - 1) - (p2 + x))%nat with (k - 1 - x)%nat by lia.
  rewrite (tieLast_loop_same (k - 1 - x) (k - 1)) by lia.
  reflexivity.
Qed.

Lemma tieFinish_same : forall n oi x m_fw,
  n = 0%nat \/ (x + 3 * n < k)%nat ->
  tieFinish rp s1 p1 n oi (p1 + x) m_fw =
  tieFinish rp s2 p2 n oi (p2 + x) m_fw.
Proof.
  induction n as [|n IH]; intros oi x m_fw Hn.
  - apply tieLast_same.
  - destruct Hn as [Hn|Hn]; [discriminate|].
    cbn [tieFinish].
    destruct (nth_error m_fw oi) as [b|]; [|reflexivity].
    rewrite fwGroup_same by lia.
    destruct (fwGroup s2 (p2 + x) b) as [b'|]; [|reflexivity].
    replace (p1 + x + 3)%nat with (p1 + (x + 3))%nat by lia.
    replace (p2 + x + 3)%nat with (p2 + (x + 3))%nat by lia.
    apply IH. destruct n; [left; reflexivity | right; lia].
Qed.

End SameCodes.

Lemma baseCode_of_code c c' :
  isBase c = true -> isBase c' = true -> codeOf c = codeOf c' ->
  baseCode c = baseCode c'.
Proof.
  unfold isBase, codeOf.
  destruct (baseCode c), (baseCode c'); intros; try discriminate; congruence.
Qed.

(** A window of bases that is its own reverse complement code for code:
    encoding it in place and encoding its reverse complement on its own run
    the same computation and come to the same result. *)
Lemma prepSeq_tie_same (k : nat) (rp : ReadsProcessor)
    (sequence : list ascii) (position : nat) :
  ReadsProcessor_new k = Some rp ->
  (position + k <= length sequence)%nat ->
  forallb isBase (window sequence position k) = true ->
  pack (window sequence position k) =
    pack (reverseComplement (window sequence position k)) ->
  prepSeq rp sequence position =
  prepSeq rp (reverseComplement (window sequence position k)) 0.
Proof.
  intros Hnew Hfit Hv E.
  destruct (new_fields k rp Hnew) as [Hk ->].
  pose proof (window_length k sequence position Hk Hfit) as Hl.
  pose proof (forallb_nth _ Hv) as Hv'. rewrite Hl in Hv'.
  pose proof (rc_length k sequence position Hk Hfit) as Hlr.
  pose proof (rc_valid k sequence position Hk Hfit Hv') as Hrv.
  pose proof (prepSeq_valid k sequence position Hk Hfit Hv') as H1.
  assert (Hcodes : forall j, (j < k)%nat ->
            baseCode (at_ sequence (position + j)) =
            baseCode (at_ (reverseComplement (window sequence position k))
                        (0 + j))).
  { intros j Hj. rewrite (at_window k sequence position Hk Hfit j Hj).
    cbn [Nat.add]. unfold at_.
    apply baseCode_of_code; [now apply Hv' | now apply Hrv |].
    apply pack_codes; [congruence | exact E | lia]. }
  set (w := window sequence position k) in *.
  set (r := reverseComplement w) in *.
  assert (Hfit' : (0 + k <= length r)%nat) by lia.
  assert (Hw : window r 0 k = r) by (rewrite <- Hlr; apply window_all).
  assert (Hrr : reverseComplement r = w)
    by apply reverseComplement_involutive.
  pose proof (prepSeq_valid k r 0 Hk Hfit') as H2.
  rewrite Hw, Hrr in H2. specialize (H2 Hrv).
  rewrite H1, H2, <- E, !lexCompare_refl.
  apply (tieFinish_same k sequence r position 0 Hcodes); [reflexivity | lia |].
  destruct (Nat.eqb_spec (k mod 4) 0); lia.
Qed.


(** Strand symmetry, as far as it goes: encoding a window of bases in place
    and encoding its reverse complement on its own yield the same bytes,
    unless the window size is 6 or 10 and the window is its own reverse
    complement, in which case both calls write past [m_fw]. *)
Lemma strand_symmetry_except_overrun (k : nat) (rp : ReadsProcessor)
    (sequence : list ascii) (position : nat) :
  ReadsProcessor_new k = Some rp ->
  (position + k <= length sequence)%nat ->
  forallb isBase (window sequence position k) = true ->
  (exists bytes,
     bytesOf (prepSeq rp sequence position) = Some bytes /\
     bytesOf (prepSeq rp (reverseComplement (window sequence position k)) 0)
       = Some bytes) \/
  (k = 6 \/ k = 10)%nat /\
  pack (window sequence position k) =
    pack (reverseComplement (window sequence position k)) /\
  prepSeq rp sequence position = OutOfBounds /\
  prepSeq rp (reverseComplement (window sequence position k)) 0 = OutOfBounds.
Proof.
  intros Hnew Hfit Hv.
  destruct (list_eq_dec Z.eq_dec (pack (window sequence position k))
              (pack (reverseComplement (window sequence position k))))
    as [E|Hne].
  - pose proof (prepSeq_tie_same k rp sequence position Hnew Hfit Hv E) as Hs.
    rewrite <- Hs.
    destruct (new_fields k rp Hnew) as [Hk ->].
    pose proof (window_length k sequence position Hk Hfit) as Hl.
    pose proof (forallb_nth _ Hv) as Hv'. rewrite Hl in Hv'.
    destruct (prepSeq_tie k sequence position Hk Hfit Hv' E)
      as [[H610 Ho] | [_ (m_fw & Hr & _)]].
    + right. auto.
    + left. exists m_fw. rewrite Hr. split; reflexivity.
  - left. eexists.
    exact (strand_symmetry_distinct k rp sequence position Hnew Hfit Hv Hne).
Qed.


(** * Further properties of prepSeq and getBases *)

Lemma forallb_false_nth (w : list ascii) :
  forallb isBase w = false ->
  exists j, (j < length w)%nat /\ isBase (nth j w zero) = false.
Proof.
  induction w as [|a w IH]; [discriminate|].
  cbn [forallb]. destruct (isBase a) eqn:Ea; cbn [andb].
  - intros H. destruct (IH H) as (j & Hj & Hb).
    exists (S j). split; [cbn; lia | exact Hb].
  - intros _. exists 0%nat. split; [cbn; lia | exact Ea].
Qed.

(** What [prepSeq] comes to on a window inside the sequence, by the kind of
    the window. *)
Lemma prepSeq_cases (k : nat) (rp : ReadsProcessor) (sequence : list ascii)
    (position : nat) :
  ReadsProcessor_new k = Some rp ->
  (position + k <= length sequence)%nat ->
  let w := window sequence position k in
  let r := prepSeq rp sequence position in
  forallb isBase w = false /\ r = NULL \/
  forallb isBase w = true /\ pack w <> pack (reverseComplement w) /\
    (r = Ret_m_fw (pack w) /\
       lexCompare (pack w) (pack (reverseComplement w)) = Lt \/
     r = Ret_m_rv (pack (reverseComplement w)) /\
       lexCompare (pack w) (pack (reverseComplement w)) = Gt) \/
  forallb isBase w = true /\ pack w = pack (reverseComplement w) /\
    ((k = 6 \/ k = 10)%nat /\ r = OutOfBounds \/
     (k <> 6 /\ k <> 10)%nat /\
       exists m_fw,
         r = Ret_m_fw m_fw /\
         length m_fw = m_kmerSizeInBytes rp /\
         firstn (m_halfSizeOfKmerInBytes rp) m_fw =
           firstn (m_halfSizeOfKmerInBytes rp) (pack w)).
Proof.
  intros Hnew Hfit. cbv zeta.
  destruct (new_fields k rp Hnew) as [Hk ->].
  pose proof (window_length k sequence position Hk Hfit) as Hl.
  destruct (forallb isBase (window sequence position k)) eqn:V.
  - pose proof (forallb_nth _ V) as Hv. rewrite Hl in Hv.
    right.
    destruct (list_eq_dec Z.eq_dec (pack (window sequence position k))
                (pack (reverseComplement (window sequence position k))))
      as [E|Hne].
    + right. split; [reflexivity|]. split; [exact E|].
      exact (prepSeq_tie k sequence position Hk Hfit Hv E).
    + left. split; [reflexivity|]. split; [exact Hne|].
      exact (prepSeq_canonical k sequence position Hk Hfit Hv Hne).
  - left. split; [reflexivity|].
    destruct (forallb_false_nth _ V) as (j & Hj & Hb). rewrite Hl in Hj.
    exact (prepSeq_invalid k sequence position Hk Hfit j Hj Hb).
Qed.

(** X1: on a window inside the sequence, [prepSeq] returns [NULL] exactly
    when some character of the window is none of A, C, G, T, a, c, g, t. *)
Theorem prepSeq_NULL_iff (k : nat) (rp : ReadsProcessor)
    (sequence : list ascii) (position : nat) :
  ReadsProcessor_new k = Some rp ->
  (position + k <= length sequence)%nat ->
  prepSeq rp sequence position = NULL <->
  forallb isBase (window sequence position k) = false.
Proof.
  intros Hnew Hfit.
  destruct (prepSeq_cases k rp sequence position Hnew Hfit)
    as [[V R] | [(V & _ & [[R _] | [R _]])
                | (V & _ & [[_ R] | [_ (m & R & _)]])]];
    rewrite R, V; split; intros H; try reflexivity; discriminate H.
Qed.

Lemma prepSeq_NULL_iff_witness :
  prepSeq (mkReadsProcessor 5 2 1 1 1) (str "ACGNTACGTA") 2 = NULL <->
  forallb isBase (window (str "ACGNTACGTA") 2 5) = false.
Proof.
  apply (prepSeq_NULL_iff 5 (mkReadsProcessor 5 2 1 1 1) (str "ACGNTACGTA") 2).
  - reflexivity.
  - vm_compute. lia.
Defined.

(** X2: [prepSeq] writes past a scratch buffer exactly when the window size
    is 6 or 10 and the window consists of bases and packs like its reverse
    complement; on every other window inside the sequence all its stores stay
    inside [m_fw] and [m_rv]. *)
Theorem prepSeq_OutOfBounds_iff (k : nat) (rp : ReadsProcessor)
    (sequence : list ascii) (position : nat) :
  ReadsProcessor_new k = Some rp ->
  (position + k <= length sequence)%nat ->
  prepSeq rp sequence position = OutOfBounds <->
  (k = 6 \/ k = 10)%nat /\
  forallb isBase (window sequence position k) = true /\
  pack (window sequence position k) =
    pack (reverseComplement (window sequence position k)).
Proof.
  intros Hnew Hfit.
  destruct (prepSeq_cases k rp sequence position Hnew Hfit)
    as [[V R] | [(V & Hne & [[R _] | [R _]])
                | (V & E & [[K R] | [K (m & R & _)]])]];
    rewrite R, V; split; intros H; try discriminate H; try tauto;
    try (destruct H as (_ & H & _); discriminate H);
    try (destruct H as (_ & _ & H); contradiction);
    try (destruct H as (H & _); lia).
Qed.

Lemma prepSeq_OutOfBounds_iff_witness :
  prepSeq (mkReadsProcessor 10 3 2 2 1) (str "GGAAAAATTTTTCC") 2 = OutOfBounds
  <->
  (10 = 6 \/ 10 = 10)%nat /\
  forallb isBase (window (str "GGAAAAATTTTTCC") 2 10) = true /\
  pack (window (str "GGAAAAATTTTTCC") 2 10) =
    pack (reverseComplement (window (str "GGAAAAATTTTTCC") 2 10)).
Proof.
  apply (prepSeq_OutOfBounds_iff 10 (mkReadsProcessor 10 3 2 2 1)
           (str "GGAAAAATTTTTCC") 2).
  - reflexivity.
  - vm_compute. lia.
Defined.

(** X3: what the returned pointer means on a window of bases.  [m_rv] is
    returned only when the reverse complement packs strictly smaller, and
    then holds that packing in full.  [m_fw] is returned only when the
    forward strand does not pack larger; it has [m_kmerSizeInBytes] bytes,
    its compared prefix is that of the forward packing, and it is the whole
    forward packing when the two packings differ. *)
Theorem prepSeq_pointer (k : nat) (rp : ReadsProcessor)
    (sequence : list ascii) (position : nat) :
  ReadsProcessor_new k = Some rp ->
  (position + k <= length sequence)%nat ->
  forallb isBase (window sequence position k) = true ->
  let w := window sequence position k in
  match prepSeq rp sequence position with
  | Ret_m_rv m_rv =>
      m_rv = pack (reverseComplement w) /\
      lexCompare (pack w) (pack (reverseComplement w)) = Gt
  | Ret_m_fw m_fw =>
      lexCompare (pack w) (pack (reverseComplement w)) <> Gt /\
      length m_fw = m_kmerSizeInBytes rp /\
      firstn (m_halfSizeOfKmerInBytes rp) m_fw =
        firstn (m_halfSizeOfKmerInBytes rp) (pack w) /\
      (pack w = pack (reverseComplement w) \/ m_fw = pack w)
  | NULL => False
  | OutOfBounds => (k = 6 \/ k = 10)%nat
  end.
Proof.
  intros Hnew Hfit Hv. cbv zeta.
  destruct (new_fields k rp Hnew) as [Hk Hrp].
  pose proof (window_length k sequence position Hk Hfit) as Hl.
  destruct (prepSeq_cases k rp sequence position Hnew Hfit)
    as [[V R] | [(V & Hne & [[R C] | [R C]])
                | (V & E & [[K R] | [K (m & R & Hlen & Hpre)]])]];
    rewrite R.
  - rewrite V in Hv. discriminate Hv.
  - rewrite C. repeat split; try discriminate; auto.
    rewrite pack_length, Hl, Hrp. reflexivity.
  - auto.
  - exact K.
  - rewrite <- E, lexCompare_refl. repeat split; try discriminate; auto.
Qed.

Lemma prepSeq_pointer_witness :
  match prepSeq (mkReadsProcessor 5 2 1 1 1) (str "GGCGTTTAA") 2 with
  | Ret_m_rv m_rv =>
      m_rv = pack (reverseComplement (window (str "GGCGTTTAA") 2 5)) /\
      lexCompare (pack (window (str "GGCGTTTAA") 2 5))
        (pack (reverseComplement (window (str "GGCGTTTAA") 2 5))) = Gt
  | Ret_m_fw m_fw =>
      lexCompare (pack (window (str "GGCGTTTAA") 2 5))
        (pack (reverseComplement (window (str "GGCGTTTAA") 2 5))) <> Gt /\
      length m_fw = m_kmerSizeInBytes (mkReadsProcessor 5 2 1 1 1) /\
      firstn (m_halfSizeOfKmerInBytes (mkReadsProcessor 5 2 1 1 1)) m_fw =
        firstn (m_halfSizeOfKmerInBytes (mkReadsProcessor 5 2 1 1 1))
          (pack (window (str "GGCGTTTAA") 2 5)) /\
      (pack (window (str "GGCGTTTAA") 2 5) =
         pack (reverseComplement (window (str "GGCGTTTAA") 2 5)) \/
       m_fw = pack (window (str "GGCGTTTAA") 2 5))
  | NULL => False
  | OutOfBounds => (5 = 6 \/ 5 = 10)%nat
  end.
Proof.
  apply (prepSeq_pointer 5 (mkReadsProcessor 5 2 1 1 1) (str "GGCGTTTAA") 2).
  - reflexivity.
  - vm_compute. lia.
  - reflexivity.
Defined.


(** ** The result depends on the codes of the window alone *)

Lemma prepSeq_same_codes (k : nat) (rp : ReadsProcessor)
    (s1 s2 : list ascii) (p1 p2 : nat) :
  ReadsProcessor_new k = Some rp ->
  (p1 + k <= length s1)%nat -> (p2 + k <= length s2)%nat ->
  (forall j, (j < k)%nat ->
     baseCode (at_ s1 (p1 + j)) = baseCode (at_ s2 (p2 + j))) ->
  prepSeq rp s1 p1 = prepSeq rp s2 p2.
Proof.
  intros Hnew Hf1 Hf2 Hcodes.
  destruct (new_fields k rp Hnew) as [Hk ->].
  pose proof (window_length k s1 p1 Hk Hf1) as Hl1.
  pose proof (window_length k s2 p2 Hk Hf2) as Hl2.
  assert (Hc : forall j, (j < k)%nat ->
            baseCode (nth j (window s1 p1 k) zero) =
            baseCode (nth j (window s2 p2 k) zero)).
  { intros j Hj.
    rewrite <- (at_window k s1 p1 Hk Hf1 j Hj),
            <- (at_window k s2 p2 Hk Hf2 j Hj).
    now apply Hcodes. }
  destruct (forallb isBase (window s1 p1 k)) eqn:V.
  - pose proof (forallb_nth _ V) as Hv1. rewrite Hl1 in Hv1.
    assert (Hv2 : forall j, (j < k)%nat ->
              isBase (nth j (window s2 p2 k) zero) = true).
    { intros j Hj. unfold isBase. rewrite <- Hc by exact Hj.
      apply (Hv1 j Hj). }
    assert (F : pack (window s1 p1 k) = pack (window s2 p2 k)).
    { apply pack_ext; [congruence|]. rewrite Hl1. intros j Hj.
      unfold codeOf. now rewrite Hc. }
    assert (R : pack (reverseComplement (window s1 p1 k)) =
                pack (reverseComplement (window s2 p2 k))).
    { apply pack_ext.
      - now rewrite (rc_length k s1 p1 Hk Hf1), (rc_length k s2 p2 Hk Hf2).
      - rewrite (rc_length k s1 p1 Hk Hf1). intros j Hj.
        rewrite (rc_nth k s1 p1 Hk Hf1 j Hj), (rc_nth k s2 p2 Hk Hf2 j Hj).
        unfold codeOf. rewrite !baseCode_complement, Hc by lia.
        reflexivity. }
    rewrite (prepSeq_valid k s1 p1 Hk Hf1 Hv1),
            (prepSeq_valid k s2 p2 Hk Hf2 Hv2), F, R.
    destruct (lexCompare _ _); try reflexivity.
    apply (tieFinish_same k s1 s2 p1 p2 Hcodes); [reflexivity | lia |].
    destruct (Nat.eqb_spec (k mod 4) 0); lia.
  - destruct (forallb_false_nth _ V) as (j & Hj & Hb). rewrite Hl1 in Hj.
    assert (Hb2 : isBase (nth j (window s2 p2 k) zero) = false).
    { unfold isBase in *. now rewrite <- Hc. }
    rewrite (prepSeq_invalid k s1 p1 Hk Hf1 j Hj Hb),
            (prepSeq_invalid k s2 p2 Hk Hf2 j Hj Hb2).
    reflexivity.
Qed.

(** X4: the result of [prepSeq] is settled by the [k] characters of the
    window: the same call on the window alone, at position 0, comes to the
    same result, whatever surrounds the window in the sequence. *)
Theorem prepSeq_window_only (k : nat) (rp : ReadsProcessor)
    (sequence : list ascii) (position : nat) :
  ReadsProcessor_new k = Some rp ->
  (position + k <= length sequence)%nat ->
  prepSeq rp sequence position = prepSeq rp (window sequence position k) 0.
Proof.
  intros Hnew Hfit.
  destruct (new_fields k rp Hnew) as [Hk _].
  pose proof (window_length k sequence position Hk Hfit) as Hl.
  apply (prepSeq_same_codes k); try assumption; try lia.
  intros j Hj. rewrite (at_window k sequence position Hk Hfit j Hj).
  reflexivity.
Qed.

Lemma prepSeq_window_only_witness :
  prepSeq (mkReadsProcessor 5 2 1 1 1) (str "TTCGTTTNN") 2 =
  prepSeq (mkReadsProcessor 5 2 1 1 1) (window (str "TTCGTTTNN") 2 5) 0.
Proof.
  apply (prepSeq_window_only 5 (mkReadsProcessor 5 2 1 1 1)
           (str "TTCGTTTNN") 2).
  - reflexivity.
  - vm_compute. lia.
Defined.

Lemma baseCode_toUpper c : baseCode (toUpper c) = baseCode c.
Proof. each_ascii c. Qed.

Lemma at_map_toUpper s i : at_ (map toUpper s) i = toUpper (at_ s i).
Proof. unfold at_. change zero with (toUpper zero) at 1. apply map_nth. Qed.

(** X5: [prepSeq] does not see the case of the letters: two sequences that
    are equal once upper-cased come to the same result at every position. *)
Theorem prepSeq_case_insensitive (k : nat) (rp : ReadsProcessor)
    (s1 s2 : list ascii) (position : nat) :
  ReadsProcessor_new k = Some rp ->
  (position + k <= length s1)%nat ->
  map toUpper s1 = map toUpper s2 ->
  prepSeq rp s1 position = prepSeq rp s2 position.
Proof.
  intros Hnew Hfit Hup.
  assert (Hlen : length s2 = length s1)
    by (rewrite <- (length_map toUpper s2), <- Hup; apply length_map).
  apply (prepSeq_same_codes k); try assumption; try lia.
  intros j _.
  rewrite <- (baseCode_toUpper (at_ s1 _)), <- (baseCode_toUpper (at_ s2 _)).
  now rewrite <- !at_map_toUpper, Hup.
Qed.

Lemma prepSeq_case_insensitive_witness :
  prepSeq (mkReadsProcessor 5 2 1 1 1) (str "ttCgTtTaa") 2 =
  prepSeq (mkReadsProcessor 5 2 1 1 1) (str "TTcGtTtAA") 2.
Proof.
  apply (prepSeq_case_insensitive 5 (mkReadsProcessor 5 2 1 1 1)
           (str "ttCgTtTaa") (str "TTcGtTtAA") 2).
  - reflexivity.
  - vm_compute. lia.
  - reflexivity.
Defined.


(** ** Keys and k-mers *)

Lemma toUpper_complement c : toUpper (complement c) = complement (toUpper c).
Proof. each_ascii c. Qed.

Lemma upper_reverseComplement w :
  map toUpper (reverseComplement w) = reverseComplement (map toUpper w).
Proof.
  unfold reverseComplement. rewrite map_rev, !map_map. f_equal.
  apply map_ext, toUpper_complement.
Qed.

Lemma pack_upper w : pack (map toUpper w) = pack w.
Proof.
  apply pack_ext; [apply length_map|].
  intros j _. change zero with (toUpper zero) at 1. rewrite map_nth.
  unfold codeOf. now rewrite baseCode_toUpper.
Qed.

Lemma forallb_reverseComplement w :
  forallb isBase w = true -> forallb isBase (reverseComplement w) = true.
Proof.
  rewrite !forallb_forall. intros H x Hx.
  unfold reverseComplement in Hx. apply in_rev, in_map_iff in Hx.
  destruct Hx as (y & <- & Hy). rewrite isBase_complement. now apply H.
Qed.

Lemma length_reverseComplement w : length (reverseComplement w) = length w.
Proof. unfold reverseComplement. now rewrite length_rev, length_map. Qed.

Lemma pack_inj_upper u v :
  length u = length v ->
  forallb isBase u = true -> forallb isBase v = true ->
  pack u = pack v -> map toUpper u = map toUpper v.
Proof.
  intros Hl Hu Hv E.
  pose (rp0 := mkReadsProcessor (length u) 0 0 0 0).
  pose proof (getBases_pack rp0 u eq_refl (forallb_nth u Hu)) as Gu.
  pose proof (getBases_pack rp0 v (eq_sym Hl) (forallb_nth v Hv)) as Gv.
  rewrite E in Gu. congruence.
Qed.

Lemma bytesMin_comm x y : bytesMin x y = bytesMin y x.
Proof.
  unfold bytesMin. rewrite (lexCompare_antisym x y).
  destruct (lexCompare x y) eqn:E; cbn [CompOpp]; try reflexivity.
  now apply lexCompare_eq.
Qed.

Lemma bytesMin_cases x y : bytesMin x y = x \/ bytesMin x y = y.
Proof. unfold bytesMin. destruct (lexCompare x y); auto. Qed.

Lemma prepSeq_bytes_distinct (k : nat) (rp : ReadsProcessor)
    (w : list ascii) :
  ReadsProcessor_new k = Some rp -> length w = k ->
  forallb isBase w = true -> pack w <> pack (reverseComplement w) ->
  bytesOf (prepSeq rp w 0) =
  Some (bytesMin (pack w) (pack (reverseComplement w))).
Proof.
  intros Hnew Hl Hv Hne.
  assert (Hw : window w 0 k = w) by (rewrite <- Hl; apply window_all).
  pose proof (strand_symmetry_distinct k rp w 0 Hnew) as H.
  rewrite Hw in H. apply H; auto. lia.
Qed.

(** X6: the bytes identify the k-mer up to case and strand.  For two
    windows of bases, neither packing like its own reverse complement,
    [prepSeq] yields the same bytes exactly when the windows are equal once
    upper-cased, or one is the reverse complement of the other once
    upper-cased. *)
Theorem key_identifies_kmer (k : nat) (rp : ReadsProcessor)
    (w1 w2 : list ascii) :
  ReadsProcessor_new k = Some rp ->
  length w1 = k -> length w2 = k ->
  forallb isBase w1 = true -> forallb isBase w2 = true ->
  pack w1 <> pack (reverseComplement w1) ->
  pack w2 <> pack (reverseComplement w2) ->
  bytesOf (prepSeq rp w1 0) = bytesOf (prepSeq rp w2 0) <->
  map toUpper w1 = map toUpper w2 \/
  map toUpper w1 = map toUpper (reverseComplement w2).
Proof.
  intros Hnew Hl1 Hl2 Hv1 Hv2 Hn1 Hn2.
  rewrite (prepSeq_bytes_distinct k rp w1 Hnew Hl1 Hv1 Hn1),
          (prepSeq_bytes_distinct k rp w2 Hnew Hl2 Hv2 Hn2).
  pose proof (forallb_reverseComplement w1 Hv1) as Hr1.
  pose proof (forallb_reverseComplement w2 Hv2) as Hr2.
  pose proof (length_reverseComplement w1) as Lr1.
  pose proof (length_reverseComplement w2) as Lr2.
  split.
  - intros E. apply Some_inj in E.
    destruct (bytesMin_cases (pack w1) (pack (reverseComplement w1)))
      as [E1|E1];
      destruct (bytesMin_cases (pack w2) (pack (reverseComplement w2)))
        as [E2|E2]; rewrite E1, E2 in E.
    + left. apply pack_inj_upper; auto. congruence.
    + right. apply pack_inj_upper; auto. congruence.
    + right.
      assert (H : map toUpper (reverseComplement w1) = map toUpper w2)
        by (apply pack_inj_upper; auto; congruence).
      rewrite !upper_reverseComplement in *.
      rewrite <- H. now rewrite reverseComplement_involutive.
    + left.
      assert (H : map toUpper (reverseComplement w1) =
                  map toUpper (reverseComplement w2))
        by (apply pack_inj_upper; auto; congruence).
      rewrite !upper_reverseComplement in H.
      rewrite <- (reverseComplement_involutive (map toUpper w1)), H.
      apply reverseComplement_involutive.
  - intros [E|E]; f_equal.
    + rewrite <- (pack_upper w1), <- (pack_upper w2),
        <- (pack_upper (reverseComplement w1)),
        <- (pack_upper (reverseComplement w2)).
      now rewrite !upper_reverseComplement, E.
    + rewrite (bytesMin_comm (pack w2)).
      rewrite <- (pack_upper w1), <- (pack_upper w2),
        <- (pack_upper (reverseComplement w1)),
        <- (pack_upper (reverseComplement w2)).
      rewrite !upper_reverseComplement, E, !upper_reverseComplement.
      now rewrite reverseComplement_involutive.
Qed.

Lemma key_identifies_kmer_witness :
  bytesOf (prepSeq (mkReadsProcessor 5 2 1 1 1) (str "CGTTT") 0) =
  bytesOf (prepSeq (mkReadsProcessor 5 2 1 1 1) (str "aaacg") 0) <->
  map toUpper (str "CGTTT") = map toUpper (str "aaacg") \/
  map toUpper (str "CGTTT") =
    map toUpper (reverseComplement (str "aaacg")).
Proof.
  apply (key_identifies_kmer 5 (mkReadsProcessor 5 2 1 1 1)
           (str "CGTTT") (str "aaacg"));
    try reflexivity; vm_compute; discriminate.
Defined.

(** X7: [getBases] undoes the packing: on the packing of any [k] bases it
    returns those bases in upper case. *)
Theorem getBases_of_pack (k : nat) (rp : ReadsProcessor) (w : list ascii) :
  ReadsProcessor_new k = Some rp ->
  length w = k ->
  forallb isBase w = true ->
  getBases rp (pack w) = Some (map toUpper w).
Proof.
  intros Hnew Hl Hv. destruct (new_fields k rp Hnew) as [_ ->].
  apply getBases_pack; [exact Hl | apply forallb_nth, Hv].
Qed.

Lemma getBases_of_pack_witness :
  getBases (mkReadsProcessor 6 2 1 2 1) (pack (str "acGTtt"))
  = Some (map toUpper (str "acGTtt")).
Proof.
  apply (getBases_of_pack 6 (mkReadsProcessor 6 2 1 2 1) (str "acGTtt"));
    reflexivity.
Defined.

(** X8: the geometry the loops of [prepSeq] rely on.  The blocks of the
    comparison loop stay inside the window and, the two strands together,
    reach every character of it ([4 H <= k <= 8 H]); the full bytes are
    [k / 4], the hanging bases [k mod 4], and there is one more byte exactly
    when bases hang. *)
Theorem loop_geometry (k : nat) (rp : ReadsProcessor) :
  ReadsProcessor_new k = Some rp ->
  (4 * m_halfSizeOfKmerInBytes rp <= k <= 8 * m_halfSizeOfKmerInBytes rp)%nat
  /\ m_hangingBases rp = (k mod 4)%nat
  /\ (m_kmerSizeInBytes rp - m_hangingBasesExist rp = k / 4)%nat
  /\ (m_halfSizeOfKmerInBytes rp
      <= m_kmerSizeInBytes rp - m_hangingBasesExist rp)%nat
  /\ (m_hangingBasesExist rp = 0%nat /\ m_hangingBases rp = 0%nat \/
      m_hangingBasesExist rp = 1%nat /\ (0 < m_hangingBases rp < 4)%nat).
Proof.
  intros Hnew. destruct (new_fields k rp Hnew) as [Hk ->].
  cbn [m_kmerSize m_kmerSizeInBytes m_halfSizeOfKmerInBytes m_hangingBases
       m_hangingBasesExist].
  destruct (Nat.eqb_spec (k mod 4) 0); repeat split; lia.
Qed.

Lemma loop_geometry_witness :
  (4 * m_halfSizeOfKmerInBytes (mkReadsProcessor 9 3 2 1 1) <= 9
   <= 8 * m_halfSizeOfKmerInBytes (mkReadsProcessor 9 3 2 1 1))%nat
  /\ m_hangingBases (mkReadsProcessor 9 3 2 1 1) = (9 mod 4)%nat
  /\ (m_kmerSizeInBytes (mkReadsProcessor 9 3 2 1 1)
      - m_hangingBasesExist (mkReadsProcessor 9 3 2 1 1) = 9 / 4)%nat
  /\ (m_halfSizeOfKmerInBytes (mkReadsProcessor 9 3 2 1 1)
      <= m_kmerSizeInBytes (mkReadsProcessor 9 3 2 1 1)
         - m_hangingBasesExist (mkReadsProcessor 9 3 2 1 1))%nat
  /\ (m_hangingBasesExist (mkReadsProcessor 9 3 2 1 1) = 0%nat /\
      m_hangingBases (mkReadsProcessor 9 3 2 1 1) = 0%nat \/
      m_hangingBasesExist (mkReadsProcessor 9 3 2 1 1) = 1%nat /\
      (0 < m_hangingBases (mkReadsProcessor 9 3 2 1 1) < 4)%nat).
Proof.
  apply (loop_geometry 9 (mkReadsProcessor 9 3 2 1 1)). reflexivity.
Defined.


(** ** From bytes to bases and back *)

Lemma byte_cases (P : Z -> bool) :
  forallb P (map Z.of_nat (seq 0 256)) = true ->
  forall b, 0 <= b < 256 -> P b = true.
Proof.
  intros H b Hb. rewrite forallb_forall in H. apply H.
  apply in_map_iff. exists (Z.to_nat b). split; [lia|].
  apply in_seq. lia.
Qed.

Lemma byte4_codeIn b :
  0 <= b < 256 ->
  byte4 (codeIn b 0) (codeIn b 1) (codeIn b 2) (codeIn b 3) = b.
Proof.
  intros Hb. apply Z.eqb_eq.
  apply (byte_cases (fun b => byte4 (codeIn b 0) (codeIn b 1) (codeIn b 2)
                                (codeIn b 3) =? b)); [|exact Hb].
  vm_compute. reflexivity.
Qed.

Lemma byte4_codeIn_partial b p :
  0 <= b < 256 -> (0 < p < 4)%nat ->
  Z.land b (Z.ones (2 * Z.of_nat (4 - p))) = 0 ->
  byte4 (codeIn b 0) (if (1 <? p)%nat then codeIn b 1 else 0)
    (if (2 <? p)%nat then codeIn b 2 else 0) 0 = b.
Proof.
  intros Hb Hp.
  assert (Hc : (p = 1 \/ p = 2 \/ p = 3)%nat) by lia.
  destruct Hc as [-> | [-> | ->]]; cbn [Nat.ltb Nat.leb Nat.sub Z.of_nat];
    intros Hz; apply Z.eqb_eq; revert Hz; rewrite <- Z.eqb_eq.
  - apply (byte_cases (fun b =>
      implb (Z.land b (Z.ones (2 * Z.of_nat 3)) =? 0)
        (byte4 (codeIn b 0) 0 0 0 =? b))) in Hb; [|vm_compute; reflexivity].
    destruct (Z.land b _ =? 0); [exact (fun _ => Hb) | discriminate].
  - apply (byte_cases (fun b =>
      implb (Z.land b (Z.ones (2 * Z.of_nat 2)) =? 0)
        (byte4 (codeIn b 0) (codeIn b 1) 0 0 =? b))) in Hb;
      [|vm_compute; reflexivity].
    destruct (Z.land b _ =? 0); [exact (fun _ => Hb) | discriminate].
  - apply (byte_cases (fun b =>
      implb (Z.land b (Z.ones (2 * Z.of_nat 1)) =? 0)
        (byte4 (codeIn b 0) (codeIn b 1) (codeIn b 2) 0 =? b))) in Hb;
      [|vm_compute; reflexivity].
    destruct (Z.land b _ =? 0); [exact (fun _ => Hb) | discriminate].
Qed.

Lemma codeOf_letter c j :
  codeOf (letter c j) = codeIn (nth (j / 4) c 0) (j mod 4).
Proof.
  unfold letter, codeIn.
  set (x := Z.land _ 3).
  assert (Hx : 0 <= x < 4).
  { subst x. change 3 with (Z.ones 2). rewrite Z.land_ones by lia.
    apply Z.mod_pos_bound. lia. }
  clearbody x.
  assert (Hc : x = 0 \/ x = 1 \/ x = 2 \/ x = 3) by lia.
  destruct Hc as [-> | [-> | [-> | ->]]]; reflexivity.
Qed.

Lemma nth_map_seq {A : Type} (f : nat -> A) (d : A) (n j : nat) :
  (j < n)%nat -> nth j (map f (seq 0 n)) d = f j.
Proof.
  intros Hj. rewrite (nth_indep _ d (f 0%nat)) by (rewrite length_map, length_seq; lia).
  rewrite map_nth, seq_nth by lia. reflexivity.
Qed.

Lemma codeOf_nth_letters c k j :
  codeOf (nth j (map (letter c) (seq 0 k)) zero) =
  if (j <? k)%nat then codeIn (nth (j / 4) c 0) (j mod 4) else 0.
Proof.
  destruct (Nat.ltb_spec j k).
  - rewrite nth_map_seq by lia. apply codeOf_letter.
  - rewrite nth_overflow by (rewrite length_map, length_seq; lia).
    reflexivity.
Qed.

Lemma nth_last {A : Type} (l : list A) (d : A) :
  nth (length l - 1) l d = last l d.
Proof.
  induction l as [|a [|b l] IH]; try reflexivity.
  cbn [length] in *. rewrite Nat.sub_succ, Nat.sub_0_r in *.
  exact IH.
Qed.

(** X9: [getBases] loses nothing.  On an array of exactly
    [m_kmerSizeInBytes] bytes, each below 256, whose last byte has its
    unused low bits clear, packing the bases [getBases] returns gives the
    array back. *)
Theorem pack_of_getBases (k : nat) (rp : ReadsProcessor) (c : list Z) :
  ReadsProcessor_new k = Some rp ->
  length c = m_kmerSizeInBytes rp ->
  Forall (fun b => 0 <= b < 256) c ->
  Z.land (last c 0) (Z.ones (2 * Z.of_nat ((4 - k mod 4) mod 4))) = 0 ->
  exists bases, getBases rp c = Some bases /\ pack bases = c.
Proof.
  intros Hnew Hlen Hbytes Hpad.
  destruct (new_fields k rp Hnew) as [Hk ->].
  cbn [m_kmerSizeInBytes] in Hlen.
  exists (map (letter c) (seq 0 k)). split.
  - apply getBases_letters. cbn [m_kmerSize]. lia.
  - assert (Hlb : length (map (letter c) (seq 0 k)) = k)
      by now rewrite length_map, length_seq.
    apply (nth_ext _ _ 0 0).
    + rewrite pack_length, Hlb. now rewrite Hlen.
    + intros i Hi. rewrite pack_length, Hlb in Hi.
      rewrite pack_nth by lia. unfold byteAt.
      rewrite !codeOf_nth_letters.
      replace ((4 * i) / 4)%nat with i by lia.
      replace ((4 * i + 1) / 4)%nat with i by lia.
      replace ((4 * i + 2) / 4)%nat with i by lia.
      replace ((4 * i + 3) / 4)%nat with i by lia.
      replace ((4 * i) mod 4)%nat with 0%nat by lia.
      replace ((4 * i + 1) mod 4)%nat with 1%nat by lia.
      replace ((4 * i + 2) mod 4)%nat with 2%nat by lia.
      replace ((4 * i + 3) mod 4)%nat with 3%nat by lia.
      assert (Hb : 0 <= nth i c 0 < 256).
      { rewrite Forall_forall in Hbytes. apply Hbytes, nth_In. lia. }
      destruct (Nat.ltb_spec (4 * i + 3) k) as [Hfull|Hpart].
      * destruct (Nat.ltb_spec (4 * i) k); [|lia].
        destruct (Nat.ltb_spec (4 * i + 1) k); [|lia].
        destruct (Nat.ltb_spec (4 * i + 2) k); [|lia].
        apply byte4_codeIn, Hb.
      * assert (Hi' : i = (length c - 1)%nat) by lia.
        assert (Hlast : nth i c 0 = last c 0).
        { rewrite Hi'. apply nth_last. }
        destruct (Nat.ltb_spec (4 * i) k); [|lia].
        pose proof (byte4_codeIn_partial (nth i c 0) (k mod 4) Hb
                      ltac:(lia)) as Hp.
        replace ((4 - k mod 4) mod 4)%nat with (4 - k mod 4)%nat in Hpad
          by lia.
        rewrite Hlast in Hp at 1. specialize (Hp Hpad).
        replace (4 * i + 1 <? k)%nat with (1 <? k mod 4)%nat
          by (destruct (Nat.ltb_spec 1 (k mod 4));
              destruct (Nat.ltb_spec (4 * i + 1) k); lia).
        replace (4 * i + 2 <? k)%nat with (2 <? k mod 4)%nat
          by (destruct (Nat.ltb_spec 2 (k mod 4));
              destruct (Nat.ltb_spec (4 * i + 2) k); lia).
        exact Hp.
Qed.

Lemma pack_of_getBases_witness :
  exists bases,
    getBases (mkReadsProcessor 6 2 1 2 1) [0x1B; 0xF0] = Some bases /\
    pack bases = [0x1B; 0xF0].
Proof.
  apply (pack_of_getBases 6 (mkReadsProcessor 6 2 1 2 1) [0x1B; 0xF0]).
  - reflexivity.
  - reflexivity.
  - repeat constructor; lia.
  - reflexivity.
Defined.


Lemma isBase_toUpper c : isBase (toUpper c) = isBase c.
Proof. unfold isBase. now rewrite baseCode_toUpper. Qed.

Lemma forallb_upper w :
  forallb isBase w = true -> forallb isBase (map toUpper w) = true.
Proof.
  rewrite !forallb_forall. intros H x Hx. apply in_map_iff in Hx.
  destruct Hx as (y & <- & Hy). rewrite isBase_toUpper. now apply H.
Qed.

Lemma prepSeq_distinct_cases (k : nat) (rp : ReadsProcessor)
    (w : list ascii) :
  ReadsProcessor_new k = Some rp -> length w = k ->
  forallb isBase w = true -> pack w <> pack (reverseComplement w) ->
  prepSeq rp w 0 = Ret_m_fw (pack w) /\
    lexCompare (pack w) (pack (reverseComplement w)) = Lt \/
  prepSeq rp w 0 = Ret_m_rv (pack (reverseComplement w)) /\
    lexCompare (pack w) (pack (reverseComplement w)) = Gt.
Proof.
  intros Hnew Hl Hv Hne.
  destruct (new_fields k rp Hnew) as [Hk ->].
  assert (Hfit : (0 + k <= length w)%nat) by lia.
  assert (Hw : window w 0 k = w) by (rewrite <- Hl; apply window_all).
  pose proof (prepSeq_canonical k w 0 Hk Hfit) as H.
  rewrite Hw in H. apply H; [|exact Hne].
  rewrite <- Hl. apply forallb_nth, Hv.
Qed.

(** X17: the key is a fixed point.  For a window of bases whose two
    packings differ, the bases [getBases] reads from the bytes [prepSeq]
    returned encode to the same bytes again, and this time from the forward
    buffer. *)
Theorem canonical_reencode (k : nat) (rp : ReadsProcessor) (w : list ascii) :
  ReadsProcessor_new k = Some rp ->
  length w = k ->
  forallb isBase w = true ->
  pack w <> pack (reverseComplement w) ->
  exists bytes bases,
    bytesOf (prepSeq rp w 0) = Some bytes /\
    getBases rp bytes = Some bases /\
    prepSeq rp bases 0 = Ret_m_fw bytes.
Proof.
  intros Hnew Hl Hv Hne.
  assert (Hsize : m_kmerSize rp = k)
    by (destruct (new_fields k rp Hnew) as [_ ->]; reflexivity).
  pose proof (forallb_reverseComplement w Hv) as Hrv.
  pose proof (length_reverseComplement w) as Hrl.
  destruct (prepSeq_distinct_cases k rp w Hnew Hl Hv Hne)
    as [[R C] | [R C]]; rewrite R; cbn [bytesOf].
  - exists (pack w), (map toUpper w). split; [reflexivity|].
    split; [apply getBases_pack; [congruence | apply forallb_nth, Hv]|].
    destruct (prepSeq_distinct_cases k rp (map toUpper w) Hnew)
      as [[R' _] | [_ C']].
    + now rewrite length_map.
    + now apply forallb_upper.
    + rewrite <- upper_reverseComplement, !pack_upper. exact Hne.
    + rewrite R', pack_upper. reflexivity.
    + rewrite <- upper_reverseComplement, !pack_upper in C'. congruence.
  - exists (pack (reverseComplement w)), (map toUpper (reverseComplement w)).
    split; [reflexivity|].
    split; [apply getBases_pack; [congruence | apply forallb_nth, Hrv]|].
    assert (Hrr : pack (reverseComplement (map toUpper (reverseComplement w)))
                  = pack w).
    { rewrite <- upper_reverseComplement, pack_upper.
      now rewrite reverseComplement_involutive. }
    destruct (prepSeq_distinct_cases k rp
                (map toUpper (reverseComplement w)) Hnew)
      as [[R' _] | [_ C']].
    + rewrite length_map. congruence.
    + now apply forallb_upper.
    + rewrite Hrr, pack_upper. congruence.
    + rewrite R', pack_upper. reflexivity.
    + rewrite Hrr, pack_upper in C'.
      rewrite (lexCompare_antisym (pack w)), C in C'. discriminate C'.
Qed.

Lemma canonical_reencode_witness :
  exists bytes bases,
    bytesOf (prepSeq (mkReadsProcessor 5 2 1 1 1) (str "aaacg") 0)
      = Some bytes /\
    getBases (mkReadsProcessor 5 2 1 1 1) bytes = Some bases /\
    prepSeq (mkReadsProcessor 5 2 1 1 1) bases 0 = Ret_m_fw bytes.
Proof.
  apply (canonical_reencode 5 (mkReadsProcessor 5 2 1 1 1) (str "aaacg"));
    try reflexivity.
  vm_compute. discriminate.
Defined.


(** * SegmentCalc *)

Lemma div_lt_iff (a s q : Z) : 0 < s -> (a / s < q <-> a < s * q).
Proof.
  intros Hs. split; intros H.
  - pose proof (Z.mul_succ_div_gt a s Hs). nia.
  - apply Z.div_lt_upper_bound; assumption.
Qed.

Lemma div_ge_iff (a s q : Z) : 0 < s -> (q <= a / s <-> s * q <= a).
Proof.
  intros Hs. pose proof (div_lt_iff a s q Hs). lia.
Qed.

Lemma wrap_small (x : Z) : 0 <= x < 2 ^ 32 -> SegmentCalc.wrap x = x.
Proof. intros H. unfold SegmentCalc.wrap. now apply Z.mod_small. Qed.

Section SegmentFacts.

Variables (s l : Z).
Hypothesis Hs : 0 < s.
Hypothesis Hl : l < 2 ^ 32.
Hypothesis Hhalf : s <= l / 2.

Lemma half_bounds : 2 * (l / 2) <= l <= 2 * (l / 2) + 1.
Proof using Hs Hl Hhalf. lia. Qed.

Lemma sph_bounds : s * (l / 2 / s) <= l / 2 < s * (l / 2 / s) + s.
Proof using Hs Hl Hhalf.
  pose proof (Z.mul_div_le (l / 2) s Hs).
  pose proof (Z.mul_succ_div_gt (l / 2) s Hs). lia.
Qed.

Lemma sph_pos : 1 <= l / 2 / s.
Proof using Hs Hl Hhalf. apply div_ge_iff; lia. Qed.

Lemma mod_nonzero_gap : l mod s <> 0 -> 2 * (s * (l / 2 / s)) < l.
Proof using Hs Hl Hhalf.
  intros Hm. pose proof half_bounds. pose proof sph_bounds.
  destruct (Z.eq_dec l (2 * (s * (l / 2 / s)))) as [E|]; [|lia].
  destruct Hm. rewrite E.
  replace (2 * (s * (l / 2 / s))) with ((2 * (l / 2 / s)) * s) by ring.
  apply Z.mod_mul. lia.
Qed.

Lemma segmentsPerHalf_ok :
  l mod s <> 0 -> SegmentCalc.segmentsPerHalf s l = SegmentCalc.Ok (l / 2 / s).
Proof using Hs Hl Hhalf.
  intros Hm. unfold SegmentCalc.segmentsPerHalf, SegmentCalc.umod,
    SegmentCalc.udiv, SegmentCalc.assert.
  destruct (Z.leb_spec s (l / 2)); [|lia].
  destruct (Z.eqb_spec s 0); [lia|]. cbn [SegmentCalc.bind].
  pose proof (Z.mod_pos_bound l s Hs).
  destruct (Z.gtb_spec (l mod s) 0); [|lia]. reflexivity.
Qed.

Lemma segmentsPerHalf_divisible :
  l mod s = 0 -> SegmentCalc.segmentsPerHalf s l = SegmentCalc.AssertFailed.
Proof using Hs Hl Hhalf.
  intros Hm. unfold SegmentCalc.segmentsPerHalf, SegmentCalc.umod,
    SegmentCalc.udiv, SegmentCalc.assert.
  destruct (Z.leb_spec s (l / 2)); [|lia].
  destruct (Z.eqb_spec s 0); [lia|]. cbn [SegmentCalc.bind].
  rewrite Hm. reflexivity.
Qed.

Lemma remainder_ok :
  SegmentCalc.remainder s l = SegmentCalc.Ok (segGap s l).
Proof using Hs Hl Hhalf.
  unfold segGap, SegmentCalc.remainder, SegmentCalc.umod, SegmentCalc.assert.
  destruct (Z.leb_spec s (l / 2)); [|lia].
  destruct (Z.eqb_spec s 0); [lia|]. cbn [SegmentCalc.bind].
  destruct (Z.eqb_spec (l mod s) 0) as [Hm|Hm]; [reflexivity|].
  rewrite (segmentsPerHalf_ok Hm). cbn [SegmentCalc.bind].
  pose proof (mod_nonzero_gap Hm). pose proof sph_bounds.
  pose proof sph_pos. pose proof half_bounds.
  unfold SegmentCalc.umul, SegmentCalc.usub.
  rewrite (wrap_small (s * (l / 2 / s))) by nia.
  rewrite (wrap_small (s * (l / 2 / s) * 2)) by nia.
  destruct (Z.gtb_spec l (s * (l / 2 / s) * 2)); [|lia].
  cbn [SegmentCalc.bind]. rewrite wrap_small by nia. f_equal. ring.
Qed.

Lemma segments_ok :
  SegmentCalc.segments s l = SegmentCalc.Ok (segCount s l).
Proof using Hs Hl Hhalf.
  unfold segCount, SegmentCalc.segments, SegmentCalc.umod, SegmentCalc.udiv,
    SegmentCalc.assert.
  destruct (Z.leb_spec s (l / 2)); [|lia].
  destruct (Z.eqb_spec s 0); [lia|]. cbn [SegmentCalc.bind].
  destruct (Z.eqb_spec (l mod s) 0) as [Hm|Hm]; [reflexivity|].
  rewrite (segmentsPerHalf_ok Hm). cbn [SegmentCalc.bind].
  pose proof sph_bounds. pose proof sph_pos. pose proof half_bounds.
  unfold SegmentCalc.umul. rewrite wrap_small by nia. f_equal. ring.
Qed.

Lemma sq_ge : s <= s * (l / 2 / s).
Proof using Hs Hl Hhalf. pose proof sph_pos. nia. Qed.

Lemma divisible_eq : l mod s = 0 -> l = s * (l / s).
Proof using Hs Hl Hhalf. intros Hm. pose proof (Z.div_mod l s). lia. Qed.

Lemma segGap_bounds : 0 <= segGap s l < 2 * s.
Proof using Hs Hl Hhalf.
  unfold segGap. destruct (Z.eqb_spec (l mod s) 0) as [Hm|Hm]; [lia|].
  pose proof (mod_nonzero_gap Hm). pose proof sph_bounds.
  pose proof half_bounds. lia.
Qed.

Lemma segGap_zero_iff : segGap s l = 0 <-> l mod s = 0.
Proof using Hs Hl Hhalf.
  unfold segGap. destruct (Z.eqb_spec (l mod s) 0) as [Hm|Hm]; [tauto|].
  pose proof (mod_nonzero_gap Hm). lia.
Qed.

Lemma segCount_cover : segCount s l * s + segGap s l = l.
Proof using Hs Hl Hhalf.
  unfold segCount, segGap.
  destruct (Z.eqb_spec (l mod s) 0) as [Hm|Hm].
  - pose proof (divisible_eq Hm). lia.
  - ring.
Qed.

Lemma segCount_ge_2 : 2 <= segCount s l.
Proof using Hs Hl Hhalf.
  unfold segCount. destruct (Z.eqb_spec (l mod s) 0) as [Hm|Hm].
  - apply div_ge_iff; [exact Hs|]. pose proof half_bounds. lia.
  - pose proof sph_pos. lia.
Qed.

Lemma segCount_le : segCount s l <= l.
Proof using Hs Hl Hhalf.
  pose proof segCount_cover. pose proof segGap_bounds.
  pose proof segCount_ge_2. nia.
Qed.

Lemma segStart_bounds i :
  0 <= i < segCount s l ->
  1 <= segStart s l i /\ segStart s l i + s - 1 <= l.
Proof using Hs Hl Hhalf.
  intros Hi. pose proof segCount_cover as Hc. pose proof segGap_bounds.
  unfold segStart, segCount in *.
  destruct (Z.eqb_spec (l mod s) 0) as [Hm|Hm]; cbn [orb].
  - nia.
  - destruct (Z.ltb_spec i (l / 2 / s)); pose proof sph_bounds;
      pose proof half_bounds; nia.
Qed.

Lemma segStart_step i j :
  0 <= i -> i < j -> segStart s l i + s <= segStart s l j.
Proof using Hs Hl Hhalf.
  intros Hi Hij. pose proof segGap_bounds. unfold segStart.
  destruct (Z.eqb_spec (l mod s) 0) as [Hm|Hm]; cbn [orb]; [nia|].
  destruct (Z.ltb_spec i (l / 2 / s)); destruct (Z.ltb_spec j (l / 2 / s));
    nia.
Qed.

Lemma start_ok i :
  0 <= i < segCount s l ->
  SegmentCalc.start s l i = SegmentCalc.Ok (segStart s l i).
Proof using Hs Hl Hhalf.
  intros Hi. pose proof (segStart_bounds i Hi) as Hb.
  pose proof segGap_bounds as Hg. pose proof segCount_le as Hn.
  unfold SegmentCalc.start, SegmentCalc.umod, SegmentCalc.assert.
  unfold segStart, segCount in *.
  destruct (Z.leb_spec s (l / 2)); [|lia].
  destruct (Z.eqb_spec s 0); [lia|]. cbn [SegmentCalc.bind].
  destruct (Z.eqb_spec (l mod s) 0) as [Hm|Hm]; cbn [orb] in *.
  - unfold SegmentCalc.uadd, SegmentCalc.umul.
    rewrite (wrap_small (i * s)) by nia. rewrite wrap_small by nia.
    reflexivity.
  - rewrite (segmentsPerHalf_ok Hm). cbn [SegmentCalc.bind].
    pose proof sph_bounds. pose proof half_bounds. pose proof sph_pos.
    destruct (Z.ltb_spec i (l / 2 / s)).
    + unfold SegmentCalc.uadd, SegmentCalc.umul.
      rewrite (wrap_small (i * s)) by nia. rewrite wrap_small by nia.
      reflexivity.
    + rewrite remainder_ok. cbn [SegmentCalc.bind].
      unfold SegmentCalc.uadd, SegmentCalc.umul, SegmentCalc.usub.
      rewrite (wrap_small (i - l / 2 / s)) by nia.
      rewrite (wrap_small (l / 2 / s * s)) by nia.
      rewrite (wrap_small ((i - l / 2 / s) * s)) by nia.
      rewrite (wrap_small (l / 2 / s * s + segGap s l)) by nia.
      rewrite (wrap_small (l / 2 / s * s + segGap s l + (i - l / 2 / s) * s))
        by nia.
      rewrite wrap_small by nia. f_equal. ring.
Qed.

(** What [index] returns: the middle marker for the positions of the
    uncovered middle, and otherwise the segment the position lies in. *)
Lemma index_spec pos :
  1 <= pos <= l ->
  exists v,
    SegmentCalc.index s pos l = SegmentCalc.Ok v /\
    (v = SegmentCalc.MIDDLE_SEGMENT /\ l mod s <> 0 /\
       s * (l / 2 / s) < pos <= s * (l / 2 / s) + segGap s l
     \/
     0 <= v < segCount s l /\ segStart s l v <= pos < segStart s l v + s).
Proof using Hs Hl Hhalf.
  intros Hpos.
  pose proof segGap_bounds as Hg. pose proof sph_bounds as Hq.
  pose proof half_bounds as Hh. pose proof sph_pos as Hq1.
  pose proof sq_ge as Hsq.
  pose proof (Z.mul_div_le (pos - 1) s Hs) as Hd1.
  pose proof (Z.mul_succ_div_gt (pos - 1) s Hs) as Hd2.
  unfold SegmentCalc.index, SegmentCalc.umod, SegmentCalc.udiv,
    SegmentCalc.assert.
  destruct (Z.gtb_spec pos 0); [|lia].
  destruct (Z.leb_spec pos l); [|lia].
  destruct (Z.leb_spec s (l / 2)); [|lia]. cbn [SegmentCalc.bind].
  destruct (Z.eqb_spec s 0); [lia|]. cbn [SegmentCalc.bind].
  assert (Eu : SegmentCalc.usub pos 1 = pos - 1)
    by (unfold SegmentCalc.usub; apply wrap_small; lia).
  rewrite !Eu.
  destruct (Z.eqb_spec (l mod s) 0) as [Hm|Hm].
  - eexists. split; [reflexivity|]. right.
    unfold segCount, segStart. rewrite Hm. cbn [Z.eqb orb].
    pose proof (divisible_eq Hm).
    assert (0 <= (pos - 1) / s) by (apply Z.div_pos; lia).
    assert ((pos - 1) / s < l / s) by (apply div_lt_iff; lia).
    lia.
  - assert (E0 : (l mod s =? 0) = false) by now apply Z.eqb_neq.
    pose proof (mod_nonzero_gap Hm) as Hgap.
    assert (Eg : segGap s l = l - 2 * (s * (l / 2 / s)))
      by (unfold segGap; now rewrite E0).
    destruct (Z.ltb_spec (pos - 1) (l / 2)) as [Hleft|Hright].
    + rewrite (segmentsPerHalf_ok Hm). cbn [SegmentCalc.bind].
      destruct (Z.geb_spec ((pos - 1) / s) (l / 2 / s)) as [Hge|Hlt].
      * eexists. split; [reflexivity|]. left.
        split; [reflexivity|]. split; [exact Hm|].
        apply div_ge_iff in Hge; lia.
      * eexists. split; [reflexivity|]. right.
        assert (0 <= (pos - 1) / s) by (apply Z.div_pos; lia).
        unfold segCount, segStart. rewrite E0. cbn [orb].
        destruct (Z.ltb_spec ((pos - 1) / s) (l / 2 / s)); lia.
    + rewrite remainder_ok. cbn [SegmentCalc.bind].
      unfold SegmentCalc.usub. rewrite (wrap_small (pos - 1 - segGap s l))
        by lia.
      rewrite (segmentsPerHalf_ok Hm). cbn [SegmentCalc.bind].
      pose proof (Z.mul_div_le (pos - 1 - segGap s l) s Hs) as He1.
      pose proof (Z.mul_succ_div_gt (pos - 1 - segGap s l) s Hs) as He2.
      destruct (Z.ltb_spec ((pos - 1 - segGap s l) / s) (l / 2 / s))
        as [Hlt|Hge].
      * eexists. split; [reflexivity|]. left.
        split; [reflexivity|]. split; [exact Hm|].
        apply div_lt_iff in Hlt; lia.
      * eexists. split; [reflexivity|]. right.
        assert ((pos - 1 - segGap s l) / s < 2 * (l / 2 / s))
          by (apply div_lt_iff; lia).
        unfold segCount, segStart. rewrite E0. cbn [orb].
        destruct (Z.ltb_spec ((pos - 1 - segGap s l) / s) (l / 2 / s)); lia.
Qed.

End SegmentFacts.

Lemma MIDDLE_SEGMENT_val : SegmentCalc.MIDDLE_SEGMENT = 2 ^ 32 - 1.
Proof. reflexivity. Qed.

Lemma segment_unique (s l i j pos : Z) :
  0 < s -> l < 2 ^ 32 -> s <= l / 2 -> 0 <= i -> 0 <= j ->
  segStart s l i <= pos < segStart s l i + s ->
  segStart s l j <= pos < segStart s l j + s ->
  i = j.
Proof.
  intros Hs Hl Hh Hi Hj Pi Pj.
  destruct (Z.lt_trichotomy i j) as [H|[H|H]]; [|exact H|].
  - pose proof (segStart_step s l Hs Hl Hh i j Hi H). lia.
  - pose proof (segStart_step s l Hs Hl Hh j i Hj H). lia.
Qed.

Lemma middle_disjoint (s l v pos : Z) :
  0 < s -> l < 2 ^ 32 -> s <= l / 2 -> l mod s <> 0 -> 0 <= v ->
  segStart s l v <= pos < segStart s l v + s ->
  s * (l / 2 / s) < pos <= s * (l / 2 / s) + segGap s l ->
  False.
Proof.
  intros Hs Hl Hh Hm Hv Pv Pm.
  pose proof (segGap_bounds s l Hs Hl Hh).
  unfold segStart in Pv.
  assert (E0 : (l mod s =? 0) = false) by now apply Z.eqb_neq.
  rewrite E0 in Pv. cbn [orb] in Pv.
  destruct (Z.ltb_spec v (l / 2 / s)); nia.
Qed.

(** X10: the segments and the uncovered middle make up the sequence.  For a
    segment size [s > 0] and a length [l] with [s <= l / 2], [segments]
    returns a number [n >= 2] and [remainder] a length [r] with
    [n * s + r = l] and [r < 2 s]; [r] is zero exactly when [s] divides
    [l]. *)
Theorem segments_tile (s l : Z) :
  0 < s -> s <= l / 2 -> l < 2 ^ 32 ->
  exists n r,
    SegmentCalc.segments s l = SegmentCalc.Ok n /\
    SegmentCalc.remainder s l = SegmentCalc.Ok r /\
    n * s + r = l /\ 0 <= r < 2 * s /\ 2 <= n /\
    (r = 0 <-> l mod s = 0).
Proof.
  intros Hs Hh Hl. exists (segCount s l), (segGap s l).
  split; [now apply segments_ok|]. split; [now apply remainder_ok|].
  split; [now apply segCount_cover|].
  split; [now apply segGap_bounds|].
  split; [now apply segCount_ge_2 | now apply segGap_zero_iff].
Qed.

Lemma segments_tile_witness :
  exists n r,
    SegmentCalc.segments 4 17 = SegmentCalc.Ok n /\
    SegmentCalc.remainder 4 17 = SegmentCalc.Ok r /\
    n * 4 + r = 17 /\ 0 <= r < 2 * 4 /\ 2 <= n /\
    (r = 0 <-> 17 mod 4 = 0).
Proof. apply (segments_tile 4 17); lia. Defined.

(** X11: [index] never fails on a position of the sequence, and what it
    returns is either [MIDDLE_SEGMENT], only when [s] does not divide [l],
    or the index, below [segments(l)], of the segment whose [s] positions
    from [start] on contain the position. *)
Theorem index_sound (s l pos : Z) :
  0 < s -> s <= l / 2 -> l < 2 ^ 32 -> 1 <= pos <= l ->
  exists v,
    SegmentCalc.index s pos l = SegmentCalc.Ok v /\
    (v = SegmentCalc.MIDDLE_SEGMENT /\ l mod s <> 0 \/
     v <> SegmentCalc.MIDDLE_SEGMENT /\
     exists n p,
       SegmentCalc.segments s l = SegmentCalc.Ok n /\ 0 <= v < n /\
       SegmentCalc.start s l v = SegmentCalc.Ok p /\ p <= pos < p + s).
Proof.
  intros Hs Hh Hl Hpos.
  destruct (index_spec s l Hs Hl Hh pos Hpos) as (v & E & [M | [Hv Hp]]).
  - exists v. split; [exact E|]. left. tauto.
  - exists v. split; [exact E|]. right.
    pose proof (segCount_le s l Hs Hl Hh).
    split; [rewrite MIDDLE_SEGMENT_val; lia|].
    exists (segCount s l), (segStart s l v).
    split; [now apply segments_ok|]. split; [exact Hv|].
    split; [now apply start_ok | exact Hp].
Qed.

Lemma index_sound_witness :
  exists v,
    SegmentCalc.index 4 14 17 = SegmentCalc.Ok v /\
    (v = SegmentCalc.MIDDLE_SEGMENT /\ 17 mod 4 <> 0 \/
     v <> SegmentCalc.MIDDLE_SEGMENT /\
     exists n p,
       SegmentCalc.segments 4 17 = SegmentCalc.Ok n /\ 0 <= v < n /\
       SegmentCalc.start 4 17 v = SegmentCalc.Ok p /\ p <= 14 < p + 4).
Proof. apply (index_sound 4 17 14); lia. Defined.

(** X12: [start] and [index] agree.  For a segment index [i] below
    [segments(l)], [start] returns a position [p] with the whole segment
    [p .. p + s - 1] inside the sequence, and [index] maps each of these [s]
    positions back to [i]. *)
Theorem start_index_round_trip (s l n i : Z) :
  0 < s -> s <= l / 2 -> l < 2 ^ 32 ->
  SegmentCalc.segments s l = SegmentCalc.Ok n -> 0 <= i < n ->
  exists p,
    SegmentCalc.start s l i = SegmentCalc.Ok p /\
    1 <= p /\ p + s - 1 <= l /\
    forall d, 0 <= d < s -> SegmentCalc.index s (p + d) l = SegmentCalc.Ok i.
Proof.
  intros Hs Hh Hl Hn Hi.
  rewrite (segments_ok s l Hs Hl Hh) in Hn. injection Hn as <-.
  pose proof (segStart_bounds s l Hs Hl Hh i Hi) as Hb.
  exists (segStart s l i).
  split; [now apply start_ok|]. split; [lia|]. split; [lia|].
  intros d Hd.
  destruct (index_spec s l Hs Hl Hh (segStart s l i + d) ltac:(lia))
    as (v & E & [(_ & Hm & Pm) | [Hv Hp]]).
  - exfalso.
    apply (middle_disjoint s l i (segStart s l i + d)); try assumption; lia.
  - rewrite E. f_equal.
    apply (segment_unique s l v i (segStart s l i + d)); try assumption; lia.
Qed.

Lemma start_index_round_trip_witness :
  exists p,
    SegmentCalc.start 4 17 2 = SegmentCalc.Ok p /\
    1 <= p /\ p + 4 - 1 <= 17 /\
    forall d, 0 <= d < 4 -> SegmentCalc.index 4 (p + d) 17 = SegmentCalc.Ok 2.
Proof.
  apply (start_index_round_trip 4 17 4 2); try lia. reflexivity.
Defined.

(** X13: the positions [index] marks as middle are exactly those of the
    uncovered middle: with [h = segmentsPerHalf(l)] and [r = remainder(l)],
    the positions [h s + 1 .. h s + r]. *)
Theorem index_middle_iff (s l pos : Z) :
  0 < s -> s <= l / 2 -> l < 2 ^ 32 -> 1 <= pos <= l ->
  SegmentCalc.index s pos l = SegmentCalc.Ok SegmentCalc.MIDDLE_SEGMENT <->
  exists h r,
    SegmentCalc.segmentsPerHalf s l = SegmentCalc.Ok h /\
    SegmentCalc.remainder s l = SegmentCalc.Ok r /\
    h * s < pos <= h * s + r.
Proof.
  intros Hs Hh Hl Hpos.
  destruct (index_spec s l Hs Hl Hh pos Hpos) as (v & E & [M | [Hv Hp]]).
  - destruct M as (-> & Hm & Pm). split; [intros _|intros _; exact E].
    exists (l / 2 / s), (segGap s l).
    split; [now apply segmentsPerHalf_ok|].
    split; [now apply remainder_ok | lia].
  - pose proof (segCount_le s l Hs Hl Hh).
    split.
    + rewrite E. intros Hv'. injection Hv' as Hv'.
      rewrite MIDDLE_SEGMENT_val in Hv'. lia.
    + intros (h & r & Eh & Er & Pm). exfalso.
      destruct (Z.eq_dec (l mod s) 0) as [Hm|Hm].
      * rewrite (segmentsPerHalf_divisible s l Hs Hl Hh Hm) in Eh.
        discriminate Eh.
      * rewrite (segmentsPerHalf_ok s l Hs Hl Hh Hm) in Eh.
        rewrite (remainder_ok s l Hs Hl Hh) in Er.
        injection Eh as <-. injection Er as <-.
        apply (middle_disjoint s l v pos); try assumption; lia.
Qed.

Lemma index_middle_iff_witness :
  SegmentCalc.index 3 5 10 = SegmentCalc.Ok SegmentCalc.MIDDLE_SEGMENT <->
  exists h r,
    SegmentCalc.segmentsPerHalf 3 10 = SegmentCalc.Ok h /\
    SegmentCalc.remainder 3 10 = SegmentCalc.Ok r /\
    h * 3 < 5 <= h * 3 + r.
Proof. apply (index_middle_iff 3 10 5); lia. Defined.

(** X14: [index] is monotone: of two positions of the sequence, neither in
    the middle, the later one has the larger or equal segment index. *)
Theorem index_monotone (s l p1 p2 i1 i2 : Z) :
  0 < s -> s <= l / 2 -> l < 2 ^ 32 ->
  1 <= p1 -> p1 <= p2 -> p2 <= l ->
  SegmentCalc.index s p1 l = SegmentCalc.Ok i1 ->
  SegmentCalc.index s p2 l = SegmentCalc.Ok i2 ->
  i1 <> SegmentCalc.MIDDLE_SEGMENT -> i2 <> SegmentCalc.MIDDLE_SEGMENT ->
  i1 <= i2.
Proof.
  intros Hs Hh Hl H1 H12 H2 E1 E2 N1 N2.
  destruct (index_spec s l Hs Hl Hh p1 ltac:(lia))
    as (v1 & E1' & [(M & _) | [Hv1 Hp1]]);
    rewrite E1 in E1'; injection E1' as <-; [contradiction|].
  destruct (index_spec s l Hs Hl Hh p2 ltac:(lia))
    as (v2 & E2' & [(M & _) | [Hv2 Hp2]]);
    rewrite E2 in E2'; injection E2' as <-; [contradiction|].
  destruct (Z.le_gt_cases i1 i2) as [H|H]; [exact H|].
  pose proof (segStart_step s l Hs Hl Hh i2 i1 ltac:(lia) ltac:(lia)). lia.
Qed.

Lemma index_monotone_witness : 0 <= 3.
Proof.
  apply (index_monotone 4 17 3 14 0 3); try lia; try reflexivity;
    vm_compute; discriminate.
Defined.


(** X15: the segments lie one after the other.  Segment 0 starts at
    position 1, the last segment ends at position [l], and each segment
    starts [s] after the one before, except the first segment of the right
    half, which starts [s + remainder(l)] after the last one of the left
    half. *)
Theorem start_consecutive (s l n : Z) :
  0 < s -> s <= l / 2 -> l < 2 ^ 32 ->
  SegmentCalc.segments s l = SegmentCalc.Ok n ->
  SegmentCalc.start s l 0 = SegmentCalc.Ok 1 /\
  (exists p, SegmentCalc.start s l (n - 1) = SegmentCalc.Ok p /\
             p + s - 1 = l) /\
  forall i, 0 <= i -> i + 1 < n ->
    exists p p',
      SegmentCalc.start s l i = SegmentCalc.Ok p /\
      SegmentCalc.start s l (i + 1) = SegmentCalc.Ok p' /\
      (p' = p + s \/
       SegmentCalc.segmentsPerHalf s l = SegmentCalc.Ok (i + 1) /\
       exists r, SegmentCalc.remainder s l = SegmentCalc.Ok r /\
                 p' = p + s + r).
Proof.
  intros Hs Hh Hl Hn.
  rewrite (segments_ok s l Hs Hl Hh) in Hn. injection Hn as <-.
  pose proof (segCount_ge_2 s l Hs Hl Hh) as Hn2.
  pose proof (segCount_cover s l Hs Hl Hh) as Hc.
  pose proof (sph_pos s l Hs Hl Hh) as Hq1.
  split; [|split].
  - rewrite start_ok by (assumption || lia). f_equal.
    unfold segStart. destruct (Z.ltb_spec 0 (l / 2 / s)); [|lia].
    rewrite orb_true_r. reflexivity.
  - exists (segStart s l (segCount s l - 1)).
    split; [apply start_ok; assumption || lia|].
    unfold segStart, segCount, segGap in *.
    destruct (Z.eqb_spec (l mod s) 0); cbn [orb]; [lia|].
    destruct (Z.ltb_spec (2 * (l / 2 / s) - 1) (l / 2 / s)); lia.
  - intros i Hi0 Hi1.
    exists (segStart s l i), (segStart s l (i + 1)).
    split; [apply start_ok; assumption || lia|].
    split; [apply start_ok; assumption || lia|].
    unfold segStart.
    destruct (Z.eqb_spec (l mod s) 0) as [Hm|Hm]; cbn [orb]; [left; lia|].
    destruct (Z.ltb_spec i (l / 2 / s));
      destruct (Z.ltb_spec (i + 1) (l / 2 / s)); try (left; lia).
    right. assert (Ei : i = l / 2 / s - 1) by lia. rewrite Ei.
    replace (l / 2 / s - 1 + 1) with (l / 2 / s) by ring.
    split; [now apply segmentsPerHalf_ok|].
    exists (segGap s l). split; [now apply remainder_ok | ring].
Qed.

Lemma start_consecutive_witness :
  SegmentCalc.start 4 17 0 = SegmentCalc.Ok 1 /\
  (exists p, SegmentCalc.start 4 17 (4 - 1) = SegmentCalc.Ok p /\
             p + 4 - 1 = 17) /\
  forall i, 0 <= i -> i + 1 < 4 ->
    exists p p',
      SegmentCalc.start 4 17 i = SegmentCalc.Ok p /\
      SegmentCalc.start 4 17 (i + 1) = SegmentCalc.Ok p' /\
      (p' = p + 4 \/
       SegmentCalc.segmentsPerHalf 4 17 = SegmentCalc.Ok (i + 1) /\
       exists r, SegmentCalc.remainder 4 17 = SegmentCalc.Ok r /\
                 p' = p + 4 + r).
Proof. apply (start_consecutive 4 17 4); try lia. reflexivity. Defined.

(** X16: [indexRange] on an alignment [start <= end] inside the sequence,
    for a segment size below [2^31] (so that [m_segmentSize * 2] does not
    wrap).  It never fails.  When its flag is true, the two indices are
    ordered and below [segments(l)], the first segment ends at or after
    [start] and the last one starts at or before [end].  When its flag is
    false, either the sequence is shorter than two segments and the range is
    [(0, 0)], or both ends lie in the uncovered middle. *)
Theorem indexRange_sound (s l st en : Z) :
  0 < s < 2 ^ 31 -> l < 2 ^ 32 -> 1 <= st -> st <= en -> en <= l ->
  exists a b ok,
    SegmentCalc.indexRange s st en l = SegmentCalc.Ok ((a, b), ok) /\
    if ok then
      exists n pa pb,
        SegmentCalc.segments s l = SegmentCalc.Ok n /\
        0 <= a /\ a <= b /\ b < n /\
        SegmentCalc.start s l a = SegmentCalc.Ok pa /\
        SegmentCalc.start s l b = SegmentCalc.Ok pb /\
        st < pa + s /\ pb <= en
    else
      l < 2 * s /\ a = 0 /\ b = 0 \/
      SegmentCalc.index s st l = SegmentCalc.Ok SegmentCalc.MIDDLE_SEGMENT /\
      SegmentCalc.index s en l = SegmentCalc.Ok SegmentCalc.MIDDLE_SEGMENT.
Proof.
  intros Hs Hl H1 H12 H2.
  unfold SegmentCalc.indexRange, SegmentCalc.umul.
  rewrite (wrap_small (s * 2)) by lia.
  destruct (Z.ltb_spec l (s * 2)) as [Hshort|Hlong].
  { exists 0, 0, false. split; [reflexivity|]. left. lia. }
  assert (Hs0 : 0 < s) by lia.
  assert (Hh : s <= l / 2) by lia.
  pose proof (segCount_le s l Hs0 Hl Hh) as Hn.
  pose proof (segGap_bounds s l Hs0 Hl Hh) as Hg.
  pose proof (sph_pos s l Hs0 Hl Hh) as Hq1.
  pose proof (sph_bounds s l Hs0 Hl Hh) as Hq.
  pose proof MIDDLE_SEGMENT_val as HM.
  assert (Hfin : forall a b : Z,
            0 <= a -> a <= b -> b < segCount s l ->
            st < segStart s l a + s -> segStart s l b <= en ->
            exists n pa pb,
              SegmentCalc.segments s l = SegmentCalc.Ok n /\
              0 <= a /\ a <= b /\ b < n /\
              SegmentCalc.start s l a = SegmentCalc.Ok pa /\
              SegmentCalc.start s l b = SegmentCalc.Ok pb /\
              st < pa + s /\ pb <= en).
  { intros a b Ha Hab Hb Pa Pb.
    exists (segCount s l), (segStart s l a), (segStart s l b).
    split; [now apply segments_ok|].
    repeat split; try assumption; apply start_ok; assumption || lia. }
  destruct (index_spec s l Hs0 Hl Hh st ltac:(lia))
    as (v1 & E1 & [(-> & Hm1 & P1) | [Hv1 P1]]);
    destruct (index_spec s l Hs0 Hl Hh en ltac:(lia))
      as (v2 & E2 & [(-> & Hm2 & P2) | [Hv2 P2]]);
    rewrite E1, E2; cbn [SegmentCalc.bind].
  - rewrite Z.eqb_refl. cbn [andb].
    exists SegmentCalc.MIDDLE_SEGMENT, SegmentCalc.MIDDLE_SEGMENT, false.
    split; [reflexivity|]. right. split; reflexivity.
  - rewrite Z.eqb_refl. cbn [andb].
    destruct (Z.eqb_spec v2 SegmentCalc.MIDDLE_SEGMENT) as [Ev|_]; [lia|].
    rewrite (segmentsPerHalf_ok s l Hs0 Hl Hh Hm1). cbn [SegmentCalc.bind].
    exists (l / 2 / s), v2, true. split; [reflexivity|].
    assert (E0 : (l mod s =? 0) = false) by now apply Z.eqb_neq.
    assert (l / 2 / s <= v2).
    { destruct (Z.le_gt_cases (l / 2 / s) v2) as [H|H]; [exact H|].
      exfalso. unfold segStart in P2. rewrite E0 in P2. cbn [orb] in P2.
      assert ((v2 + 1) * s <= l / 2 / s * s)
        by (apply Z.mul_le_mono_nonneg_r; lia).
      destruct (Z.ltb_spec v2 (l / 2 / s)); lia. }
    apply Hfin; try lia.
    unfold segStart. rewrite E0, Z.ltb_irrefl. cbn [orb]. lia.
  - destruct (Z.eqb_spec v1 SegmentCalc.MIDDLE_SEGMENT) as [Ev|_]; [lia|].
    cbn [andb]. rewrite Z.eqb_refl.
    rewrite (segmentsPerHalf_ok s l Hs0 Hl Hh Hm2). cbn [SegmentCalc.bind].
    unfold SegmentCalc.usub. rewrite wrap_small by lia.
    exists v1, (l / 2 / s - 1), true. split; [reflexivity|].
    assert (E0 : (l mod s =? 0) = false) by now apply Z.eqb_neq.
    assert (Hc2 : segCount s l = 2 * (l / 2 / s))
      by (unfold segCount; now rewrite E0).
    assert (v1 < l / 2 / s).
    { destruct (Z.lt_ge_cases v1 (l / 2 / s)) as [H|H]; [exact H|].
      exfalso. unfold segStart in P1. rewrite E0 in P1. cbn [orb] in P1.
      assert (l / 2 / s * s <= v1 * s)
        by (apply Z.mul_le_mono_nonneg_r; lia).
      destruct (Z.ltb_spec v1 (l / 2 / s)); lia. }
    apply Hfin; try lia.
    unfold segStart. rewrite E0. cbn [orb].
    destruct (Z.ltb_spec (l / 2 / s - 1) (l / 2 / s)); lia.
  - destruct (Z.eqb_spec v1 SegmentCalc.MIDDLE_SEGMENT) as [Ev|_]; [lia|].
    destruct (Z.eqb_spec v2 SegmentCalc.MIDDLE_SEGMENT) as [Ev|_]; [lia|].
    cbn [andb].
    exists v1, v2, true. split; [reflexivity|].
    apply Hfin; try lia.
    destruct (Z.le_gt_cases v1 v2) as [H|H]; [exact H|].
    pose proof (segStart_step s l Hs0 Hl Hh v2 v1 ltac:(lia) ltac:(lia)).
    lia.
Qed.

Lemma indexRange_sound_witness :
  exists a b ok,
    SegmentCalc.indexRange 4 5 14 17 = SegmentCalc.Ok ((a, b), ok) /\
    if ok then
      exists n pa pb,
        SegmentCalc.segments 4 17 = SegmentCalc.Ok n /\
        0 <= a /\ a <= b /\ b < n /\
        SegmentCalc.start 4 17 a = SegmentCalc.Ok pa /\
        SegmentCalc.start 4 17 b = SegmentCalc.Ok pb /\
        5 < pa + 4 /\ pb <= 14
    else
      17 < 2 * 4 /\ a = 0 /\ b = 0 \/
      SegmentCalc.index 4 5 17 = SegmentCalc.Ok SegmentCalc.MIDDLE_SEGMENT /\
      SegmentCalc.index 4 14 17 = SegmentCalc.Ok SegmentCalc.MIDDLE_SEGMENT.
Proof. apply (indexRange_sound 4 17 5 14); lia. Defined.

